(** * Bitboard chess: a shallow embedding of the position engine

    The engine of [index.mjs] (BigInt bitboards) is embedded function by
    function; the parser and resolver of [src/bitboard_chess.c] are embedded
    next to it for the comparison of the two implementations.

    Conventions of the embedding.
    - A BigInt is a [Z]; [&], [|], [^], [~], [<<] are [Z.land], [Z.lor],
      [Z.lxor], [Z.lnot], [Z.shiftl] (a BigInt shift by a negative count
      shifts the other way, exactly as [Z.shiftl] does).
    - A JavaScript string is the list of its code units, [list ascii]; only
      code units below 256 are represented.
    - [this.pawns = [w, b]] is a pair indexed by a [Color].
    - A JavaScript exception is the [Throw] outcome of the [Outcome] monad. *)

From Stdlib Require Import ZArith List Bool Ascii String DecimalString Lia Permutation.
Import ListNotations.
Local Open Scope Z_scope.


(** ** JavaScript values *)

Definition jsstring := list ascii.

Definition str (s : string) : jsstring := list_ascii_of_string s.

Definition code (c : ascii) : Z := Z.of_N (N_of_ascii c).

Fixpoint str_eqb (a b : jsstring) : bool :=
  match a, b with
  | [], [] => true
  | x :: a', y :: b' => Ascii.eqb x y && str_eqb a' b'
  | _, _ => false
  end.

(** [c >= lo && c <= hi] on one-character strings. *)
Definition between (lo hi c : ascii) : bool :=
  (code lo <=? code c) && (code c <=? code hi).

(** Truthiness of a value that is a string or [undefined]. *)
Definition truthy (o : option jsstring) : bool :=
  match o with
  | Some (_ :: _) => true
  | _ => false
  end.

(** [ToInt32] and [ToUint32] of an integral Number. *)
Definition toUint32 (z : Z) : Z := z mod 2 ^ 32.

Definition toInt32 (z : Z) : Z :=
  let u := toUint32 z in if 2 ^ 31 <=? u then u - 2 ^ 32 else u.

(** A BigInt used as a condition is true when it is not [0n]. *)
Definition nonzero (z : Z) : bool := negb (z =? 0).

(** [arr[i]] on an array: [undefined] out of range. *)
Definition lookup {A} (l : list A) (i : Z) : option A :=
  if i <? 0 then None else nth_error l (Z.to_nat i).

(** [for (let i = lo; i < lo + n; i++)] visits [range lo n]. *)
Fixpoint range (lo : Z) (n : nat) : list Z :=
  match n with
  | O => []
  | S n' => lo :: range (lo + 1) n'
  end.

Definition squares : list Z := range 0 64.

(** ** Exceptions *)

Inductive JsError := TypeError | RangeError.

Inductive Outcome (A : Type) :=
| Ret (a : A)
| Throw (e : JsError).

Arguments Ret {A} a.
Arguments Throw {A} e.

Definition bind {A B} (o : Outcome A) (k : A -> Outcome B) : Outcome B :=
  match o with
  | Ret a => k a
  | Throw e => Throw e
  end.

Notation "x <- c ;; k" := (bind c (fun x => k))
  (at level 61, c at next level, right associativity).

(** ** Bitboards *)

(** [const bit = (sq) => 1n << BigInt(sq)]. *)
Definition bit (sq : Z) : Z := Z.shiftl 1 sq.

Inductive Color := White | Black.

(** [side ^ 1]. *)
Definition opp (c : Color) : Color :=
  match c with White => Black | Black => White end.

Definition color_eqb (a b : Color) : bool :=
  match a, b with
  | White, White | Black, Black => true
  | _, _ => false
  end.

(** [arr[color]] and [arr[color] = v] on a two-element array. *)
Definition ix (c : Color) (a : Z * Z) : Z :=
  match c with White => fst a | Black => snd a end.

Definition setIx (c : Color) (v : Z) (a : Z * Z) : Z * Z :=
  match c with White => (v, snd a) | Black => (fst a, v) end.

Inductive Kind := Pawn | Knight | Bishop | Rook | Queen | King.

Record Position := mkPosition {
  pawns : Z * Z;
  knights : Z * Z;
  bishops : Z * Z;
  rooks : Z * Z;
  queens : Z * Z;
  kings : Z * Z;
  sideToMove : Color;
  castling : jsstring;
  enPassant : Z;
  halfmove : Z;
  fullmove : Z
}.

Definition arr (k : Kind) (p : Position) : Z * Z :=
  match k with
  | Pawn => pawns p
  | Knight => knights p
  | Bishop => bishops p
  | Rook => rooks p
  | Queen => queens p
  | King => kings p
  end.

Definition setArr (k : Kind) (v : Z * Z) (p : Position) : Position :=
  match k with
  | Pawn => mkPosition v (knights p) (bishops p) (rooks p) (queens p) (kings p)
              (sideToMove p) (castling p) (enPassant p) (halfmove p) (fullmove p)
  | Knight => mkPosition (pawns p) v (bishops p) (rooks p) (queens p) (kings p)
              (sideToMove p) (castling p) (enPassant p) (halfmove p) (fullmove p)
  | Bishop => mkPosition (pawns p) (knights p) v (rooks p) (queens p) (kings p)
              (sideToMove p) (castling p) (enPassant p) (halfmove p) (fullmove p)
  | Rook => mkPosition (pawns p) (knights p) (bishops p) v (queens p) (kings p)
              (sideToMove p) (castling p) (enPassant p) (halfmove p) (fullmove p)
  | Queen => mkPosition (pawns p) (knights p) (bishops p) (rooks p) v (kings p)
              (sideToMove p) (castling p) (enPassant p) (halfmove p) (fullmove p)
  | King => mkPosition (pawns p) (knights p) (bishops p) (rooks p) (queens p) v
              (sideToMove p) (castling p) (enPassant p) (halfmove p) (fullmove p)
  end.

(** [this.<kind>[c]] and an assignment to it. *)
Definition bb (k : Kind) (c : Color) (p : Position) : Z := ix c (arr k p).

Definition setBB (k : Kind) (c : Color) (v : Z) (p : Position) : Position :=
  setArr k (setIx c v (arr k p)) p.

Definition setSideToMove (c : Color) (p : Position) : Position :=
  mkPosition (pawns p) (knights p) (bishops p) (rooks p) (queens p) (kings p)
    c (castling p) (enPassant p) (halfmove p) (fullmove p).

Definition setCastling (s : jsstring) (p : Position) : Position :=
  mkPosition (pawns p) (knights p) (bishops p) (rooks p) (queens p) (kings p)
    (sideToMove p) s (enPassant p) (halfmove p) (fullmove p).

Definition setEnPassant (e : Z) (p : Position) : Position :=
  mkPosition (pawns p) (knights p) (bishops p) (rooks p) (queens p) (kings p)
    (sideToMove p) (castling p) e (halfmove p) (fullmove p).

Definition setHalfmove (h : Z) (p : Position) : Position :=
  mkPosition (pawns p) (knights p) (bishops p) (rooks p) (queens p) (kings p)
    (sideToMove p) (castling p) (enPassant p) h (fullmove p).

Definition setFullmove (n : Z) (p : Position) : Position :=
  mkPosition (pawns p) (knights p) (bishops p) (rooks p) (queens p) (kings p)
    (sideToMove p) (castling p) (enPassant p) (halfmove p) n.

(** [reset()] followed by [_setInitialPosition()]. *)
Definition reset : Position :=
  mkPosition
    (0x000000000000FF00, 0x00FF000000000000)
    (0x0000000000000042, 0x4200000000000000)
    (0x0000000000000024, 0x2400000000000000)
    (0x0000000000000081, 0x8100000000000000)
    (0x0000000000000008, 0x0800000000000000)
    (0x0000000000000010, 0x1000000000000000)
    White (str "KQkq") (-1) 0 1.

(** ** Move descriptors *)

Record Move := mkMove {
  from : Z;
  to : Z;
  promotion : option jsstring;
  castle : option jsstring;
  enpassant : bool
}.

(** [{ from, to }] with the optional fields absent. *)
Definition plainMove (f t : Z) : Move := mkMove f t None None false.

(** ** The move applicator *)

Definition is_in (cs : jsstring) (c : ascii) : bool :=
  existsb (Ascii.eqb c) cs.

(** [s.replace(/K|Q/g, "")] and [s.replace(/k|q/g, "")]: every occurrence. *)
Definition removeSideRights (side : Color) (s : jsstring) : jsstring :=
  filter (fun c => negb (is_in (match side with
                                | White => str "KQ"
                                | Black => str "kq"
                                end) c)) s.

(** [s.replace("Q", "")] with a string pattern: the first occurrence only. *)
Fixpoint removeFirst (x : ascii) (s : jsstring) : jsstring :=
  match s with
  | [] => []
  | c :: s' => if Ascii.eqb c x then s' else c :: removeFirst x s'
  end.

Definition _finishMove (p : Position) : Position :=
  let p := setSideToMove (opp (sideToMove p)) p in
  match sideToMove p with
  | White => setFullmove (fullmove p + 1) p
  | Black => p
  end.

Definition allKinds : list Kind := [Pawn; Knight; Bishop; Rook; Queen; King].

(** [const removeAt = (arr) => (arr[enemy] &= ~toBB)]. *)
Definition removeAt (enemy : Color) (toBB : Z) (p : Position) (k : Kind) : Position :=
  setBB k enemy (Z.land (bb k enemy p) (Z.lnot toBB)) p.

(** [movePiece(arr)]: the new position and the returned boolean. *)
Definition movePiece (side : Color) (fromBB toBB : Z) (k : Kind) (p : Position)
  : Position * bool :=
  if nonzero (Z.land (bb k side p) fromBB)
  then (setBB k side (Z.lor (Z.lxor (bb k side p) fromBB) toBB) p, true)
  else (p, false).

(** The [if (movePiece(pawns)) ... else if ... else movePiece(kings)] chain:
    the first set that holds the origin is moved. *)
Fixpoint moveFirst (side : Color) (fromBB toBB : Z) (ks : list Kind) (p : Position)
  : Position :=
  match ks with
  | [] => p
  | k :: ks' =>
      let (p', moved) := movePiece side fromBB toBB k p in
      if moved then p' else moveFirst side fromBB toBB ks' p
  end.

Definition promotionTarget (s : jsstring) : Kind :=
  if str_eqb s (str "q") then Queen
  else if str_eqb s (str "r") then Rook
  else if str_eqb s (str "b") then Bishop
  else Knight.

(** Step 1: the castle branch, entered when [move.castle] is truthy. *)
Definition castleMove (p : Position) (m : Move) : Position :=
  let side := sideToMove p in
  let fromBB := bit (from m) in
  let toBB := bit (to m) in
  let kingSide :=
    match castle m with
    | Some s => str_eqb s (str "K")
    | None => false
    end in
  let p := setBB King side (Z.lxor (bb King side p) (Z.lor fromBB toBB)) p in
  let p :=
    if kingSide then
      match side with
      | White => setBB Rook White (Z.lxor (bb Rook White p) (Z.lor (bit 7) (bit 5))) p
      | Black => setBB Rook Black (Z.lxor (bb Rook Black p) (Z.lor (bit 63) (bit 61))) p
      end
    else
      match side with
      | White => setBB Rook White (Z.lxor (bb Rook White p) (Z.lor (bit 0) (bit 3))) p
      | Black => setBB Rook Black (Z.lxor (bb Rook Black p) (Z.lor (bit 56) (bit 59))) p
      end in
  let p := setCastling (removeSideRights side (castling p)) p in
  _finishMove p.

(** Step 2: the pawn taken en passant. *)
Definition enPassantCapture (side : Color) (m : Move) (p : Position) : Position :=
  if enpassant m then
    let capSq := match side with White => to m - 8 | Black => to m + 8 end in
    setBB Pawn (opp side) (Z.land (bb Pawn (opp side) p) (Z.lnot (bit capSq))) p
  else p.

(** Step 5: the promotion. *)
Definition promote (side : Color) (toBB : Z) (m : Move) (p : Position) : Position :=
  match promotion m with
  | Some s =>
      if truthy (promotion m) then
        let p := setBB Pawn side (Z.land (bb Pawn side p) (Z.lnot toBB)) p in
        let target := promotionTarget s in
        setBB target side (Z.lor (bb target side p) toBB) p
      else p
  | None => p
  end.

(** Step 6: the en-passant square. *)
Definition updateEnPassant (movedPawn : bool) (m : Move) (p : Position) : Position :=
  if movedPawn && (Z.abs (to m - from m) =? 16)
  then setEnPassant (Z.shiftr (toInt32 (from m + to m)) 1) p
  else setEnPassant (-1) p.

(** Step 7: the castling rights. *)
Definition updateRights (side : Color) (fromBB : Z) (movedRook : bool) (m : Move)
  (p : Position) : Position :=
  let p :=
    if nonzero (Z.land fromBB (bb King side p))
    then setCastling (removeSideRights side (castling p)) p
    else p in
  if movedRook then
    let p := if from m =? 0 then setCastling (removeFirst "Q"%char (castling p)) p else p in
    let p := if from m =? 7 then setCastling (removeFirst "K"%char (castling p)) p else p in
    let p := if from m =? 56 then setCastling (removeFirst "q"%char (castling p)) p else p in
    let p := if from m =? 63 then setCastling (removeFirst "k"%char (castling p)) p else p in
    p
  else p.

Definition makeMove (p : Position) (m : Move) : Position :=
  let side := sideToMove p in
  let enemy := opp side in
  let fromBB := bit (from m) in
  let toBB := bit (to m) in
  if truthy (castle m) then castleMove p m
  else
    let p := enPassantCapture side m p in
    (* 3. remove captured piece *)
    let p := fold_left (removeAt enemy toBB) allKinds p in
    (* 4. move our piece *)
    let movedRook := nonzero (Z.land (bb Rook side p) fromBB) in
    let movedPawn := snd (movePiece side fromBB toBB Pawn p) in
    let p := moveFirst side fromBB toBB allKinds p in
    let p := promote side toBB m p in
    let p := updateEnPassant movedPawn m p in
    let p := updateRights side fromBB movedRook m p in
    _finishMove p.

Definition replay (ms : list Move) : Position := fold_left makeMove ms reset.

(** ** Attack tables *)

Definition inBoard (f r : Z) : bool :=
  (0 <=? f) && (f <? 8) && (0 <=? r) && (r <? 8).

(** [for (const [df, dr] of deltas) if (inBoard(nf, nr)) bb |= bit(nr * 8 + nf)]. *)
Definition stepAttacks (deltas : list (Z * Z)) (sq : Z) : Z :=
  let f := Z.rem sq 8 in
  let r := sq / 8 in
  fold_left
    (fun acc d =>
       let nf := f + fst d in
       let nr := r + snd d in
       if inBoard nf nr then Z.lor acc (bit (nr * 8 + nf)) else acc)
    deltas 0.

Definition kD : list (Z * Z) :=
  [(1, 2); (2, 1); (2, -1); (1, -2); (-1, -2); (-2, -1); (-2, 1); (-1, 2)].

Definition gD : list (Z * Z) :=
  [(1, 0); (1, 1); (0, 1); (-1, 1); (-1, 0); (-1, -1); (0, -1); (1, -1)].

Definition knightAttacks : list Z := map (stepAttacks kD) squares.
Definition kingAttacks : list Z := map (stepAttacks gD) squares.

(** One ray of a sliding piece: [bb |= bit(s); if (occ & bit(s)) break;]
    over the squares of the ray, nearest first. *)
Fixpoint castRay (occ : Z) (ray : list Z) : Z :=
  match ray with
  | [] => 0
  | s :: ray' =>
      Z.lor (bit s) (if nonzero (Z.land occ (bit s)) then 0 else castRay occ ray')
  end.

(** The squares a loop [for (d = 1; d < 8; d++) { if (off d) break; ... }]
    reaches before its guard breaks. *)
Fixpoint takeUntil {A} (off : A -> bool) (l : list A) : list A :=
  match l with
  | [] => []
  | x :: l' => if off x then [] else x :: takeUntil off l'
  end.

Definition getRookAttacks (sq occ : Z) : Z :=
  let f := Z.rem sq 8 in
  let r := Z.quot sq 8 in
  let east := map (fun nf => r * 8 + nf) (range (f + 1) (Z.to_nat (8 - (f + 1)))) in
  let west := map (fun nf => r * 8 + nf) (rev (range 0 (Z.to_nat f))) in
  let north := map (fun nr => nr * 8 + f) (range (r + 1) (Z.to_nat (8 - (r + 1)))) in
  let south := map (fun nr => nr * 8 + f) (rev (range 0 (Z.to_nat r))) in
  Z.lor (Z.lor (Z.lor (castRay occ east) (castRay occ west)) (castRay occ north))
    (castRay occ south).

(** A diagonal ray: [for (d = 1; d < 8; d++) { if (off d) break; s = sqAt d; ... }]. *)
Definition diagonal (off : Z -> bool) (sqAt : Z -> Z) : list Z :=
  map sqAt (takeUntil off (range 1 7)).

Definition getBishopAttacks (sq occ : Z) : Z :=
  let f := Z.rem sq 8 in
  let r := Z.quot sq 8 in
  let ne := diagonal (fun d => (8 <=? f + d) || (8 <=? r + d))
                     (fun d => (r + d) * 8 + (f + d)) in
  let nw := diagonal (fun d => (f - d <? 0) || (8 <=? r + d))
                     (fun d => (r + d) * 8 + (f - d)) in
  let se := diagonal (fun d => (8 <=? f + d) || (r - d <? 0))
                     (fun d => (r - d) * 8 + (f + d)) in
  let sw := diagonal (fun d => (f - d <? 0) || (r - d <? 0))
                     (fun d => (r - d) * 8 + (f - d)) in
  Z.lor (Z.lor (Z.lor (castRay occ ne) (castRay occ nw)) (castRay occ se))
    (castRay occ sw).

(** ** Square names *)

(** [parseInt(ch, 10)] of a one-character string: [None] is [NaN]. *)
Definition parseIntChar (c : ascii) : option Z :=
  if between "0" "9" c then Some (code c - 48) else None.

(** [squareToIndex(sqStr)] on a two-character string; [None] is [NaN]. *)
Definition squareToIndex (c0 c1 : ascii) : option Z :=
  let file := code c0 - 97 in
  match parseIntChar c1 with
  | Some n => Some ((n - 1) * 8 + file)
  | None => None
  end.

Definition pawnCaptureSources (toSq : Z) (color : Color) : Z :=
  let f := Z.rem toSq 8 in
  let r := Z.quot toSq 8 in
  match color with
  | White =>
      let b := if (1 <=? r) && (1 <=? f) then bit ((r - 1) * 8 + (f - 1)) else 0 in
      if (1 <=? r) && (f <? 7) then Z.lor b (bit ((r - 1) * 8 + (f + 1))) else b
  | Black =>
      let b := if (r <? 7) && (1 <=? f) then bit ((r + 1) * 8 + (f - 1)) else 0 in
      if (r <? 7) && (f <? 7) then Z.lor b (bit ((r + 1) * 8 + (f + 1))) else b
  end.

(** The mask of a file, as [filterDisamb] and [resolveSAN] spell it out. *)
Definition fileMaskOf (fileIdx : Z) : Z :=
  Z.lor (Z.lor (Z.lor (Z.lor (Z.lor (Z.lor (Z.lor
    (Z.shiftl 1 fileIdx) (Z.shiftl 1 (8 + fileIdx))) (Z.shiftl 1 (16 + fileIdx)))
    (Z.shiftl 1 (24 + fileIdx))) (Z.shiftl 1 (32 + fileIdx))) (Z.shiftl 1 (40 + fileIdx)))
    (Z.shiftl 1 (48 + fileIdx))) (Z.shiftl 1 (56 + fileIdx)).

(** The candidate set after the optional file and rank masks.  The rank
    digit goes through [parseInt]; [BigInt(NaN)] is a [RangeError]. *)
Definition disambMasked (candidates : Z) (disambFile disambRank : option ascii)
  : Outcome Z :=
  let b :=
    match disambFile with
    | Some fc => Z.land candidates (fileMaskOf (code fc - 97))
    | None => candidates
    end in
  match disambRank with
  | Some rc =>
      match parseIntChar rc with
      | Some n => Ret (Z.land b (Z.shiftl 0xff ((n - 1) * 8)))
      | None => Throw RangeError
      end
  | None => Ret b
  end.

(** The scan [for (sq = 0; sq < 64; sq++) if (bb & bit(sq)) { if (found >= 0)
    return -1; found = sq; }], with [found] as the accumulator. *)
Fixpoint scanSingle (b : Z) (sqs : list Z) (found : Z) : Z :=
  match sqs with
  | [] => found
  | sq :: sqs' =>
      if nonzero (Z.land b (bit sq))
      then if 0 <=? found then -1 else scanSingle b sqs' sq
      else scanSingle b sqs' found
  end.

Definition filterDisamb (candidates : Z) (disambFile disambRank : option ascii)
  : Outcome Z :=
  b <- disambMasked candidates disambFile disambRank ;;
  Ret (scanSingle b squares (-1)).

(** ** SAN parsing *)

(** White space of [trim()] and of [\s], among the code units below 256. *)
Definition isSpace (c : ascii) : bool :=
  let n := code c in
  ((9 <=? n) && (n <=? 13)) || (n =? 32) || (n =? 160).

Fixpoint dropSpaces (s : jsstring) : jsstring :=
  match s with
  | [] => []
  | c :: s' => if isSpace c then dropSpaces s' else s
  end.

Definition trim (s : jsstring) : jsstring :=
  rev (dropSpaces (rev (dropSpaces s))).

Record ParsedSAN := mkParsed {
  piece : option ascii;
  targetIndex : Z;
  disambFile : option ascii;
  disambRank : option ascii;
  parsedPromotion : option jsstring;
  parsedCastle : option jsstring
}.

(** [toLowerCase()] on one of N, B, R, Q. *)
Definition toLowerCase (c : ascii) : ascii :=
  if between "A" "Z" c then ascii_of_N (N_of_ascii c + 32) else c.

(** [s.match(/([a-h][1-8])(?:=([NBRQ]))?$/)] read from the end of the text:
    the text before the match, the two characters of the square and the
    promotion letter.  The two shapes exclude each other (the last character
    is a digit or a letter), so the leftmost match is the only one. *)
Definition matchTarget (s : jsstring) : option (jsstring * ascii * ascii * option ascii) :=
  match rev s with
  | c1 :: c0 :: pre =>
      if between "a" "h" c0 && between "1" "8" c1
      then Some (rev pre, c0, c1, None)
      else
        match pre with
        | d1 :: d0 :: pre' =>
            if Ascii.eqb c0 "=" && is_in (str "NBRQ") c1
               && between "a" "h" d0 && between "1" "8" d1
            then Some (rev pre', d0, d1, Some c1)
            else None
        | _ => None
        end
  | _ => None
  end.

(** [rest.replace(/x$/, '')]. *)
Definition dropFinalX (s : jsstring) : jsstring :=
  match rev s with
  | c :: pre => if Ascii.eqb c "x" then rev pre else s
  | [] => s
  end.

(** [rest[rest.length - 1]]. *)
Definition lastChar (s : jsstring) : option ascii :=
  match rev s with
  | c :: _ => Some c
  | [] => None
  end.

(** The file and rank fragments read off [rest]. *)
Definition disambOf (rest : jsstring) : option ascii * option ascii :=
  match rest with
  | [] => (None, None)
  | c0 :: _ =>
      let dF := if between "a" "h" c0 then Some c0 else None in
      let dR :=
        match lastChar rest with
        | Some l => if between "1" "8" l then Some l else None
        | None => None
        end in
      match rest with
      | [a; b] =>
          if between "a" "h" a && between "1" "8" b then (Some a, Some b) else (dF, dR)
      | _ => (dF, dR)
      end
  end.

(** [parseSAN(san)]: [Ret None] is the [null] result.  A target index that
    would be [NaN] has no integer to stand for it and is reported as a fault,
    so that a proof of totality excludes it as well. *)
Definition parseSAN (san : jsstring) : Outcome (option ParsedSAN) :=
  let s := trim san in
  if str_eqb s (str "O-O") || str_eqb s (str "O-O-O") then
    Ret (Some (mkParsed None (-1) None None None
                 (Some (if str_eqb s (str "O-O") then str "K" else str "Q"))))
  else
    match matchTarget s with
    | None => Ret None
    | Some (pre, c0, c1, promo) =>
        let promotion :=
          match promo with
          | Some c => Some [toLowerCase c]
          | None => None
          end in
        match squareToIndex c0 c1 with
        | None => Throw RangeError
        | Some targetIndex =>
            let rest := dropFinalX pre in
            let '(piece, rest) :=
              match rest with
              | c :: rest' =>
                  if is_in (str "NBRQK") c then (Some c, rest') else (None, rest)
              | [] => (None, rest)
              end in
            let '(dF, dR) := disambOf rest in
            Ret (Some (mkParsed piece targetIndex dF dR promotion None))
        end
    end.

(** ** SAN resolution *)

Definition occupancy (p : Position) (color : Color) : Z :=
  Z.lor (Z.lor (Z.lor (Z.lor (Z.lor (bb Pawn color p) (bb Knight color p))
    (bb Bishop color p)) (bb Rook color p)) (bb Queen color p)) (bb King color p).

Definition allOcc (p : Position) : Z :=
  Z.lor (occupancy p White) (occupancy p Black).

(** [table[i] & x]: an index outside the table reads [undefined], and
    [undefined & x] with a BigInt [x] is a [TypeError]. *)
Definition tableAt (t : list Z) (i : Z) : Outcome Z :=
  match lookup t i with
  | Some v => Ret v
  | None => Throw TypeError
  end.

Definition pieceIs (ps : ParsedSAN) (c : ascii) : bool :=
  match piece ps with
  | Some x => Ascii.eqb x c
  | None => false
  end.

(** The pawn branch of [resolveSAN]. *)
Definition pawnCandidates (p : Position) (ps : ParsedSAN) : Z :=
  let side := sideToMove p in
  let occ := allOcc p in
  let toSq := targetIndex ps in
  match disambFile ps with
  | Some fc =>
      Z.land (Z.land (pawnCaptureSources toSq side) (bb Pawn side p))
        (fileMaskOf (code fc - 97))
  | None =>
      let oneBack := match side with White => toSq - 8 | Black => toSq + 8 end in
      let twoBack := match side with White => toSq - 16 | Black => toSq + 16 end in
      let toRank := Z.quot toSq 8 in
      if nonzero (Z.land (bb Pawn side p) (bit oneBack)) then bit oneBack
      else if (match side with White => toRank =? 3 | Black => toRank =? 4 end)
              && nonzero (Z.land (bb Pawn side p) (bit twoBack))
              && negb (nonzero (Z.land occ (bit oneBack)))
           then bit twoBack
           else 0
  end.

(** The candidate origins, by leading piece letter. *)
Definition candidatesOf (p : Position) (ps : ParsedSAN) : Outcome Z :=
  let side := sideToMove p in
  let occ := allOcc p in
  let toSq := targetIndex ps in
  if pieceIs ps "K" then
    a <- tableAt kingAttacks toSq ;; Ret (Z.land a (bb King side p))
  else if pieceIs ps "N" then
    a <- tableAt knightAttacks toSq ;; Ret (Z.land a (bb Knight side p))
  else if pieceIs ps "R" then
    Ret (Z.land (getRookAttacks toSq occ) (bb Rook side p))
  else if pieceIs ps "B" then
    Ret (Z.land (getBishopAttacks toSq occ) (bb Bishop side p))
  else if pieceIs ps "Q" then
    Ret (Z.land (Z.lor (getRookAttacks toSq occ) (getBishopAttacks toSq occ))
           (bb Queen side p))
  else Ret (pawnCandidates p ps).

(** The fallback scan: [count++; fromSq = sq; if (count > 1) break;]. *)
Fixpoint scanCount (b : Z) (sqs : list Z) (count fromSq : Z) : Z * Z :=
  match sqs with
  | [] => (count, fromSq)
  | sq :: sqs' =>
      if nonzero (Z.land b (bit sq))
      then if 1 <? count + 1 then (count + 1, sq)
           else scanCount b sqs' (count + 1) sq
      else scanCount b sqs' count fromSq
  end.

(** From the candidate set to the origin square, [-1] when there is none. *)
Definition originOf (candidates : Z) (dF dR : option ascii) : Outcome Z :=
  fromSq <- filterDisamb candidates dF dR ;;
  Ret (if (fromSq <? 0) && nonzero candidates
       then let (count, sq) := scanCount candidates squares 0 fromSq in
            if count =? 1 then sq else -1
       else fromSq).

Definition isSome {A} (o : option A) : bool :=
  match o with Some _ => true | None => false end.

(** The descriptor [resolveSAN] returns for an origin square. *)
Definition buildMove (p : Position) (ps : ParsedSAN) (fromSq : Z) : Move :=
  mkMove fromSq (targetIndex ps)
    (if truthy (parsedPromotion ps) then parsedPromotion ps else None)
    None
    (negb (isSome (piece ps)) && isSome (disambFile ps)
     && negb (nonzero (Z.land (allOcc p) (bit (targetIndex ps))))).

(** [resolveSAN(san)]: [Ret None] is the [null] result. *)
Definition resolveSAN (p : Position) (san : jsstring) : Outcome (option Move) :=
  parsed <- parseSAN san ;;
  match parsed with
  | None => Ret None
  | Some ps =>
      let side := sideToMove p in
      if truthy (parsedCastle ps) then
        let fromSq := match side with White => 4 | Black => 60 end in
        let toSqKing :=
          if str_eqb (match parsedCastle ps with Some s => s | None => [] end) (str "K")
          then match side with White => 6 | Black => 62 end
          else match side with White => 2 | Black => 58 end in
        Ret (Some (mkMove fromSq toSqKing None (parsedCastle ps) false))
      else
        candidates <- candidatesOf p ps ;;
        fromSq <- originOf candidates (disambFile ps) (disambRank ps) ;;
        if fromSq <? 0 then Ret None
        else Ret (Some (buildMove p ps fromSq))
  end.

(** [makeMoveSAN(san)] on a string: the position afterwards and the returned
    boolean. *)
Definition makeMoveSAN (p : Position) (san : jsstring) : Outcome (Position * bool) :=
  move <- resolveSAN p san ;;
  match move with
  | None => Ret (p, false)
  | Some m => Ret (makeMove p m, true)
  end.

(** A game: the SAN strings applied in order; a string that does not resolve
    leaves the position as it is. *)
Fixpoint playSAN (p : Position) (sans : list jsstring) : Outcome Position :=
  match sans with
  | [] => Ret p
  | san :: sans' =>
      r <- makeMoveSAN p san ;;
      playSAN (fst r) sans'
  end.

(** ** Zobrist tables *)

(** 32-bit operators on Numbers. *)
Definition xor32 (a b : Z) : Z := toInt32 (Z.lxor (toInt32 a) (toInt32 b)).
Definition or32 (a b : Z) : Z := toInt32 (Z.lor (toInt32 a) (toInt32 b)).
Definition ushr32 (a n : Z) : Z := Z.shiftr (toUint32 a) n.
Definition imul (a b : Z) : Z := toInt32 (toInt32 a * toInt32 b).

(** One call of the closure returned by [mulberry32(seed)]: the value and
    the seed the closure keeps. *)
Definition mulberry32 (seed : Z) : Z * Z :=
  let seed := seed + 0x6d2b79f5 in
  let t := seed in
  let t := imul (xor32 t (ushr32 t 15)) (or32 t 1) in
  let t := xor32 t (ushr32 t 7) in
  (ushr32 (xor32 t (ushr32 t 12)) 0, seed).

Definition random64 (seed : Z) : Z * Z :=
  let (lo, seed) := mulberry32 seed in
  let (hi, seed) := mulberry32 seed in
  (Z.lor (Z.shiftl hi 32) lo, seed).

(** [n] successive [random64(prng)] values. *)
Fixpoint randoms (n : nat) (seed : Z) : list Z * Z :=
  match n with
  | O => ([], seed)
  | S n' =>
      let (v, seed) := random64 seed in
      let (vs, seed) := randoms n' seed in
      (v :: vs, seed)
  end.

Fixpoint randomRows (rows cols : nat) (seed : Z) : list (list Z) * Z :=
  match rows with
  | O => ([], seed)
  | S rows' =>
      let (row, seed) := randoms cols seed in
      let (rest, seed) := randomRows rows' cols seed in
      (row :: rest, seed)
  end.

Record ZobristTables := mkZobrist {
  ZOBRIST_PIECES : list (list Z);
  ZOBRIST_SIDE : Z;
  ZOBRIST_CASTLE : list Z;
  ZOBRIST_EP : list Z
}.

Definition initZobrist : ZobristTables :=
  let seed := 0x5eed in
  let (pieces, seed) := randomRows 64 12 seed in
  let (side, seed) := random64 seed in
  let (castle, seed) := randoms 4 seed in
  let (ep, _) := randoms 8 seed in
  mkZobrist pieces side castle ep.

Definition zobrist : ZobristTables := Eval vm_compute in initZobrist.

(** ** Zobrist key *)

(** [pieceSets]: the array and its white and black piece-type numbers. *)
Definition pieceSets : list (Kind * Z * Z) :=
  [(Pawn, 0, 6); (Knight, 1, 7); (Bishop, 2, 8); (Rook, 3, 9); (Queen, 4, 10); (King, 5, 11)].

(** The inner loop of [getZobristKey]: the piece type whose key is mixed in
    for the square, if any. *)
Fixpoint pieceTypeAt (p : Position) (b : Z) (sets : list (Kind * Z * Z)) : option Z :=
  match sets with
  | [] => None
  | (k, wPt, bPt) :: sets' =>
      if nonzero (Z.land (bb k White p) b) then Some wPt
      else if nonzero (Z.land (bb k Black p) b) then Some bPt
      else pieceTypeAt p b sets'
  end.

(** [key ^= v] where [v] was read from a table: [undefined] is a [TypeError]. *)
Definition xorKey (key : Z) (v : option Z) : Outcome Z :=
  match v with
  | Some x => Ret (Z.lxor key x)
  | None => Throw TypeError
  end.

Definition squareKey (t : ZobristTables) (p : Position) (key : Outcome Z) (sq : Z)
  : Outcome Z :=
  key <- key ;;
  match pieceTypeAt p (bit sq) pieceSets with
  | Some pt =>
      xorKey key (match lookup (ZOBRIST_PIECES t) sq with
                  | Some row => lookup row pt
                  | None => None
                  end)
  | None => Ret key
  end.

(** [castlingIndex[c]]. *)
Definition castlingIndex (c : ascii) : option Z :=
  if Ascii.eqb c "K" then Some 0
  else if Ascii.eqb c "Q" then Some 1
  else if Ascii.eqb c "k" then Some 2
  else if Ascii.eqb c "q" then Some 3
  else None.

Definition castleKey (t : ZobristTables) (key : Outcome Z) (c : ascii) : Outcome Z :=
  key <- key ;;
  xorKey key (match castlingIndex c with
              | Some i => lookup (ZOBRIST_CASTLE t) i
              | None => None
              end).

Definition zobristKeyWith (t : ZobristTables) (p : Position) : Outcome Z :=
  key <- fold_left (squareKey t p) squares (Ret 0) ;;
  let key :=
    match sideToMove p with
    | Black => Z.lxor key (ZOBRIST_SIDE t)
    | White => key
    end in
  key <- fold_left (castleKey t) (castling p) (Ret key) ;;
  if 0 <=? enPassant p
  then xorKey key (lookup (ZOBRIST_EP t) (Z.rem (enPassant p) 8))
  else Ret key.

Definition getZobristKey (p : Position) : Outcome Z := zobristKeyWith zobrist p.

(** ** FEN export *)

(** A Number appended to a string. *)
Definition numToString (n : Z) : jsstring :=
  list_ascii_of_string (DecimalString.NilZero.string_of_int (Z.to_int n)).

(** [check(arr, w, b)]. *)
Definition check (p : Position) (b : Z) (k : Kind) (w bl : ascii) : option ascii :=
  if nonzero (Z.land (bb k White p) b) then Some w
  else if nonzero (Z.land (bb k Black p) b) then Some bl
  else None.

(** [a || b] on values that are a piece letter or [null]. *)
Definition orElse (a b : option ascii) : option ascii :=
  match a with Some _ => a | None => b end.

Definition pieceAt (p : Position) (sq : Z) : option ascii :=
  let b := bit sq in
  orElse (check p b Pawn "P" "p")
    (orElse (check p b Knight "N" "n")
       (orElse (check p b Bishop "B" "b")
          (orElse (check p b Rook "R" "r")
             (orElse (check p b Queen "Q" "q")
                (check p b King "K" "k"))))).

(** The body of the file loop: the run of empty squares and the text so far. *)
Definition fenSquare (p : Position) (r : Z) (st : Z * jsstring) (f : Z) : Z * jsstring :=
  let (empty, fen) := st in
  match pieceAt p (r * 8 + f) with
  | None => (empty + 1, fen)
  | Some c =>
      let fen := if nonzero empty then fen ++ numToString empty else fen in
      (0, fen ++ [c])
  end.

Definition fenRank (p : Position) (fen : jsstring) (r : Z) : jsstring :=
  let (empty, fen) := fold_left (fenSquare p r) (range 0 8) (0, fen) in
  let fen := if nonzero empty then fen ++ numToString empty else fen in
  if 0 <? r then fen ++ str "/" else fen.

Definition toFEN (p : Position) : jsstring :=
  let fen := fold_left (fenRank p) (rev (range 0 8)) [] in
  let fen := fen ++ str " " in
  let fen := fen ++ match sideToMove p with White => str "w" | Black => str "b" end in
  let fen := fen ++ str " " in
  let fen := fen ++ match castling p with [] => str "-" | c => c end in
  let fen := fen ++ str " " in
  let fen := fen ++
    (if enPassant p =? -1 then str "-"
     else ascii_of_N (Z.to_N (97 + Z.rem (enPassant p) 8))
          :: numToString (enPassant p / 8 + 1)) in
  let fen := fen ++ str " " in
  let fen := fen ++ numToString (halfmove p) in
  let fen := fen ++ str " " in
  fen ++ numToString (fullmove p).

(** ** FEN import *)

(** [s.split(/\s+/)]: maximal runs of white space separate the tokens. *)
Fixpoint splitWs (s : jsstring) : list jsstring :=
  match s with
  | [] => [[]]
  | c :: s' =>
      if isSpace c then
        match s' with
        | c2 :: _ => if isSpace c2 then splitWs s' else [] :: splitWs s'
        | [] => [] :: splitWs s'
        end
      else
        match splitWs s' with
        | t :: ts => (c :: t) :: ts
        | [] => [[c]]
        end
  end.

(** [s.split('/')]. *)
Fixpoint splitOn (x : ascii) (s : jsstring) : list jsstring :=
  match s with
  | [] => [[]]
  | c :: s' =>
      if Ascii.eqb c x then [] :: splitOn x s'
      else
        match splitOn x s' with
        | t :: ts => (c :: t) :: ts
        | [] => [[c]]
        end
  end.

(** [parseInt(ch, 10)] of a decimal digit. *)
Definition digitValue (ch : ascii) : Z := code ch - 48.

Fixpoint leadingDigits (s : jsstring) : list Z :=
  match s with
  | c :: s' => if between "0" "9" c then digitValue c :: leadingDigits s' else []
  | [] => []
  end.

(** [parseInt(s, 10)] of a string: [None] is [NaN]. *)
Definition parseInt (s : jsstring) : option Z :=
  let s := dropSpaces s in
  let '(sign, s) :=
    match s with
    | c :: s' =>
        if Ascii.eqb c "-" then (-1, s')
        else if Ascii.eqb c "+" then (1, s')
        else (1, s)
    | [] => (1, s)
    end in
  match leadingDigits s with
  | [] => None
  | ds => Some (sign * fold_left (fun a d => a * 10 + d) ds 0)
  end.

(** [parseInt(tok, 10) || dflt], where [tok] may be [undefined]. *)
Definition parseIntOr (tok : option jsstring) (dflt : Z) : Z :=
  match tok with
  | Some s =>
      match parseInt s with
      | Some n => if n =? 0 then dflt else n
      | None => dflt
      end
  | None => dflt
  end.

(** The [if (ch === 'P') ... else if ...] chain of [loadFromFEN]. *)
Definition placeChar (ch : ascii) (b : Z) (p : Position) : Position :=
  let put k c := setBB k c (Z.lor (bb k c p) b) p in
  if Ascii.eqb ch "P" then put Pawn White
  else if Ascii.eqb ch "N" then put Knight White
  else if Ascii.eqb ch "B" then put Bishop White
  else if Ascii.eqb ch "R" then put Rook White
  else if Ascii.eqb ch "Q" then put Queen White
  else if Ascii.eqb ch "K" then put King White
  else if Ascii.eqb ch "p" then put Pawn Black
  else if Ascii.eqb ch "n" then put Knight Black
  else if Ascii.eqb ch "b" then put Bishop Black
  else if Ascii.eqb ch "r" then put Rook Black
  else if Ascii.eqb ch "q" then put Queen Black
  else if Ascii.eqb ch "k" then put King Black
  else p.

(** [for (const ch of rankStr)] with the file counter [f]. *)
Fixpoint loadRank (r : Z) (rankStr : jsstring) (f : Z) (p : Position) : Position :=
  match rankStr with
  | [] => p
  | ch :: rest =>
      if 8 <=? f then p
      else if between "1" "8" ch then loadRank r rest (f + digitValue ch) p
      else loadRank r rest (f + 1) (placeChar ch (bit (r * 8 + f)) p)
  end.

Definition clearBoards (p : Position) : Position :=
  mkPosition (0, 0) (0, 0) (0, 0) (0, 0) (0, 0) (0, 0)
    (sideToMove p) (castling p) (enPassant p) (halfmove p) (fullmove p).

(** The en-passant field of a FEN. *)
Definition parseEnPassant (tok : option jsstring) : Z :=
  match tok with
  | Some (c0 :: rest as ep) =>
      if str_eqb ep (str "-") then -1
      else
        let file := code c0 - 97 in
        match rest with
        | c1 :: _ =>
            match parseIntChar c1 with
            | Some n =>
                let rank := n - 1 in
                if (0 <=? file) && (file <? 8) && (0 <=? rank) && (rank <? 8)
                then rank * 8 + file
                else -1
            | None => -1
            end
        | [] => -1
        end
  | _ => -1
  end.

(** The loop over the ranks: rank [r] is read from [ranks[7 - r]]. *)
Definition loadRanks (ranks : list jsstring) (p : Position) : Position :=
  fold_left
    (fun p r => loadRank r (nth (Z.to_nat (7 - r)) ranks []) 0 p)
    (range 0 8) p.

(** [loadFromFEN] once the text is split into its fields. *)
Definition loadTokens (tokens : list jsstring) (p : Position) : Position :=
  match nth_error tokens 0 with
  | None | Some [] => p
  | Some placement =>
      let ranks := splitOn "/" placement in
      if negb (Nat.eqb (List.length ranks) 8) then p
      else
        let p := clearBoards p in
        let p := loadRanks ranks p in
        let p :=
          setSideToMove
            (match nth_error tokens 1 with
             | Some t => if str_eqb t (str "b") then Black else White
             | None => White
             end) p in
        let p :=
          setCastling
            (match nth_error tokens 2 with
             | Some t => if truthy (Some t) && negb (str_eqb t (str "-")) then t else []
             | None => []
             end) p in
        let p := setEnPassant (parseEnPassant (nth_error tokens 3)) p in
        let p := setHalfmove (parseIntOr (nth_error tokens 4) 0) p in
        setFullmove (parseIntOr (nth_error tokens 5) 1) p
  end.

(** [loadFromFEN(fen)] on a string, as a function of the position it
    overwrites. *)
Definition loadFromFEN (fen : jsstring) (p : Position) : Position :=
  match fen with
  | [] => p
  | _ => loadTokens (splitWs (trim fen)) p
  end.

(** ** Sets of squares, for the statements

    The squares 0..63 of a bitboard, in increasing order. *)
Definition hitsOf (b : Z) (sqs : list Z) : list Z :=
  filter (fun sq => nonzero (Z.land b (bit sq))) sqs.

Definition members (b : Z) : list Z := hitsOf b squares.

(** What [parseSAN] hands to [resolveSAN]: a castle, or a destination on
    the board with a rank fragment that is a digit 1..8. *)
Definition wfParsed (ps : ParsedSAN) : Prop :=
  truthy (parsedCastle ps) = true \/
  (0 <= targetIndex ps < 64 /\
   forall c, disambRank ps = Some c -> between "1" "8" c = true).

(** ** Well-formed tables and rights, for the statements *)

Definition is64 (v : Z) : bool := (0 <=? v) && (v <? 2 ^ 64).

(** The dimensions [initZobrist] gives the tables, and 64-bit entries. *)
Definition tablesOk (t : ZobristTables) : bool :=
  Nat.eqb (List.length (ZOBRIST_PIECES t)) 64
  && forallb (fun row => Nat.eqb (List.length row) 12 && forallb is64 row)
       (ZOBRIST_PIECES t)
  && is64 (ZOBRIST_SIDE t)
  && Nat.eqb (List.length (ZOBRIST_CASTLE t)) 4 && forallb is64 (ZOBRIST_CASTLE t)
  && Nat.eqb (List.length (ZOBRIST_EP t)) 8 && forallb is64 (ZOBRIST_EP t).

(** The key of one castling right and of a string of rights. *)
Definition rightKey (t : ZobristTables) (c : ascii) : Z :=
  match castlingIndex c with
  | Some i => nth (Z.to_nat i) (ZOBRIST_CASTLE t) 0
  | None => 0
  end.

Definition rightsKey (t : ZobristTables) (cs : jsstring) : Z :=
  fold_right (fun c acc => Z.lxor (rightKey t c) acc) 0 cs.

(** A castling field within the letters of "KQkq", and one that holds a set
    of rights: each letter at most once. *)
Definition rightsOk (cs : jsstring) : Prop :=
  Forall (fun c => is_in (str "KQkq") c = true) cs.

Definition validRights (cs : jsstring) : Prop := NoDup cs /\ rightsOk cs.

(** Identical piece placement: the twelve piece sets are equal. *)
Definition samePlacement (p q : Position) : Prop :=
  pawns p = pawns q /\ knights p = knights q /\ bishops p = bishops q /\
  rooks p = rooks q /\ queens p = queens q /\ kings p = kings q.

(** ** The FEN round trip, for the statements *)

(** The letter [toFEN] prints for a piece set. *)
Definition letterOf (k : Kind) (c : Color) : ascii :=
  match k, c with
  | Pawn, White => "P" | Pawn, Black => "p"
  | Knight, White => "N" | Knight, Black => "n"
  | Bishop, White => "B" | Bishop, Black => "b"
  | Rook, White => "R" | Rook, Black => "r"
  | Queen, White => "Q" | Queen, Black => "q"
  | King, White => "K" | King, Black => "k"
  end%char.

(** The contents of the squares of rank [r], files [fs]. *)
Definition cellsOf (p : Position) (r : Z) (fs : list Z) : list (option ascii) :=
  map (fun f => pieceAt p (r * 8 + f)) fs.

(** The text of a rank: runs of empty squares as a count. *)
Fixpoint encCells (e : Z) (cs : list (option ascii)) : jsstring :=
  match cs with
  | [] => if nonzero e then numToString e else []
  | None :: cs' => encCells (e + 1) cs'
  | Some c :: cs' => (if nonzero e then numToString e else []) ++ c :: encCells 0 cs'
  end.

(** The squares of a rank put on the board one by one, from file [f]. *)
Fixpoint placeCells (r f : Z) (cs : list (option ascii)) (p : Position) : Position :=
  match cs with
  | [] => p
  | None :: cs' => placeCells r (f + 1) cs' p
  | Some ch :: cs' => placeCells r (f + 1) cs' (placeChar ch (bit (r * 8 + f)) p)
  end.

(** The fields of the exported FEN after the board. *)
Definition sideText (p : Position) : jsstring :=
  match sideToMove p with White => str "w" | Black => str "b" end.

Definition castlingText (p : Position) : jsstring :=
  match castling p with [] => str "-" | c => c end.

Definition epTextOf (e : Z) : jsstring :=
  if e =? -1 then str "-"
  else ascii_of_N (Z.to_N (97 + Z.rem e 8)) :: numToString (e / 8 + 1).

Definition epText (p : Position) : jsstring := epTextOf (enPassant p).

(** An en-passant field that is unset or a square of the board. *)
Definition epOk (e : Z) : Prop := -1 <= e < 64.

(** What the castling field and the en-passant square keep under every move
    whose squares are on the board. *)
Definition reachedOk (p : Position) : Prop :=
  rightsOk (castling p) /\ epOk (enPassant p).

(** The two fields the move applicator keeps apart from the boards. *)
Definition metaOf (p : Position) : jsstring * Z := (castling p, enPassant p).

(** Fields joined by single blanks. *)
Fixpoint joinSp (ts : list jsstring) : jsstring :=
  match ts with
  | [] => []
  | [t] => t
  | t :: ts' => t ++ " "%char :: joinSp ts'
  end.

(** A field that [split(/\s+/)] gives back: not empty, no white space. *)
Definition tokenOk (t : jsstring) : Prop :=
  t <> [] /\ Forall (fun c => isSpace c = false) t.

(** A text [trim()] leaves alone at its head. *)
Definition headOk (s : jsstring) : Prop :=
  match s with
  | c :: _ => isSpace c = false
  | [] => True
  end.

(** The text of rank [r] and of the whole board. *)
Definition rankText (p : Position) (r : Z) : jsstring :=
  encCells 0 (cellsOf p r (range 0 8)).

Definition placementText (p : Position) : jsstring :=
  rankText p 7 ++ "/"%char :: rankText p 6 ++ "/"%char :: rankText p 5 ++ "/"%char ::
  rankText p 4 ++ "/"%char :: rankText p 3 ++ "/"%char :: rankText p 2 ++ "/"%char ::
  rankText p 1 ++ "/"%char :: rankText p 0.

Definition option_ascii_eqb (a b : option ascii) : bool :=
  match a, b with
  | Some x, Some y => Ascii.eqb x y
  | None, None => true
  | _, _ => false
  end.

(** The cells of a position hold piece letters. *)
Definition lettersOnly (cs : list (option ascii)) : Prop :=
  Forall (fun o => forall c, o = Some c -> exists k col, c = letterOf k col) cs.

(** The import has reached square [m]: below it the board [P] holds, in each
    set, exactly the squares where the exported position [p] shows that
    letter; from [m] on it is empty. *)
Definition loadedBelow (p P : Position) (m : Z) : Prop :=
  forall k col n, 0 <= n ->
    Z.testbit (bb k col P) n
    = (n <? m) && option_ascii_eqb (pieceAt p n) (Some (letterOf k col)).

Definition isPieceLetter (ch : ascii) : bool := is_in (str "PNBRQKpnbrqk") ch.

(** A descriptor with its squares on the board. *)
Definition wfMoveb (m : Move) : bool :=
  (0 <=? from m) && (from m <? 64) && (0 <=? to m) && (to m <? 64).

(** ** The resolver of the native engine ([src/bitboard_chess.c])

    A C string is the list of its characters before the terminating NUL.
    Bitboards are [uint64_t]; a shift [BIT(sq)] with [sq] outside 0..63 is
    undefined behaviour and is reported as [CUndefined]. *)

Module Native.

Inductive COutcome (A : Type) :=
| CRet (a : A)
| CUndefined.

Arguments CRet {A} a.
Arguments CUndefined {A}.

Definition cbind {A B} (o : COutcome A) (k : A -> COutcome B) : COutcome B :=
  match o with
  | CRet a => k a
  | CUndefined => CUndefined
  end.

Record ParseSANResult := mkParseSANResult {
  c_piece : Z;
  c_targetIndex : Z;
  c_disambFile : Z;
  c_disambRank : Z;
  c_parsedPromotion : Z;
  c_parsedCastle : Z
}.

Record CMove := mkCMove {
  c_from : Z;
  c_to : Z;
  c_promotion : Z;
  c_castle : Z;
  c_enpassant : bool
}.

(** [BIT(sq)]. *)
Definition BIT (sq : Z) : COutcome Z :=
  if (0 <=? sq) && (sq <? 64) then CRet (Z.shiftl 1 sq) else CUndefined.

(** [san[i]], the terminating NUL included. *)
Definition charAt (san : jsstring) (i : Z) : ascii :=
  nth (Z.to_nat i) san zero.

(** [strncmp(san, lit, strlen(lit)) == 0]: [lit] is a prefix of [san]. *)
Fixpoint startsWith (lit san : jsstring) : bool :=
  match lit, san with
  | [], _ => true
  | x :: lit', y :: san' => Ascii.eqb x y && startsWith lit' san'
  | _ :: _, [] => false
  end.

(** Skipping the leading blanks, one [san++] per blank. *)
Fixpoint skipBlanks (san : jsstring) : jsstring :=
  match san with
  | c :: san' => if Ascii.eqb c " " then skipBlanks san' else san
  | [] => []
  end.

(** [while (rest_len > 0 && san[rest_len - 1] == 'x') rest_len--]. *)
Fixpoint dropXs (san : jsstring) (fuel : nat) (rest_len : Z) : Z :=
  match fuel with
  | O => rest_len
  | S fuel' =>
      if (0 <? rest_len) && Ascii.eqb (charAt san (rest_len - 1)) "x"
      then dropXs san fuel' (rest_len - 1)
      else rest_len
  end.

Definition square_to_index (c0 c1 : ascii) : Z :=
  let file := code c0 - 97 in
  let rank := code c1 - code "1" in
  rank * 8 + file.

Definition castleResult (side : ascii) : ParseSANResult :=
  mkParseSANResult 0 (-1) (-1) (-1) 0 (code side).

(** [parse_san(san, out)]: [None] is the [false] return. *)
Definition parse_san (san : jsstring) : option ParseSANResult :=
  let san := skipBlanks san in
  if startsWith (str "O-O-O") san then Some (castleResult "Q")
  else if startsWith (str "O-O") san then Some (castleResult "K")
  else
    let len := Z.of_nat (List.length san) in
    if len <? 2 then None
    else
      let isPromo :=
        (4 <=? len) && Ascii.eqb (charAt san (len - 2)) "="
        && is_in (str "NBRQ") (charAt san (len - 1)) in
      let promotion := if isPromo then code (toLowerCase (charAt san (len - 1))) else 0 in
      let pos := if isPromo then len - 4 else len - 2 in
      let p0 := charAt san pos in
      let p1 := charAt san (pos + 1) in
      if negb (between "a" "h" p0 && between "1" "8" p1) then None
      else
        let targetIndex := square_to_index p0 p1 in
        let rest_len := len - 2 in
        let rest_len := if promotion =? 0 then rest_len else rest_len - 2 in
        let rest_len := dropXs san (List.length san) rest_len in
        let c := charAt san 0 in
        let last := charAt san (rest_len - 1) in
        let isPiece := is_in (str "NBRQK") c in
        let piece := if (0 <? rest_len) && isPiece then code c else 0 in
        let dF :=
          if 0 <? rest_len then
            if isPiece then
              if (2 <=? rest_len) && between "a" "h" (charAt san 1)
              then code (charAt san 1) - 97 else -1
            else
              if (1 <=? rest_len) && between "a" "h" c then code c - 97 else -1
          else -1 in
        let dR :=
          if (0 <? rest_len) && (1 <=? rest_len) && between "1" "8" last
          then code last - code "1" else -1 in
        let full :=
          (0 <? rest_len) && (rest_len =? 2) && between "a" "h" c
          && between "1" "8" (charAt san 1) in
        Some (mkParseSANResult piece targetIndex
                (if full then code c - 97 else dF)
                (if full then code (charAt san 1) - code "1" else dR)
                promotion 0).

(** [king_attacks] is filled by the loops [df = -1..1], [dr = -1..1]. *)
Definition king_deltas : list (Z * Z) :=
  [(-1, -1); (-1, 0); (-1, 1); (0, -1); (0, 1); (1, -1); (1, 0); (1, 1)].

Definition king_attacks : list Z := map (stepAttacks king_deltas) squares.
Definition knight_attacks : list Z := map (stepAttacks kD) squares.

Definition file_masks : list Z :=
  map (fun f => fold_left (fun m r => Z.lor m (Z.shiftl 1 (r * 8 + f))) (range 0 8) 0)
    (range 0 8).

Definition rank_masks : list Z := map (fun r => Z.shiftl 0xff (r * 8)) (range 0 8).

(** A read of a static table; outside its bounds the behaviour is undefined. *)
Definition tableRead (t : list Z) (i : Z) : COutcome Z :=
  match lookup t i with
  | Some v => CRet v
  | None => CUndefined
  end.

Definition filter_disamb (candidates disamb_file disamb_rank : Z) : COutcome Z :=
  cbind (if 0 <=? disamb_file
         then cbind (tableRead file_masks disamb_file) (fun m => CRet (Z.land candidates m))
         else CRet candidates) (fun b =>
  cbind (if 0 <=? disamb_rank
         then cbind (tableRead rank_masks disamb_rank) (fun m => CRet (Z.land b m))
         else CRet b) (fun b =>
  CRet (scanSingle b squares (-1)))).

(** The pawn branch of [resolve_san]. *)
Definition pawn_candidates (b : Position) (p : ParseSANResult) : COutcome Z :=
  let side := sideToMove b in
  let occ := allOcc b in
  let to_sq := c_targetIndex p in
  if 0 <=? c_disambFile p then
    cbind (tableRead file_masks (c_disambFile p)) (fun m =>
    CRet (Z.land (Z.land (pawnCaptureSources to_sq side) (bb Pawn side b)) m))
  else
    let one_back := match side with White => to_sq - 8 | Black => to_sq + 8 end in
    let two_back := match side with White => to_sq - 16 | Black => to_sq + 16 end in
    let to_rank := Z.quot to_sq 8 in
    cbind (BIT one_back) (fun ob =>
    if nonzero (Z.land (bb Pawn side b) ob) then CRet ob
    else if (match side with White => to_rank =? 3 | Black => to_rank =? 4 end) then
      cbind (BIT two_back) (fun tb =>
      if nonzero (Z.land (bb Pawn side b) tb) && negb (nonzero (Z.land occ ob))
      then CRet tb else CRet 0)
    else CRet 0).

(** [resolve_san(b, san, move)]: [None] is the [false] return.  The sliding
    attacks and [pawn_capture_sources] are, line by line, the functions of
    [index.mjs]; on a target square 0..63 none of their shifts leaves the
    64 bits. *)
Definition resolve_san (b : Position) (san : jsstring) : COutcome (option CMove) :=
  match parse_san san with
  | None => CRet None
  | Some p =>
      let side := sideToMove b in
      let occ := allOcc b in
      let to_sq := c_targetIndex p in
      if negb (c_parsedCastle p =? 0) then
        CRet (Some (mkCMove
                      (match side with White => 4 | Black => 60 end)
                      (if c_parsedCastle p =? code "K"
                       then match side with White => 6 | Black => 62 end
                       else match side with White => 2 | Black => 58 end)
                      0 (c_parsedCastle p) false))
      else
        cbind
          (if c_piece p =? code "K" then
             cbind (tableRead king_attacks to_sq) (fun a => CRet (Z.land a (bb King side b)))
           else if c_piece p =? code "N" then
             cbind (tableRead knight_attacks to_sq) (fun a => CRet (Z.land a (bb Knight side b)))
           else if c_piece p =? code "R" then
             CRet (Z.land (getRookAttacks to_sq occ) (bb Rook side b))
           else if c_piece p =? code "B" then
             CRet (Z.land (getBishopAttacks to_sq occ) (bb Bishop side b))
           else if c_piece p =? code "Q" then
             CRet (Z.land (Z.lor (getRookAttacks to_sq occ) (getBishopAttacks to_sq occ))
                     (bb Queen side b))
           else pawn_candidates b p) (fun candidates =>
        cbind (filter_disamb candidates (c_disambFile p) (c_disambRank p)) (fun from_sq =>
        let from_sq :=
          if (from_sq <? 0) && nonzero candidates
          then let (count, sq) := scanCount candidates squares 0 from_sq in
               if count =? 1 then sq else -1
          else from_sq in
        if from_sq <? 0 then CRet None
        else if (c_piece p =? 0) && (0 <=? c_disambFile p) then
          cbind (BIT to_sq) (fun tb =>
          CRet (Some (mkCMove from_sq to_sq (c_parsedPromotion p) 0
                        (negb (nonzero (Z.land occ tb))))))
        else CRet (Some (mkCMove from_sq to_sq (c_parsedPromotion p) 0 false))))
  end.

(** The two resolvers agree on a text when both fail or both return the
    same origin, destination, promotion letter, castle side and en-passant
    flag. *)
Definition sameMove (m : Move) (c : CMove) : bool :=
  (from m =? c_from c) && (to m =? c_to c)
  && (match promotion m with
      | Some [x] => code x =? c_promotion c
      | Some _ => false
      | None => c_promotion c =? 0
      end)
  && (match castle m with
      | Some [x] => code x =? c_castle c
      | Some _ => false
      | None => c_castle c =? 0
      end)
  && Bool.eqb (enpassant m) (c_enpassant c).

Definition sameResult (js : Outcome (option Move)) (c : COutcome (option CMove)) : bool :=
  match js, c with
  | Ret None, CRet None => true
  | Ret (Some m), CRet (Some cm) => sameMove m cm
  | _, _ => false
  end.

End Native.

From Stdlib Require DecimalZ.

(** * Further definitions: clocks, rights, boards, tables and the native engine *)

(** ** The move applicator *)


(** The letters of the castling field that belong to a side. *)
Definition sideLetters (side : Color) : jsstring :=
  match side with White => str "KQ" | Black => str "kq" end.

(** The right tied to a home corner of a rook: a1, h1, a8, h8. *)
Definition cornerRight (sq : Z) : option ascii :=
  if sq =? 0 then Some "Q"%char
  else if sq =? 7 then Some "K"%char
  else if sq =? 56 then Some "q"%char
  else if sq =? 63 then Some "k"%char
  else None.

(** The place of a kind in the order [movePiece] is tried in. *)
Definition kindIndex (k : Kind) : nat :=
  match k with
  | Pawn => 0 | Knight => 1 | Bishop => 2 | Rook => 3 | Queen => 4 | King => 5
  end.

(** The square of the pawn taken en passant. *)
Definition capSqOf (side : Color) (m : Move) : Z :=
  match side with White => to m - 8 | Black => to m + 8 end.

(** The castling field after step 7, as a function of the field before it,
    of the two tests of the step and of the origin square. *)
Definition rightsAfter (side : Color) (kingTest movedRook : bool) (fromSq : Z)
  (cs : jsstring) : jsstring :=
  let cs := if kingTest then removeSideRights side cs else cs in
  if movedRook then
    let cs := if fromSq =? 0 then removeFirst "Q"%char cs else cs in
    let cs := if fromSq =? 7 then removeFirst "K"%char cs else cs in
    let cs := if fromSq =? 56 then removeFirst "q"%char cs else cs in
    let cs := if fromSq =? 63 then removeFirst "k"%char cs else cs in
    cs
  else cs.

(** Two positions agree on a square: each of the twelve sets holds it in
    both or in neither. *)
Definition agreeAt (n : Z) (p q : Position) : Prop :=
  forall k c, Z.testbit (bb k c p) n = Z.testbit (bb k c q) n.

(** The home square and the post-castle square of the rook, by side and
    direction, as the castle branch spells them out. *)
Definition castleRookSquares (side : Color) (kingSide : bool) : Z * Z :=
  match kingSide, side with
  | true, White => (7, 5)
  | true, Black => (63, 61)
  | false, White => (0, 3)
  | false, Black => (56, 59)
  end.

(** [move.castle === "K"]. *)
Definition isKingSide (m : Move) : bool :=
  match castle m with
  | Some s => str_eqb s (str "K")
  | None => false
  end.

(** ** The resolver *)

(** The kind of piece a parsed text names: the branch [resolveSAN] takes on
    the piece letter, the pawn branch when there is none. *)
Definition namedKind (ps : ParsedSAN) : Kind :=
  if pieceIs ps "K" then King
  else if pieceIs ps "N" then Knight
  else if pieceIs ps "R" then Rook
  else if pieceIs ps "B" then Bishop
  else if pieceIs ps "Q" then Queen
  else Pawn.

(** A text of white space only. *)
Definition blank (s : jsstring) : Prop := Forall (fun c => isSpace c = true) s.

(** ** The Zobrist key, part by part *)

(** What the side to move and the en-passant square add to the key. *)
Definition sideKey (t : ZobristTables) (c : Color) : Z :=
  match c with Black => ZOBRIST_SIDE t | White => 0 end.

Definition epKey (t : ZobristTables) (e : Z) : Z :=
  if 0 <=? e then nth (Z.to_nat (Z.rem e 8)) (ZOBRIST_EP t) 0 else 0.

(** The castling field holds letters of "KQkq" only, as a test. *)
Definition rightsKnown (cs : jsstring) : bool := forallb (is_in (str "KQkq")) cs.

(** ** Boards *)






(** ** Attack tables *)

(** The pawn part of [initAttackTables]: [pawnAttacks[color][sq]]. *)
Definition pawnAttacksAt (c : Color) (sq : Z) : Z :=
  let f := Z.rem sq 8 in
  let r := sq / 8 in
  match c with
  | White =>
      let w := if inBoard (f - 1) (r + 1) then Z.lor 0 (bit ((r + 1) * 8 + (f - 1))) else 0 in
      if inBoard (f + 1) (r + 1) then Z.lor w (bit ((r + 1) * 8 + (f + 1))) else w
  | Black =>
      let b := if inBoard (f - 1) (r - 1) then Z.lor 0 (bit ((r - 1) * 8 + (f - 1))) else 0 in
      if inBoard (f + 1) (r - 1) then Z.lor b (bit ((r - 1) * 8 + (f + 1))) else b
  end.

Definition pawnAttacks : list (list Z) :=
  [map (pawnAttacksAt White) squares; map (pawnAttacksAt Black) squares].

(** [pawnAttacks[color]]. *)
Definition colorIndex (c : Color) : Z := match c with White => 0 | Black => 1 end.

(** The geometry of the moves, for the statements: the distance in files
    and in ranks between two squares of the board. *)
Definition fileDist (a b : Z) : Z := Z.abs (b mod 8 - a mod 8).
Definition rankDist (a b : Z) : Z := Z.abs (b / 8 - a / 8).

Definition onBoard (t : Z) : bool := (0 <=? t) && (t <? 64).

Definition knightHop (a b : Z) : bool :=
  ((fileDist a b =? 1) && (rankDist a b =? 2))
  || ((fileDist a b =? 2) && (rankDist a b =? 1)).

Definition kingStep (a b : Z) : bool := Z.max (fileDist a b) (rankDist a b) =? 1.

(** A pawn of colour [c] on [a] attacks [b]: one rank ahead, one file aside. *)
Definition pawnHits (c : Color) (a b : Z) : bool :=
  (fileDist a b =? 1)
  && (b / 8 - a / 8 =? match c with White => 1 | Black => -1 end).

(** ** Sliding attacks *)

(** The four rays [getRookAttacks] and [getBishopAttacks] walk, nearest
    square first, in the order of their loops. *)
Definition rookRays (sq : Z) : list (list Z) :=
  let f := Z.rem sq 8 in
  let r := Z.quot sq 8 in
  [map (fun nf => r * 8 + nf) (range (f + 1) (Z.to_nat (8 - (f + 1))));
   map (fun nf => r * 8 + nf) (rev (range 0 (Z.to_nat f)));
   map (fun nr => nr * 8 + f) (range (r + 1) (Z.to_nat (8 - (r + 1))));
   map (fun nr => nr * 8 + f) (rev (range 0 (Z.to_nat r)))].

Definition bishopRays (sq : Z) : list (list Z) :=
  let f := Z.rem sq 8 in
  let r := Z.quot sq 8 in
  [diagonal (fun d => (8 <=? f + d) || (8 <=? r + d)) (fun d => (r + d) * 8 + (f + d));
   diagonal (fun d => (f - d <? 0) || (8 <=? r + d)) (fun d => (r + d) * 8 + (f - d));
   diagonal (fun d => (8 <=? f + d) || (r - d <? 0)) (fun d => (r - d) * 8 + (f + d));
   diagonal (fun d => (f - d <? 0) || (r - d <? 0)) (fun d => (r - d) * 8 + (f - d))].

(** The squares of a ray before [t], when [t] is on the ray. *)
Fixpoint prefixBefore (t : Z) (ray : list Z) : option (list Z) :=
  match ray with
  | [] => None
  | s :: ray' =>
      if t =? s then Some []
      else match prefixBefore t ray' with
           | Some pre => Some (s :: pre)
           | None => None
           end
  end.

(** The prefixes of the rays that reach [t]. *)
Fixpoint prefixesTo (t : Z) (rays : list (list Z)) : list (list Z) :=
  match rays with
  | [] => []
  | ray :: rays' =>
      match prefixBefore t ray with
      | Some pre => pre :: prefixesTo t rays'
      | None => prefixesTo t rays'
      end
  end.

(** The step from [sq] toward [t] along a rank or a file, and along a
    diagonal, when [t] is another square of that line. *)
Definition rookStep (sq t : Z) : option Z :=
  if t =? sq then None
  else if t / 8 =? sq / 8 then Some (Z.sgn (t - sq))
  else if t mod 8 =? sq mod 8 then Some (8 * Z.sgn (t - sq))
  else None.

Definition bishopStep (sq t : Z) : option Z :=
  let df := t mod 8 - sq mod 8 in
  let dr := t / 8 - sq / 8 in
  if (Z.abs df =? Z.abs dr) && negb (df =? 0)
  then Some (8 * Z.sgn dr + Z.sgn df)
  else None.

(** The squares strictly between [sq] and [t], in steps of [d]. *)
Definition squaresBetween (sq t d : Z) : list Z :=
  map (fun i => sq + i * d) (range 1 (Z.to_nat ((t - sq) / d - 1))).

(** No piece of [occ] on the squares of a path. *)
Definition emptyOn (occ : Z) (path : list Z) : bool :=
  forallb (fun s => negb (Z.testbit occ s)) path.

(** [t] is on the line the step names and nothing stands in between. *)
Definition seenAlong (occ sq t : Z) (step : option Z) : bool :=
  match step with
  | Some d => emptyOn occ (squaresBetween sq t d)
  | None => false
  end.

Fixpoint listZ_eqb (a b : list Z) : bool :=
  match a, b with
  | [], [] => true
  | x :: a', y :: b' => (x =? y) && listZ_eqb a' b'
  | _, _ => false
  end.

Fixpoint paths_eqb (a b : list (list Z)) : bool :=
  match a, b with
  | [], [] => true
  | x :: a', y :: b' => listZ_eqb x y && paths_eqb a' b'
  | _, _ => false
  end.

(** The paths a step names: one, the squares in between, or none. *)
Definition pathsOf (sq t : Z) (step : option Z) : list (list Z) :=
  match step with
  | Some d => [squaresBetween sq t d]
  | None => []
  end.

(** The geometry of the rays from one square, as a test: the rays stay on
    the board, and the rays that reach a square of the board are the line
    the step names, with the squares in between before it. *)
Definition raysOk (rays : Z -> list (list Z)) (step : Z -> Z -> option Z) (sq : Z) : bool :=
  forallb (forallb onBoard) (rays sq)
  && forallb (fun t => paths_eqb (prefixesTo t (rays sq)) (pathsOf sq t (step sq t)))
       squares.

(** ** The Zobrist tables and key of the native engine ([src/bitboard_chess.c]) *)

Module NativeZobrist.

(** [uint32_t] arithmetic wraps modulo 2^32. *)
Definition u32 (z : Z) : Z := z mod 2 ^ 32.

(** [mulberry32_next()]: the value returned and the state it leaves in
    [mulberry32_state]. *)
Definition mulberry32_next (state : Z) : Z * Z :=
  let state := u32 (state + 0x6d2b79f5) in
  let t := state in
  let t := u32 (Z.lxor t (Z.shiftr t 15) * Z.lor t 1) in
  let t := Z.lxor t (Z.shiftr t 7) in
  let t := Z.lxor t (Z.shiftr t 12) in
  (t, state).

Definition random64 (state : Z) : Z * Z :=
  let (lo, state) := mulberry32_next state in
  let (hi, state) := mulberry32_next state in
  (Z.lor (Z.shiftl hi 32) lo, state).

Fixpoint randoms (n : nat) (state : Z) : list Z * Z :=
  match n with
  | O => ([], state)
  | S n' =>
      let (v, state) := random64 state in
      let (vs, state) := randoms n' state in
      (v :: vs, state)
  end.

Fixpoint randomRows (rows cols : nat) (state : Z) : list (list Z) * Z :=
  match rows with
  | O => ([], state)
  | S rows' =>
      let (row, state) := randoms cols state in
      let (rest, state) := randomRows rows' cols state in
      (row :: rest, state)
  end.

(** The Zobrist part of [init_tables]. *)
Definition init_tables : ZobristTables :=
  let state := 0x5eed in
  let (pieces, state) := randomRows 64 12 state in
  let (side, state) := random64 state in
  let (castle, state) := randoms 4 state in
  let (ep, _) := randoms 8 state in
  mkZobrist pieces side castle ep.

(** The square loop of [get_zobrist_key]; the indices are within the
    arrays. *)
Definition squareKey (t : ZobristTables) (b : Position) (key sq : Z) : Z :=
  match pieceTypeAt b (bit sq) pieceSets with
  | Some pt => Z.lxor key (nth (Z.to_nat pt) (nth (Z.to_nat sq) (ZOBRIST_PIECES t) []) 0)
  | None => key
  end.

(** The castling loop: a character other than K, Q, k, q adds nothing. *)
Definition castleKey (t : ZobristTables) (key : Z) (c : ascii) : Z :=
  if Ascii.eqb c "K" then Z.lxor key (nth 0 (ZOBRIST_CASTLE t) 0)
  else if Ascii.eqb c "Q" then Z.lxor key (nth 1 (ZOBRIST_CASTLE t) 0)
  else if Ascii.eqb c "k" then Z.lxor key (nth 2 (ZOBRIST_CASTLE t) 0)
  else if Ascii.eqb c "q" then Z.lxor key (nth 3 (ZOBRIST_CASTLE t) 0)
  else key.

(** [get_zobrist_key(b, &lo, &hi)]: the two halves it writes. *)
Definition get_zobrist_key (t : ZobristTables) (b : Position) : Z * Z :=
  let key := fold_left (squareKey t b) squares 0 in
  let key :=
    match sideToMove b with
    | Black => Z.lxor key (ZOBRIST_SIDE t)
    | White => key
    end in
  let key := fold_left (castleKey t) (castling b) key in
  let key :=
    if 0 <=? enPassant b
    then Z.lxor key (nth (Z.to_nat (Z.rem (enPassant b) 8)) (ZOBRIST_EP t) 0)
    else key in
  (Z.land key 0xffffffff, Z.shiftr key 32).

End NativeZobrist.

(** ** The move applicator of the native engine ([src/bitboard_chess.c])

    The boards are [u64]; the counters are [int] and are taken not to
    overflow; the castling field is a string of at most four characters. *)

Module NativeMove.

(** [~x] on a [u64]. *)
Definition cnot (x : Z) : Z := Z.lxor x (2 ^ 64 - 1).

(** The copy loop that drops the mover's two rights. *)
Definition drop_side_rights (side : Color) (cs : jsstring) : jsstring :=
  filter (fun c => negb (match side with
                         | White => Ascii.eqb c "K" || Ascii.eqb c "Q"
                         | Black => Ascii.eqb c "k" || Ascii.eqb c "q"
                         end)) cs.

(** The copy loop that drops the right of the corner a rook leaves. *)
Definition drop_rook_right (fromSq : Z) (cs : jsstring) : jsstring :=
  filter (fun c => negb (((fromSq =? 0) && Ascii.eqb c "Q")
                         || ((fromSq =? 7) && Ascii.eqb c "K")
                         || ((fromSq =? 56) && Ascii.eqb c "q")
                         || ((fromSq =? 63) && Ascii.eqb c "k"))) cs.

(** [b->sideToMove = enemy; if (b->sideToMove == WHITE) b->fullmove++;]. *)
Definition finish (b : Position) : Position :=
  let b := setSideToMove (opp (sideToMove b)) b in
  match sideToMove b with
  | White => setFullmove (fullmove b + 1) b
  | Black => b
  end.

Definition castle_branch (b : Position) (m : Native.CMove) (from_bb to_bb : Z) : Position :=
  let side := sideToMove b in
  let b := setBB King side (Z.lxor (bb King side b) (Z.lor from_bb to_bb)) b in
  let b :=
    if Native.c_castle m =? 75 then
      match side with
      | White => setBB Rook White (Z.lxor (bb Rook White b) (Z.lor (bit 7) (bit 5))) b
      | Black => setBB Rook Black (Z.lxor (bb Rook Black b) (Z.lor (bit 63) (bit 61))) b
      end
    else
      match side with
      | White => setBB Rook White (Z.lxor (bb Rook White b) (Z.lor (bit 0) (bit 3))) b
      | Black => setBB Rook Black (Z.lxor (bb Rook Black b) (Z.lor (bit 56) (bit 59))) b
      end in
  let b := setCastling (drop_side_rights side (castling b)) b in
  finish b.

(** The six statements [b-><kind>[enemy] &= ~to_bb]. *)
Definition clear_at (enemy : Color) (to_bb : Z) (b : Position) : Position :=
  let b := setBB Pawn enemy (Z.land (bb Pawn enemy b) (cnot to_bb)) b in
  let b := setBB Knight enemy (Z.land (bb Knight enemy b) (cnot to_bb)) b in
  let b := setBB Bishop enemy (Z.land (bb Bishop enemy b) (cnot to_bb)) b in
  let b := setBB Rook enemy (Z.land (bb Rook enemy b) (cnot to_bb)) b in
  let b := setBB Queen enemy (Z.land (bb Queen enemy b) (cnot to_bb)) b in
  setBB King enemy (Z.land (bb King enemy b) (cnot to_bb)) b.

(** The [if ... else if ... else] chain that moves the piece: the board and
    [moved_pawn].  The last branch moves the king without a test. *)
Definition move_piece (side : Color) (from_bb to_bb : Z) (b : Position) : Position * bool :=
  let mv k := setBB k side (Z.lor (Z.lxor (bb k side b) from_bb) to_bb) b in
  if nonzero (Z.land (bb Pawn side b) from_bb) then (mv Pawn, true)
  else if nonzero (Z.land (bb Knight side b) from_bb) then (mv Knight, false)
  else if nonzero (Z.land (bb Bishop side b) from_bb) then (mv Bishop, false)
  else if nonzero (Z.land (bb Rook side b) from_bb) then (mv Rook, false)
  else if nonzero (Z.land (bb Queen side b) from_bb) then (mv Queen, false)
  else (mv King, false).

Definition promote (side : Color) (to_bb : Z) (m : Native.CMove) (b : Position) : Position :=
  if Native.c_promotion m =? 0 then b
  else
    let b := setBB Pawn side (Z.land (bb Pawn side b) (cnot to_bb)) b in
    if Native.c_promotion m =? 113 then setBB Queen side (Z.lor (bb Queen side b) to_bb) b
    else if Native.c_promotion m =? 114 then setBB Rook side (Z.lor (bb Rook side b) to_bb) b
    else if Native.c_promotion m =? 98 then setBB Bishop side (Z.lor (bb Bishop side b) to_bb) b
    else setBB Knight side (Z.lor (bb Knight side b) to_bb) b.

Definition en_passant_field (moved_pawn : bool) (m : Native.CMove) (b : Position) : Position :=
  if moved_pawn && ((Native.c_to m - Native.c_from m =? 16)
                    || (Native.c_from m - Native.c_to m =? 16))
  then setEnPassant (Z.quot (Native.c_from m + Native.c_to m) 2) b
  else setEnPassant (-1) b.

Definition update_rights (side : Color) (from_bb : Z) (moved_rook : bool)
  (m : Native.CMove) (b : Position) : Position :=
  let b :=
    if nonzero (Z.land (bb King side b) from_bb)
    then setCastling (drop_side_rights side (castling b)) b
    else b in
  if moved_rook
  then setCastling (drop_rook_right (Native.c_from m) (castling b)) b
  else b.

Definition en_passant_capture (side : Color) (m : Native.CMove) (b : Position)
  : Native.COutcome Position :=
  if Native.c_enpassant m then
    Native.cbind
      (Native.BIT (match side with
                   | White => Native.c_to m - 8
                   | Black => Native.c_to m + 8
                   end))
      (fun cap =>
         Native.CRet (setBB Pawn (opp side)
                        (Z.land (bb Pawn (opp side) b) (cnot cap)) b))
  else Native.CRet b.

(** [make_move(b, move)]; a square outside the board makes [BIT] shift by
    more than the width, which is undefined. *)
Definition make_move (b : Position) (m : Native.CMove) : Native.COutcome Position :=
  let side := sideToMove b in
  let enemy := opp side in
  Native.cbind (Native.BIT (Native.c_from m)) (fun from_bb =>
  Native.cbind (Native.BIT (Native.c_to m)) (fun to_bb =>
  if negb (Native.c_castle m =? 0) then Native.CRet (castle_branch b m from_bb to_bb)
  else
    Native.cbind (en_passant_capture side m b) (fun b =>
    let b := clear_at enemy to_bb b in
    let moved_rook := nonzero (Z.land (bb Rook side b) from_bb) in
    let (b, moved_pawn) := move_piece side from_bb to_bb b in
    let b := promote side to_bb m b in
    let b := en_passant_field moved_pawn m b in
    let b := update_rights side from_bb moved_rook m b in
    Native.CRet (finish b)))).

(** The descriptor of the script as the native engine holds it: a
    one-character field as its character code, an absent field as 0. *)
Definition ofMove (m : Move) : Native.CMove :=
  Native.mkCMove (from m) (to m)
    (match promotion m with Some [x] => code x | _ => 0 end)
    (match castle m with Some [x] => code x | _ => 0 end)
    (enpassant m).

End NativeMove.


(** Boards that fit 64 bits. *)
Definition boards64 (p : Position) : Prop :=
  forall k c n, 64 <= n -> Z.testbit (bb k c p) n = false.

(** The piece a promotion letter of SAN names. *)
Definition promotedKind (c : ascii) : Kind :=
  if Ascii.eqb c "Q" then Queen
  else if Ascii.eqb c "R" then Rook
  else if Ascii.eqb c "B" then Bishop
  else Knight.

(** * Properties *)

(** ** Strings and bits *)

Lemma str_eqb_eq (a b : jsstring) : str_eqb a b = true <-> a = b.
Proof.
  revert b; induction a as [|x a IH]; intros [|y b]; simpl; split;
    try congruence; try discriminate.
  - intros H. apply andb_true_iff in H as [Hx Hs].
    apply Ascii.eqb_eq in Hx. apply IH in Hs. congruence.
  - intros H. injection H as -> ->.
    rewrite Ascii.eqb_refl. simpl. now apply IH.
Qed.

Lemma str_eqb_neq (a b : jsstring) : a <> b -> str_eqb a b = false.
Proof.
  intros H. destruct (str_eqb a b) eqn:E; [|reflexivity].
  apply str_eqb_eq in E. contradiction.
Qed.

Lemma land_lnot_self (x t : Z) : Z.land (Z.land x (Z.lnot t)) t = 0.
Proof.
  rewrite <- Z.land_assoc, (Z.land_comm (Z.lnot t) t), Z.land_lnot_diag.
  apply Z.land_0_r.
Qed.

Lemma land_lor_self (x t : Z) : Z.land (Z.lor x t) t = t.
Proof.
  apply Z.bits_inj'. intros n _.
  rewrite Z.land_spec, Z.lor_spec.
  destruct (Z.testbit x n), (Z.testbit t n); reflexivity.
Qed.

Lemma bit_testbit (s n : Z) : 0 <= s -> Z.testbit (bit s) n = (n =? s).
Proof.
  intros Hs. unfold bit. rewrite Z.shiftl_1_l, Z.pow2_bits_eqb by exact Hs.
  apply Z.eqb_sym.
Qed.

Lemma nonzero_land_bit (x sq : Z) :
  0 <= sq -> nonzero (Z.land x (bit sq)) = Z.testbit x sq.
Proof.
  intros Hs. unfold nonzero.
  destruct (Z.testbit x sq) eqn:T.
  - destruct (Z.eqb_spec (Z.land x (bit sq)) 0) as [E|]; [|reflexivity].
    assert (B : Z.testbit (Z.land x (bit sq)) sq = true).
    { rewrite Z.land_spec, T, bit_testbit, Z.eqb_refl by exact Hs. reflexivity. }
    rewrite E, Z.bits_0 in B. discriminate.
  - assert (E : Z.land x (bit sq) = 0).
    { apply Z.bits_inj'. intros n Hn.
      rewrite Z.land_spec, Z.bits_0, bit_testbit by exact Hs.
      destruct (Z.eqb_spec n sq) as [->|]; [now rewrite T | apply andb_false_r]. }
    rewrite E. reflexivity.
Qed.

(** ** Frame lemmas of the setters *)

Lemma bb_setBB_same k c v p : bb k c (setBB k c v p) = v.
Proof. destruct k, c; reflexivity. Qed.

Lemma bb_setBB_other_kind k k' c c' v p :
  k <> k' -> bb k c (setBB k' c' v p) = bb k c p.
Proof. destruct k, k', c, c'; try reflexivity; congruence. Qed.

Lemma bb_setBB_other_color k k' c v p :
  bb k c (setBB k' (opp c) v p) = bb k c p.
Proof. destruct k, k', c; reflexivity. Qed.

Lemma bb_setCastling k c s p : bb k c (setCastling s p) = bb k c p.
Proof. destruct k; reflexivity. Qed.

Lemma bb_setEnPassant k c e p : bb k c (setEnPassant e p) = bb k c p.
Proof. destruct k; reflexivity. Qed.

Lemma bb_finishMove k c p : bb k c (_finishMove p) = bb k c p.
Proof. unfold _finishMove. destruct k, (sideToMove p); reflexivity. Qed.

Lemma bb_updateEnPassant k c b m p : bb k c (updateEnPassant b m p) = bb k c p.
Proof.
  unfold updateEnPassant.
  destruct (b && (Z.abs (to m - from m) =? 16)); apply bb_setEnPassant.
Qed.

Lemma bb_updateRights k c side fromBB r m p :
  bb k c (updateRights side fromBB r m p) = bb k c p.
Proof.
  unfold updateRights.
  repeat match goal with
         | |- context [if ?b then _ else _] => destruct b
         end;
    repeat rewrite bb_setCastling; reflexivity.
Qed.

Lemma halfmove_setBB k c v p : halfmove (setBB k c v p) = halfmove p.
Proof. destruct k; reflexivity. Qed.

Lemma halfmove_setCastling s p : halfmove (setCastling s p) = halfmove p.
Proof. reflexivity. Qed.

Lemma halfmove_finishMove p : halfmove (_finishMove p) = halfmove p.
Proof. unfold _finishMove. destruct (sideToMove p); reflexivity. Qed.

Lemma halfmove_moveFirst side f t ks p :
  halfmove (moveFirst side f t ks p) = halfmove p.
Proof.
  induction ks as [|k ks IH]; simpl; [reflexivity|].
  unfold movePiece.
  destruct (nonzero (Z.land (bb k side p) f)); [apply halfmove_setBB | exact IH].
Qed.

Lemma halfmove_removeAt enemy t ks p :
  halfmove (fold_left (removeAt enemy t) ks p) = halfmove p.
Proof.
  revert p; induction ks as [|k ks IH]; intros p; simpl; [reflexivity|].
  rewrite IH. apply halfmove_setBB.
Qed.

Lemma halfmove_enPassantCapture side m p :
  halfmove (enPassantCapture side m p) = halfmove p.
Proof.
  unfold enPassantCapture. destruct (enpassant m); [apply halfmove_setBB | reflexivity].
Qed.

Lemma halfmove_promote side t m p : halfmove (promote side t m p) = halfmove p.
Proof.
  unfold promote. destruct (promotion m) as [s|]; [|reflexivity].
  destruct (truthy (Some s)); [|reflexivity].
  now rewrite !halfmove_setBB.
Qed.

Lemma halfmove_updateEnPassant b m p : halfmove (updateEnPassant b m p) = halfmove p.
Proof.
  unfold updateEnPassant.
  destruct (b && (Z.abs (to m - from m) =? 16)); reflexivity.
Qed.

Lemma halfmove_updateRights side fromBB r m p :
  halfmove (updateRights side fromBB r m p) = halfmove p.
Proof.
  unfold updateRights.
  repeat match goal with
         | |- context [if ?b then _ else _] => destruct b
         end; reflexivity.
Qed.

Lemma halfmove_castleMove p m : halfmove (castleMove p m) = halfmove p.
Proof.
  unfold castleMove. cbv zeta.
  rewrite halfmove_finishMove, halfmove_setCastling.
  destruct (match castle m with Some s => str_eqb s (str "K") | None => false end),
    (sideToMove p); now rewrite !halfmove_setBB.
Qed.

(** The castling field and the en-passant square under the steps that only
    touch the boards. *)

Lemma meta_eq (p q : Position) :
  metaOf p = metaOf q -> castling p = castling q /\ enPassant p = enPassant q.
Proof. unfold metaOf. intros H. injection H as H1 H2. now split. Qed.

Lemma meta_setBB k c v p : metaOf (setBB k c v p) = metaOf p.
Proof. destruct k; reflexivity. Qed.

Lemma meta_finishMove p : metaOf (_finishMove p) = metaOf p.
Proof. unfold _finishMove. destruct (sideToMove p); reflexivity. Qed.

Lemma meta_removeAt enemy t ks p :
  metaOf (fold_left (removeAt enemy t) ks p) = metaOf p.
Proof.
  revert p; induction ks as [|k ks IH]; intros p; cbn [fold_left]; [reflexivity|].
  rewrite IH. apply meta_setBB.
Qed.

Lemma meta_moveFirst side f t ks p : metaOf (moveFirst side f t ks p) = metaOf p.
Proof.
  induction ks as [|k ks IH]; cbn [moveFirst]; [reflexivity|].
  unfold movePiece.
  destruct (nonzero (Z.land (bb k side p) f)); [apply meta_setBB | exact IH].
Qed.

Lemma meta_enPassantCapture side m p : metaOf (enPassantCapture side m p) = metaOf p.
Proof.
  unfold enPassantCapture. destruct (enpassant m); [apply meta_setBB | reflexivity].
Qed.

Lemma meta_promote side t m p : metaOf (promote side t m p) = metaOf p.
Proof.
  unfold promote. destruct (promotion m) as [s|]; [|reflexivity].
  destruct (truthy (Some s)); [|reflexivity].
  now rewrite !meta_setBB.
Qed.

(** ** The move applicator *)

(** C9.  The move applicator never modifies the halfmove clock: whatever the
    position and the move descriptor (castle, capture, pawn move, promotion
    or any other), [halfmove] after [makeMove] is [halfmove] before it. *)
Theorem makeMove_keeps_halfmove (p : Position) (m : Move) :
  halfmove (makeMove p m) = halfmove p.
Proof.
  unfold makeMove.
  destruct (truthy (castle m)); [apply halfmove_castleMove|].
  rewrite halfmove_finishMove, halfmove_updateRights, halfmove_updateEnPassant,
    halfmove_promote, halfmove_moveFirst, halfmove_removeAt.
  apply halfmove_enPassantCapture.
Qed.

(** C10.  A non-castle move whose promotion value is present (a non-empty
    string, which is what [if (move.promotion)] lets through) and is none of
    ["q"], ["r"], ["b"] clears the moving side's pawn bit of the destination
    and sets its knight bit: [pawns[side] & toBB] is [0n] and
    [knights[side] & toBB] is [toBB] afterwards. *)
Theorem unrecognized_promotion_is_knight (p : Position) (m : Move) (s : jsstring) :
  truthy (castle m) = false ->
  promotion m = Some s ->
  s <> [] ->
  s <> str "q" -> s <> str "r" -> s <> str "b" ->
  let side := sideToMove p in
  let toBB := bit (to m) in
  Z.land (bb Pawn side (makeMove p m)) toBB = 0 /\
  Z.land (bb Knight side (makeMove p m)) toBB = toBB.
Proof.
  intros Hc Hp Hne Hq Hr Hb side toBB.
  unfold makeMove. rewrite Hc. fold side. fold toBB.
  rewrite !bb_finishMove, !bb_updateRights, !bb_updateEnPassant.
  unfold promote. rewrite Hp.
  assert (Ht : truthy (Some s) = true) by (destruct s; [congruence | reflexivity]).
  rewrite Ht.
  assert (Hk : promotionTarget s = Knight).
  { unfold promotionTarget. now rewrite !str_eqb_neq. }
  rewrite Hk. split.
  - rewrite bb_setBB_other_kind by discriminate.
    rewrite bb_setBB_same. apply land_lnot_self.
  - rewrite bb_setBB_same. apply land_lor_self.
Qed.

(** The uppercase letter [Q] is such a value: the pawn that reaches b8 with
    [promotion: "Q"] becomes a knight. *)
Lemma unrecognized_promotion_is_knight_witness :
  let p := loadFromFEN (str "8/1P6/8/8/8/8/8/k6K w - - 0 1") reset in
  let m := mkMove 49 57 (Some (str "Q")) None false in
  Z.land (bb Pawn White (makeMove p m)) (bit 57) = 0 /\
  Z.land (bb Knight White (makeMove p m)) (bit 57) = bit 57.
Proof.
  apply (@unrecognized_promotion_is_knight
           (loadFromFEN (str "8/1P6/8/8/8/8/8/k6K w - - 0 1") reset)
           (mkMove 49 57 (Some (str "Q")) None false) (str "Q")).
  - reflexivity.
  - reflexivity.
  - discriminate.
  - discriminate.
  - discriminate.
  - discriminate.
Defined.

(** ** Two defects of the move applicator *)

(** The sets of the mover are not touched by the capture steps. *)
Lemma bb_removeAt_side k side t ks p :
  bb k side (fold_left (removeAt (opp side) t) ks p) = bb k side p.
Proof.
  revert p; induction ks as [|k' ks IH]; intros p; cbn [fold_left]; [reflexivity|].
  rewrite IH. unfold removeAt. apply bb_setBB_other_color.
Qed.

Lemma bb_enPassantCapture_side k side m p :
  bb k side (enPassantCapture side m p) = bb k side p.
Proof.
  unfold enPassantCapture. destruct (enpassant m); [|reflexivity].
  apply bb_setBB_other_color.
Qed.

Lemma promotionTarget_not_king (s : jsstring) : promotionTarget s <> King.
Proof.
  unfold promotionTarget.
  destruct (str_eqb s (str "q")); [discriminate|].
  destruct (str_eqb s (str "r")); [discriminate|].
  destruct (str_eqb s (str "b")); discriminate.
Qed.

Lemma bb_king_promote side t m p : bb King side (promote side t m p) = bb King side p.
Proof.
  unfold promote. destruct (promotion m) as [s|]; [|reflexivity].
  destruct (truthy (Some s)); [|reflexivity].
  rewrite bb_setBB_other_kind by (intros E; symmetry in E; now apply promotionTarget_not_king in E).
  apply bb_setBB_other_kind. discriminate.
Qed.

Lemma castling_updateEnPassant b m p :
  castling (updateEnPassant b m p) = castling p.
Proof.
  unfold updateEnPassant. destruct (b && (Z.abs (to m - from m) =? 16)); reflexivity.
Qed.

(** The defect behind C1, in general: a move of the king (the origin holds
    the mover's king and no other piece of the mover, the destination is
    another square) leaves the castling field as it was. *)
Lemma king_move_leaves_castling (p : Position) (m : Move) :
  truthy (castle m) = false ->
  0 <= from m -> 0 <= to m -> from m <> to m ->
  Z.testbit (bb King (sideToMove p) p) (from m) = true ->
  (forall k, k <> King -> Z.testbit (bb k (sideToMove p) p) (from m) = false) ->
  castling (makeMove p m) = castling p.
Proof.
  intros Hc Hf Ht Hne Hk Hother. unfold makeMove. rewrite Hc. cbv zeta.
  set (side := sideToMove p) in *.
  set (p2 := fold_left (removeAt (opp side) (bit (to m))) allKinds
               (enPassantCapture side m p)).
  assert (B2 : forall k, bb k side p2 = bb k side p).
  { intros k. unfold p2. now rewrite bb_removeAt_side, bb_enPassantCapture_side. }
  assert (T2 : forall k, nonzero (Z.land (bb k side p2) (bit (from m)))
                         = Z.testbit (bb k side p) (from m)).
  { intros k. now rewrite nonzero_land_bit, B2 by exact Hf. }
  assert (M3 : moveFirst side (bit (from m)) (bit (to m)) allKinds p2
               = setBB King side
                   (Z.lor (Z.lxor (bb King side p2) (bit (from m))) (bit (to m))) p2).
  { unfold allKinds. cbn [moveFirst]. unfold movePiece.
    rewrite !T2, Hk, !Hother by discriminate. reflexivity. }
  rewrite M3. rewrite T2, Hother by discriminate.
  set (p4 := promote side (bit (to m)) m _).
  assert (K4 : nonzero (Z.land (bit (from m)) (bb King side p4)) = false).
  { unfold p4. rewrite bb_king_promote, bb_setBB_same, Z.land_comm.
    rewrite nonzero_land_bit by exact Hf.
    rewrite Z.lor_spec, Z.lxor_spec, !bit_testbit by lia.
    rewrite B2, Hk, Z.eqb_refl. cbn [xorb orb].
    now apply Z.eqb_neq. }
  destruct (meta_eq _ _ (meta_finishMove
              (updateRights side (bit (from m)) false m
                 (updateEnPassant (snd (movePiece side (bit (from m)) (bit (to m)) Pawn p2))
                    m p4)))) as [-> _].
  unfold updateRights. rewrite bb_updateEnPassant, K4.
  rewrite castling_updateEnPassant.
  unfold p4.
  destruct (meta_eq _ _ (meta_promote side (bit (to m)) m
              (setBB King side
                 (Z.lor (Z.lxor (bb King side p2) (bit (from m))) (bit (to m))) p2)))
    as [-> _].
  destruct (meta_eq _ _ (meta_setBB King side
              (Z.lor (Z.lxor (bb King side p2) (bit (from m))) (bit (to m))) p2)) as [-> _].
  unfold p2.
  destruct (meta_eq _ _ (meta_removeAt (opp side) (bit (to m)) allKinds
              (enPassantCapture side m p))) as [-> _].
  now destruct (meta_eq _ _ (meta_enPassantCapture side m p)) as [-> _].
Qed.

(** The defect behind C2, in general: a castle leaves the en-passant square
    as it was. *)
Lemma castle_leaves_en_passant (p : Position) (m : Move) :
  truthy (castle m) = true -> enPassant (makeMove p m) = enPassant p.
Proof.
  intros Hc. unfold makeMove. rewrite Hc. unfold castleMove. cbv zeta.
  match goal with
  | |- enPassant (_finishMove ?q) = _ =>
      destruct (meta_eq _ _ (meta_finishMove q)) as [_ ->]
  end.
  change (enPassant (setCastling ?s ?q)) with (enPassant q).
  destruct (match castle m with Some s => str_eqb s (str "K") | None => false end),
    (sideToMove p);
    match goal with
    | |- enPassant (setBB ?k ?c ?v ?q) = _ =>
        destruct (meta_eq _ _ (meta_setBB k c v q)) as [_ ->]
    end;
    match goal with
    | |- enPassant (setBB ?k ?c ?v ?q) = _ =>
        destruct (meta_eq _ _ (meta_setBB k c v q)) as [_ ->]
    end; reflexivity.
Qed.

(** C1.  After 1. e4 e5 the white king stands on e1 and moves to e2 by the
    descriptor [{from: 4, to: 12}].  Step 7 tests [fromBB & kings[side]]
    after step 4 has already moved the king away from the origin, so the
    test fails and White keeps both rights: the castling field is still
    ["KQkq"]. *)
Theorem king_move_keeps_castling_rights :
  let p := replay [plainMove 12 28; plainMove 52 36] in
  let m := plainMove 4 12 in
  nonzero (Z.land (bb King (sideToMove p) p) (bit (from m))) = true /\
  truthy (castle m) = false /\
  castling (makeMove p m) = str "KQkq".
Proof. vm_compute. repeat split. Qed.

(** C2.  After 1. Nf3 Nf6 2. g3 g6 3. Bg2 Bg7 4. d3 d5 the en-passant square
    is d6 (43).  White castles short: the castle branch returns before step
    6, and the en-passant square is still d6 afterwards. *)
Theorem castle_keeps_en_passant_square :
  let p := replay [plainMove 6 21; plainMove 62 45; plainMove 14 22; plainMove 54 46;
                   plainMove 5 14; plainMove 61 54; plainMove 11 19; plainMove 51 35] in
  let m := mkMove 4 6 None (Some (str "K")) false in
  enPassant p = 43 /\
  enPassant (makeMove p m) = 43 /\
  toFEN (makeMove p m)
  = str "rnbqk2r/ppp1ppbp/5np1/3p4/8/3P1NP1/PPP1PPBP/RNBQ1RK1 b kq d6 0 5".
Proof. vm_compute. repeat split. Qed.

(** ** The resolver and check annotations *)

Lemma dropSpaces_app_nonspace (s : jsstring) (c : ascii) :
  isSpace c = false -> exists s', dropSpaces (s ++ [c]) = s' ++ [c].
Proof.
  intros Hc. induction s as [|x s IH]; simpl.
  - rewrite Hc. now exists [].
  - destruct (isSpace x); [exact IH | now exists (x :: s)].
Qed.

Lemma trim_app_nonspace (s : jsstring) (c : ascii) :
  isSpace c = false -> exists s', trim (s ++ [c]) = s' ++ [c].
Proof.
  intros Hc. unfold trim.
  destruct (dropSpaces_app_nonspace s c Hc) as [s' ->].
  rewrite rev_app_distr. simpl. rewrite Hc. simpl.
  rewrite rev_involutive. now exists s'.
Qed.

(** A text whose last character is neither a rank digit nor one of N, B, R,
    Q has no destination square at its end and is no castle literal. *)
Lemma parseSAN_bad_last (s : jsstring) (c : ascii) :
  isSpace c = false ->
  between "1" "8" c = false ->
  is_in (str "NBRQ") c = false ->
  Ascii.eqb c "O" = false ->
  parseSAN (s ++ [c]) = Ret None.
Proof.
  intros Hs Hd Hp Ho. unfold parseSAN.
  destruct (trim_app_nonspace s c Hs) as [s' ->].
  assert (Hk : forall lit, lastChar lit = Some "O"%char -> str_eqb (s' ++ [c]) lit = false).
  { intros lit Hl. apply str_eqb_neq. intros E. rewrite <- E in Hl.
    unfold lastChar in Hl. rewrite rev_app_distr in Hl. simpl in Hl.
    injection Hl as ->. discriminate. }
  rewrite !Hk by reflexivity. cbv beta iota delta [orb].
  unfold matchTarget. rewrite rev_app_distr. cbn [rev app].
  destruct (rev s') as [|c0 pre]; [reflexivity|].
  rewrite Hd, andb_false_r.
  destruct pre as [|d1 [|d0 pre']]; try reflexivity.
  rewrite Hp, andb_false_r. reflexivity.
Qed.

(** C4.  A text that ends in a check or checkmate mark never resolves:
    whatever the position and whatever precedes the mark, [resolveSAN]
    returns [null].  In particular "Bb5" resolves after 1. e4 c5 2. Nf3 d6
    and "Bb5+" does not. *)
Theorem annotation_is_not_tolerated :
  (forall (p : Position) (san : jsstring),
      resolveSAN p (san ++ str "+") = Ret None /\
      resolveSAN p (san ++ str "#") = Ret None) /\
  (let p := replay [plainMove 12 28; plainMove 50 34; plainMove 6 21; plainMove 51 43] in
   resolveSAN p (str "Bb5") = Ret (Some (plainMove 5 33)) /\
   resolveSAN p (str "Bb5+") = Ret None).
Proof.
  split.
  - intros p san. unfold resolveSAN, str. simpl list_ascii_of_string.
    rewrite !parseSAN_bad_last by reflexivity. split; reflexivity.
  - vm_compute. split; reflexivity.
Qed.

(** ** The two engines *)

(** C8.  On the text "O-O+" in the initial position the two resolvers
    part: [parseSAN] compares the whole text with "O-O" and then finds no
    destination square, so the JavaScript engine returns [null]; [parse_san]
    compares only the first three characters, so the native engine returns
    the king-side castle.  On "e4 " the roles are exchanged: [trim()]
    removes the final blank, the native parser only skips leading ones. *)
Theorem engines_disagree_on_resolution :
  (resolveSAN reset (str "O-O+") = Ret None /\
   Native.resolve_san reset (str "O-O+")
   = Native.CRet (Some (Native.mkCMove 4 6 0 (code "K") false)) /\
   Native.sameResult (resolveSAN reset (str "O-O+"))
     (Native.resolve_san reset (str "O-O+")) = false) /\
  (resolveSAN reset (str "e4 ") = Ret (Some (plainMove 12 28)) /\
   Native.resolve_san reset (str "e4 ") = Native.CRet None).
Proof. vm_compute. repeat split. Qed.

(** ** The scans over the 64 squares *)

Lemma scanSingle_found (b : Z) (sqs : list Z) (found : Z) :
  0 <= found ->
  scanSingle b sqs found = match hitsOf b sqs with [] => found | _ => -1 end.
Proof.
  intros Hf. induction sqs as [|sq sqs IH]; simpl; [reflexivity|].
  destruct (nonzero (Z.land b (bit sq))); simpl; [|exact IH].
  destruct (Z.leb_spec 0 found); [reflexivity | lia].
Qed.

Lemma scanSingle_fresh (b : Z) (sqs : list Z) (found : Z) :
  found < 0 ->
  Forall (fun sq => 0 <= sq) sqs ->
  scanSingle b sqs found =
  match hitsOf b sqs with
  | [] => found
  | [sq] => sq
  | _ => -1
  end.
Proof.
  intros Hf Hs. induction Hs as [|sq sqs Hsq Hs IH]; simpl; [reflexivity|].
  destruct (nonzero (Z.land b (bit sq))); simpl; [|exact IH].
  destruct (Z.leb_spec 0 found); [lia|].
  rewrite scanSingle_found by assumption.
  destruct (hitsOf b sqs); reflexivity.
Qed.

Lemma scanCount_one (b : Z) (sqs : list Z) (fromSq : Z) :
  scanCount b sqs 1 fromSq =
  match hitsOf b sqs with
  | [] => (1, fromSq)
  | sq :: _ => (2, sq)
  end.
Proof.
  induction sqs as [|sq sqs IH]; simpl; [reflexivity|].
  destruct (nonzero (Z.land b (bit sq))); simpl; [reflexivity | exact IH].
Qed.

Lemma scanCount_zero (b : Z) (sqs : list Z) (fromSq : Z) :
  scanCount b sqs 0 fromSq =
  match hitsOf b sqs with
  | [] => (0, fromSq)
  | [sq] => (1, sq)
  | _ :: sq :: _ => (2, sq)
  end.
Proof.
  induction sqs as [|sq sqs IH]; simpl; [reflexivity|].
  destruct (nonzero (Z.land b (bit sq))); simpl; [|exact IH].
  rewrite scanCount_one. destruct (hitsOf b sqs); reflexivity.
Qed.

Lemma range_nonneg (lo : Z) (n : nat) :
  0 <= lo -> Forall (fun sq => 0 <= sq) (range lo n).
Proof.
  revert lo; induction n as [|n IH]; intros lo Hlo; simpl; constructor.
  - exact Hlo.
  - apply IH. lia.
Qed.

Lemma squares_nonneg : Forall (fun sq => 0 <= sq) squares.
Proof. apply range_nonneg. lia. Qed.

Lemma hitsOf_In (b : Z) (sqs : list Z) (sq : Z) : In sq (hitsOf b sqs) -> In sq sqs.
Proof.
  unfold hitsOf. intros H. apply filter_In in H. exact (proj1 H).
Qed.

Lemma members_eq (b : Z) : hitsOf b squares = members b.
Proof. unfold members. reflexivity. Qed.

Lemma members_nonneg (b sq : Z) : In sq (members b) -> 0 <= sq.
Proof.
  unfold members. intros H. apply hitsOf_In in H.
  exact (proj1 (Forall_forall _ _) squares_nonneg sq H).
Qed.

Lemma nonzero_false (z : Z) : nonzero z = false -> z = 0.
Proof.
  unfold nonzero. destruct (Z.eqb_spec z 0); [trivial | discriminate].
Qed.

Lemma members_zero : members 0 = [].
Proof. vm_compute. reflexivity. Qed.

(** The fallback of [resolveSAN] on the candidate set before the masks. *)
Lemma fallback_members (cands fromSq : Z) :
  (if nonzero cands
   then let (count, sq) := scanCount cands squares 0 fromSq in
        if count =? 1 then sq else -1
   else -1) =
  match members cands with
  | [sq] => sq
  | _ => -1
  end.
Proof.
  destruct (nonzero cands) eqn:Hz.
  - rewrite scanCount_zero. rewrite members_eq.
    destruct (members cands) as [|x [|y l]]; reflexivity.
  - apply nonzero_false in Hz. subst cands. rewrite members_zero. reflexivity.
Qed.

(** The origin square in terms of the two sets of squares. *)
Lemma originOf_members (cands masked : Z) (dF dR : option ascii) :
  disambMasked cands dF dR = Ret masked ->
  originOf cands dF dR =
  Ret (match members masked with
       | [sq] => sq
       | _ => match members cands with
              | [sq] => sq
              | _ => -1
              end
       end).
Proof.
  intros Hm. unfold originOf, filterDisamb. rewrite Hm. cbn [bind].
  rewrite scanSingle_fresh by (try lia; apply squares_nonneg).
  rewrite members_eq. rewrite <- (fallback_members cands (-1)).
  destruct (members masked) as [|sq [|sq' ms]] eqn:E.
  - reflexivity.
  - assert (0 <= sq) by (apply (members_nonneg masked); rewrite E; now left).
    destruct (Z.ltb_spec sq 0); [lia | reflexivity].
  - reflexivity.
Qed.

(** The masks only remove squares. *)
Lemma disambMasked_subset (cands masked : Z) (dF dR : option ascii) (sq : Z) :
  disambMasked cands dF dR = Ret masked -> 0 <= sq ->
  nonzero (Z.land masked (bit sq)) = true -> nonzero (Z.land cands (bit sq)) = true.
Proof.
  intros Hm Hs. rewrite !nonzero_land_bit by exact Hs.
  unfold disambMasked in Hm.
  destruct dR as [rc|].
  - destruct (parseIntChar rc) as [n|]; [|discriminate]. injection Hm as <-.
    rewrite Z.land_spec. intros H. apply andb_true_iff in H as [H _].
    destruct dF as [fc|]; [|exact H].
    rewrite Z.land_spec in H. now apply andb_true_iff in H as [H _].
  - injection Hm as <-. destruct dF as [fc|]; [|trivial].
    rewrite Z.land_spec. intros H. now apply andb_true_iff in H as [H _].
Qed.

Lemma hitsOf_length_le (b c : Z) (sqs : list Z) :
  (forall sq, In sq sqs ->
     nonzero (Z.land b (bit sq)) = true -> nonzero (Z.land c (bit sq)) = true) ->
  (List.length (hitsOf b sqs) <= List.length (hitsOf c sqs))%nat.
Proof.
  unfold hitsOf. induction sqs as [|sq sqs IH]; intros H; cbn [filter]; [lia|].
  assert (IH' := IH (fun s Hs => H s (or_intror Hs))).
  specialize (H sq (or_introl eq_refl)).
  destruct (nonzero (Z.land b (bit sq))).
  - rewrite (H eq_refl). cbn [List.length]. lia.
  - destruct (nonzero (Z.land c (bit sq))); cbn [List.length]; lia.
Qed.

Lemma members_masked_le (cands masked : Z) (dF dR : option ascii) :
  disambMasked cands dF dR = Ret masked ->
  (List.length (members masked) <= List.length (members cands))%nat.
Proof.
  intros Hm. unfold members. apply hitsOf_length_le. intros sq Hsq.
  apply (disambMasked_subset cands masked dF dR sq Hm).
  exact (proj1 (Forall_forall _ _) squares_nonneg sq Hsq).
Qed.

(** C3, as the code has it.  When the candidates left by the file and rank
    masks are not exactly one square, [resolveSAN] falls back on the
    candidate set before the masks: it returns [null] unless that set is a
    single square, and then it returns the move from that square.  With
    more than one square left by the masks the set before them has more than
    one as well, and the result is [null]. *)
Theorem disambiguation_falls_back
  (p : Position) (san : jsstring) (ps : ParsedSAN) (cands masked : Z) :
  parseSAN san = Ret (Some ps) ->
  truthy (parsedCastle ps) = false ->
  candidatesOf p ps = Ret cands ->
  disambMasked cands (disambFile ps) (disambRank ps) = Ret masked ->
  List.length (members masked) <> 1%nat ->
  resolveSAN p san =
  Ret (match members cands with
       | [sq] => Some (buildMove p ps sq)
       | _ => None
       end) /\
  ((2 <= List.length (members masked))%nat -> resolveSAN p san = Ret None).
Proof.
  intros Hp Hc Hcands Hm Hlen.
  assert (R : resolveSAN p san =
              Ret (match members cands with
                   | [sq] => Some (buildMove p ps sq)
                   | _ => None
                   end)).
  { unfold resolveSAN. rewrite Hp. cbn [bind]. rewrite Hc, Hcands. cbn [bind].
    rewrite (originOf_members _ _ _ _ Hm). cbn [bind].
    assert (Hfall : match members masked with
                    | [sq] => sq
                    | _ => match members cands with [sq] => sq | _ => -1 end
                    end = match members cands with [sq] => sq | _ => -1 end).
    { destruct (members masked) as [|sq [|sq' ms]]; cbn [List.length] in Hlen;
        congruence. }
    rewrite Hfall.
    destruct (members cands) as [|x [|y l]] eqn:Ec; try reflexivity.
    assert (0 <= x) by (apply (members_nonneg cands); rewrite Ec; now left).
    destruct (Z.ltb_spec x 0); [lia | reflexivity]. }
  split; [exact R|].
  intros Hmany. rewrite R.
  pose proof (members_masked_le _ _ _ _ Hm) as Hle.
  destruct (members cands) as [|x [|y l]]; cbn [List.length] in Hle; try reflexivity; lia.
Qed.

(** In the initial position "Nbf3" names the b-file, the only knight that
    reaches f3 stands on g1, and the move from g1 is returned. *)
Lemma disambiguation_falls_back_witness :
  resolveSAN reset (str "Nbf3") = Ret (Some (plainMove 6 21)).
Proof.
  assert (H := disambiguation_falls_back reset (str "Nbf3")
                 (mkParsed (Some "N"%char) 21 (Some "b"%char) None None None)
                 (bit 6) 0).
  vm_compute in H. vm_compute.
  apply H; try reflexivity. discriminate.
Defined.

(** The same text shows that a failed disambiguation is not always a failed
    resolution: the b-file mask leaves no candidate, and the result is not
    [null]. *)
Lemma disambiguation_failure_resolves :
  ~ (forall (p : Position) (san : jsstring) (ps : ParsedSAN) (cands masked : Z),
        parseSAN san = Ret (Some ps) ->
        isSome (disambFile ps) || isSome (disambRank ps) = true ->
        candidatesOf p ps = Ret cands ->
        disambMasked cands (disambFile ps) (disambRank ps) = Ret masked ->
        List.length (members masked) <> 1%nat ->
        resolveSAN p san = Ret None).
Proof.
  intros H.
  specialize (H reset (str "Nbf3")
                (mkParsed (Some "N"%char) 21 (Some "b"%char) None None None)
                (bit 6) 0).
  vm_compute in H.
  assert (E : Ret (Some (plainMove 6 21)) = Ret (@None Move)).
  { apply H; try reflexivity. discriminate. }
  discriminate E.
Qed.

(** ** Totality of the resolver *)

Lemma code_range (c : ascii) : 0 <= code c < 256.
Proof.
  unfold code. pose proof (N_ascii_bounded c) as H. lia.
Qed.

Lemma between_spec (lo hi c : ascii) :
  between lo hi c = true <-> code lo <= code c <= code hi.
Proof.
  unfold between. rewrite andb_true_iff, !Z.leb_le. tauto.
Qed.

(** A rank digit goes through [parseInt]. *)
Lemma parseIntChar_rank (c : ascii) :
  between "1" "8" c = true -> parseIntChar c = Some (code c - 48) /\ 49 <= code c <= 56.
Proof.
  intros H. apply between_spec in H. change (code "1") with 49 in H.
  change (code "8") with 56 in H.
  unfold parseIntChar.
  assert (Hb : between "0" "9" c = true).
  { apply between_spec. change (code "0") with 48. change (code "9") with 57. lia. }
  rewrite Hb. split; [reflexivity | exact H].
Qed.

Lemma squareToIndex_board (c0 c1 : ascii) :
  between "a" "h" c0 = true -> between "1" "8" c1 = true ->
  exists t, squareToIndex c0 c1 = Some t /\ 0 <= t < 64.
Proof.
  intros H0 H1. apply between_spec in H0.
  change (code "a") with 97 in H0. change (code "h") with 104 in H0.
  destruct (parseIntChar_rank c1 H1) as [E R].
  unfold squareToIndex. rewrite E. eexists. split; [reflexivity | lia].
Qed.

Lemma matchTarget_shape (s pre : jsstring) (c0 c1 : ascii) (promo : option ascii) :
  matchTarget s = Some (pre, c0, c1, promo) ->
  between "a" "h" c0 = true /\ between "1" "8" c1 = true.
Proof.
  unfold matchTarget.
  destruct (rev s) as [|x [|y l]]; try discriminate.
  destruct (between "a" "h" y && between "1" "8" x) eqn:E.
  - intros H. injection H as _ <- <- _. now apply andb_true_iff in E.
  - destruct l as [|d1 [|d0 l']]; try discriminate.
    destruct ((y =? "=")%char && is_in (str "NBRQ") x && between "a" "h" d0
              && between "1" "8" d1) eqn:E'; [|discriminate].
    intros H. injection H as _ <- <- _.
    apply andb_true_iff in E' as [E' Hd1]. apply andb_true_iff in E' as [_ Hd0].
    now split.
Qed.

Lemma disambOf_rank (rest : jsstring) (c : ascii) :
  snd (disambOf rest) = Some c -> between "1" "8" c = true.
Proof.
  unfold disambOf. destruct rest as [|a rest]; [discriminate|].
  assert (G : forall x, snd (if between "a" "h" a then Some a else None,
                            match lastChar (a :: rest) with
                            | Some l => if between "1" "8" l then Some l else None
                            | None => None
                            end) = Some x -> between "1" "8" x = true).
  { cbn [snd]. intros x. destruct (lastChar (a :: rest)) as [l|]; [|discriminate].
    destruct (between "1" "8" l) eqn:E; [|discriminate].
    intros H. now injection H as <-. }
  destruct rest as [|b [|b' rest]]; try apply G.
  destruct (between "a" "h" a && between "1" "8" b) eqn:E; [|apply G].
  cbn [snd]. intros H. injection H as <-. now apply andb_true_iff in E.
Qed.

Lemma parseSAN_total (san : jsstring) :
  parseSAN san = Ret None \/
  exists ps, parseSAN san = Ret (Some ps) /\ wfParsed ps.
Proof.
  unfold parseSAN.
  destruct (str_eqb (trim san) (str "O-O") || str_eqb (trim san) (str "O-O-O")).
  - right. eexists. split; [reflexivity|]. left.
    destruct (str_eqb (trim san) (str "O-O")); reflexivity.
  - destruct (matchTarget (trim san)) as [[[[pre c0] c1] promo]|] eqn:M; [|now left].
    right. apply matchTarget_shape in M as [H0 H1].
    destruct (squareToIndex_board c0 c1 H0 H1) as [t [-> Ht]].
    set (pr := match dropFinalX pre with
               | [] => (None, dropFinalX pre)
               | c :: rest' =>
                   if is_in (str "NBRQK") c then (Some c, rest') else (None, dropFinalX pre)
               end).
    destruct pr as [pc rest].
    pose proof (disambOf_rank rest) as HR.
    destruct (disambOf rest) as [dF dR]. cbn [snd] in HR.
    eexists. split; [reflexivity|]. right. split; [exact Ht | exact HR].
Qed.

Lemma range_length (lo : Z) (n : nat) : List.length (range lo n) = n.
Proof.
  revert lo; induction n as [|n IH]; intros lo; simpl; [reflexivity|].
  now rewrite IH.
Qed.

Lemma lookup_in_range {A} (l : list A) (i : Z) :
  0 <= i < Z.of_nat (List.length l) -> exists v, lookup l i = Some v.
Proof.
  intros H. unfold lookup. destruct (Z.ltb_spec i 0); [lia|].
  destruct (nth_error l (Z.to_nat i)) as [v|] eqn:E; [now exists v|].
  apply nth_error_None in E. lia.
Qed.

Lemma tableAt_attacks (deltas : list (Z * Z)) (i : Z) :
  0 <= i < 64 -> exists v, tableAt (map (stepAttacks deltas) squares) i = Ret v.
Proof.
  intros H. unfold tableAt.
  destruct (lookup_in_range (map (stepAttacks deltas) squares) i) as [v ->].
  - rewrite length_map. unfold squares. rewrite range_length. exact H.
  - now exists v.
Qed.

Lemma candidatesOf_total (p : Position) (ps : ParsedSAN) :
  0 <= targetIndex ps < 64 -> exists cands, candidatesOf p ps = Ret cands.
Proof.
  intros H. unfold candidatesOf.
  destruct (pieceIs ps "K").
  { destruct (tableAt_attacks gD (targetIndex ps) H) as [v E].
    unfold kingAttacks. rewrite E. cbn [bind]. eexists; reflexivity. }
  destruct (pieceIs ps "N").
  { destruct (tableAt_attacks kD (targetIndex ps) H) as [v E].
    unfold knightAttacks. rewrite E. cbn [bind]. eexists; reflexivity. }
  destruct (pieceIs ps "R"); [eexists; reflexivity|].
  destruct (pieceIs ps "B"); [eexists; reflexivity|].
  destruct (pieceIs ps "Q"); eexists; reflexivity.
Qed.

Lemma disambMasked_total (cands : Z) (dF dR : option ascii) :
  (forall c, dR = Some c -> between "1" "8" c = true) ->
  exists masked, disambMasked cands dF dR = Ret masked.
Proof.
  intros H. unfold disambMasked. destruct dR as [rc|]; [|eexists; reflexivity].
  destruct (parseIntChar_rank rc (H rc eq_refl)) as [-> _]. eexists; reflexivity.
Qed.

(** C7.  [resolveSAN] is total: for every position and every text it
    returns a move descriptor or [null]; no table is read outside its 64
    entries, no [BigInt()] receives a [NaN], and where the pawn origin
    [toSq - 8] or [toSq + 8] is off the board [bit] is a shift the other
    way, which BigInt defines. *)
Theorem resolveSAN_total (p : Position) (san : jsstring) :
  exists r : option Move, resolveSAN p san = Ret r.
Proof.
  unfold resolveSAN.
  destruct (parseSAN_total san) as [-> | [ps [-> W]]]; cbn [bind].
  - now exists None.
  - destruct (truthy (parsedCastle ps)) eqn:C; [eexists; reflexivity|].
    destruct W as [W | [Ht Hr]]; [congruence|].
    destruct (candidatesOf_total p ps Ht) as [cands ->]. cbn [bind].
    destruct (disambMasked_total cands (disambFile ps) (disambRank ps) Hr) as [masked Hm].
    rewrite (originOf_members _ _ _ _ Hm). cbn [bind].
    match goal with |- context [if ?b then _ else _] => destruct b end;
      eexists; reflexivity.
Qed.

(** ** The Zobrist key *)

Lemma is64_spec (v : Z) : is64 v = true <-> 0 <= v < 2 ^ 64.
Proof.
  unfold is64. rewrite andb_true_iff, Z.leb_le, Z.ltb_lt. tauto.
Qed.

Lemma lxor_64 (a b : Z) :
  0 <= a < 2 ^ 64 -> 0 <= b < 2 ^ 64 -> 0 <= Z.lxor a b < 2 ^ 64.
Proof.
  intros Ha Hb.
  assert (Hn : 0 <= Z.lxor a b) by (apply Z.lxor_nonneg; lia).
  split; [exact Hn|].
  destruct (Z.eq_dec (Z.lxor a b) 0) as [->|Hz]; [lia|].
  apply Z.log2_lt_pow2; [lia|].
  pose proof (Z.log2_lxor a b ltac:(lia) ltac:(lia)) as Hl.
  assert (La : Z.log2 a < 64).
  { destruct (Z.eq_dec a 0) as [->|]; [simpl; lia|]. apply Z.log2_lt_pow2; lia. }
  assert (Lb : Z.log2 b < 64).
  { destruct (Z.eq_dec b 0) as [->|]; [simpl; lia|]. apply Z.log2_lt_pow2; lia. }
  lia.
Qed.

Lemma zobrist_ok : tablesOk zobrist = true.
Proof. vm_compute. reflexivity. Qed.

Lemma lookup_nth (l : list Z) (i : Z) :
  0 <= i < Z.of_nat (List.length l) -> lookup l i = Some (nth (Z.to_nat i) l 0).
Proof.
  intros H. unfold lookup. destruct (Z.ltb_spec i 0); [lia|].
  apply nth_error_nth'. lia.
Qed.

Lemma forallb_nth (f : Z -> bool) (l : list Z) (n : nat) :
  forallb f l = true -> (n < List.length l)%nat -> f (nth n l 0) = true.
Proof.
  intros H Hn. rewrite forallb_forall in H. apply H. now apply nth_In.
Qed.

Section Tables.

Variable t : ZobristTables.
Hypothesis Hok : tablesOk t = true.

Lemma tables_facts :
  List.length (ZOBRIST_PIECES t) = 64%nat /\
  forallb (fun row => Nat.eqb (List.length row) 12 && forallb is64 row)
    (ZOBRIST_PIECES t) = true /\
  is64 (ZOBRIST_SIDE t) = true /\
  List.length (ZOBRIST_CASTLE t) = 4%nat /\ forallb is64 (ZOBRIST_CASTLE t) = true /\
  List.length (ZOBRIST_EP t) = 8%nat /\ forallb is64 (ZOBRIST_EP t) = true.
Proof.
  unfold tablesOk in Hok. rewrite !andb_true_iff, !Nat.eqb_eq in Hok. tauto.
Qed.

Lemma piece_key (sq pt : Z) :
  0 <= sq < 64 -> 0 <= pt < 12 ->
  exists v,
    (match lookup (ZOBRIST_PIECES t) sq with
     | Some row => lookup row pt
     | None => None
     end) = Some v /\ 0 <= v < 2 ^ 64.
Proof.
  intros Hsq Hpt. destruct tables_facts as (L & R & _).
  destruct (nth_error (ZOBRIST_PIECES t) (Z.to_nat sq)) as [row|] eqn:E.
  - unfold lookup at 1. destruct (Z.ltb_spec sq 0); [lia|]. rewrite E.
    rewrite forallb_forall in R. specialize (R row (nth_error_In _ _ E)).
    apply andb_true_iff in R as [Rl Rv]. apply Nat.eqb_eq in Rl.
    rewrite lookup_nth by lia. eexists. split; [reflexivity|].
    apply is64_spec. apply forallb_nth; [exact Rv | lia].
  - apply nth_error_None in E. lia.
Qed.

Lemma pieceTypeAt_range (p : Position) (b : Z) (sets : list (Kind * Z * Z)) (pt : Z) :
  Forall (fun s => 0 <= snd (fst s) < 12 /\ 0 <= snd s < 12) sets ->
  pieceTypeAt p b sets = Some pt -> 0 <= pt < 12.
Proof.
  induction 1 as [|[[k w] bl] sets [Hw Hb] _ IH]; cbn [pieceTypeAt]; [discriminate|].
  cbn [fst snd] in Hw, Hb.
  destruct (nonzero (Z.land (bb k White p) b)); [intros E; injection E as <-; exact Hw|].
  destruct (nonzero (Z.land (bb k Black p) b)); [intros E; injection E as <-; exact Hb|].
  exact IH.
Qed.

Lemma pieceSets_range :
  Forall (fun s : Kind * Z * Z => 0 <= snd (fst s) < 12 /\ 0 <= snd s < 12) pieceSets.
Proof. repeat constructor; simpl; lia. Qed.

Lemma squareKey_ret (p : Position) (key sq : Z) :
  0 <= sq < 64 -> 0 <= key < 2 ^ 64 ->
  exists key', squareKey t p (Ret key) sq = Ret key' /\ 0 <= key' < 2 ^ 64.
Proof.
  intros Hsq Hk. unfold squareKey. cbn [bind].
  destruct (pieceTypeAt p (bit sq) pieceSets) as [pt|] eqn:E.
  - apply (pieceTypeAt_range _ _ _ _ pieceSets_range) in E.
    destruct (piece_key sq pt Hsq E) as [v [-> Hv]]. cbn [xorKey].
    eexists. split; [reflexivity | now apply lxor_64].
  - now exists key.
Qed.

Lemma squaresKey_ret (p : Position) (sqs : list Z) (key : Z) :
  Forall (fun sq => 0 <= sq < 64) sqs -> 0 <= key < 2 ^ 64 ->
  exists key', fold_left (squareKey t p) sqs (Ret key) = Ret key' /\ 0 <= key' < 2 ^ 64.
Proof.
  intros Hs. revert key. induction Hs as [|sq sqs Hsq _ IH]; intros key Hk;
    cbn [fold_left].
  - now exists key.
  - destruct (squareKey_ret p key sq Hsq Hk) as [k' [-> Hk']]. now apply IH.
Qed.

(** The piece part of the key reads the position through its twelve sets. *)
Lemma pieceTypeAt_placement (p q : Position) (b : Z) (sets : list (Kind * Z * Z)) :
  (forall k c, bb k c p = bb k c q) ->
  pieceTypeAt p b sets = pieceTypeAt q b sets.
Proof.
  intros H. induction sets as [|[[k w] bl] sets IH]; cbn [pieceTypeAt]; [reflexivity|].
  now rewrite !H, IH.
Qed.

Lemma squaresKey_placement (p q : Position) (sqs : list Z) (key : Outcome Z) :
  (forall k c, bb k c p = bb k c q) ->
  fold_left (squareKey t p) sqs key = fold_left (squareKey t q) sqs key.
Proof.
  intros H. revert key. induction sqs as [|sq sqs IH]; intros key; cbn [fold_left];
    [reflexivity|].
  rewrite IH. unfold squareKey. now rewrite (pieceTypeAt_placement p q _ _ H).
Qed.

Lemma rightKey_valid (c : ascii) :
  is_in (str "KQkq") c = true ->
  (match castlingIndex c with
   | Some i => lookup (ZOBRIST_CASTLE t) i
   | None => None
   end) = Some (rightKey t c) /\ 0 <= rightKey t c < 2 ^ 64.
Proof.
  intros H. destruct tables_facts as (_ & _ & _ & L & V & _).
  unfold rightKey, castlingIndex. unfold is_in, str in H. simpl in H.
  assert (G : forall i, 0 <= i < 4 ->
                lookup (ZOBRIST_CASTLE t) i = Some (nth (Z.to_nat i) (ZOBRIST_CASTLE t) 0)
                /\ 0 <= nth (Z.to_nat i) (ZOBRIST_CASTLE t) 0 < 2 ^ 64).
  { intros i Hi. split; [apply lookup_nth; lia|].
    apply is64_spec. apply forallb_nth; [exact V | lia]. }
  destruct (c =? "K")%char; [apply G; lia|].
  destruct (c =? "Q")%char; [apply G; lia|].
  destruct (c =? "k")%char; [apply G; lia|].
  destruct (c =? "q")%char; [apply G; lia|].
  discriminate.
Qed.

Lemma rightsKey_cons (c : ascii) (cs : jsstring) :
  rightsKey t (c :: cs) = Z.lxor (rightKey t c) (rightsKey t cs).
Proof. reflexivity. Qed.

Lemma rightsKey_64 (cs : jsstring) :
  Forall (fun c => is_in (str "KQkq") c = true) cs -> 0 <= rightsKey t cs < 2 ^ 64.
Proof.
  induction 1 as [|c cs Hc _ IH]; [cbn; lia|]. rewrite rightsKey_cons.
  apply lxor_64; [apply (rightKey_valid c Hc) | exact IH].
Qed.

Lemma castleKeys_ret (cs : jsstring) (key : Z) :
  Forall (fun c => is_in (str "KQkq") c = true) cs ->
  fold_left (castleKey t) cs (Ret key) = Ret (Z.lxor key (rightsKey t cs)).
Proof.
  intros H. revert key. induction H as [|c cs Hc _ IH]; intros key; cbn [fold_left].
  - cbn. now rewrite Z.lxor_0_r.
  - unfold castleKey at 2. cbn [bind].
    destruct (rightKey_valid c Hc) as [-> _]. cbn [xorKey].
    rewrite IH, rightsKey_cons. now rewrite Z.lxor_assoc.
Qed.

Lemma rightsKey_perm (cs cs' : jsstring) :
  Permutation cs cs' -> rightsKey t cs = rightsKey t cs'.
Proof.
  induction 1 as [| c l l' _ IH | a b l | l l' l'' _ IH1 _ IH2];
    rewrite ?rightsKey_cons.
  - reflexivity.
  - now rewrite IH.
  - rewrite <- !Z.lxor_assoc. now rewrite (Z.lxor_comm (rightKey t b)).
  - congruence.
Qed.

Lemma epKey_ret (e key : Z) :
  0 <= key < 2 ^ 64 ->
  exists key',
    (if 0 <=? e then xorKey key (lookup (ZOBRIST_EP t) (Z.rem e 8)) else Ret key)
    = Ret key' /\ 0 <= key' < 2 ^ 64.
Proof.
  intros Hk. destruct tables_facts as (_ & _ & _ & _ & _ & L & V).
  destruct (Z.leb_spec 0 e); [|now exists key].
  assert (Hr : 0 <= Z.rem e 8 < 8) by (apply Z.rem_bound_pos; lia).
  rewrite lookup_nth by lia. cbn [xorKey].
  eexists. split; [reflexivity|]. apply lxor_64; [exact Hk|].
  apply is64_spec. apply forallb_nth; [exact V | lia].
Qed.

Lemma squares_on_board : Forall (fun sq => 0 <= sq < 64) squares.
Proof. vm_compute. repeat constructor; discriminate. Qed.

(** The key of a position with a valid castling field, in closed form. *)
Lemma zobristKeyWith_ret (p : Position) :
  Forall (fun c => is_in (str "KQkq") c = true) (castling p) ->
  exists pk key,
    fold_left (squareKey t p) squares (Ret 0) = Ret pk /\
    zobristKeyWith t p = Ret key /\ 0 <= key < 2 ^ 64 /\
    (if 0 <=? enPassant p
     then xorKey (Z.lxor (match sideToMove p with
                          | Black => Z.lxor pk (ZOBRIST_SIDE t)
                          | White => pk
                          end) (rightsKey t (castling p)))
            (lookup (ZOBRIST_EP t) (Z.rem (enPassant p) 8))
     else Ret (Z.lxor (match sideToMove p with
                       | Black => Z.lxor pk (ZOBRIST_SIDE t)
                       | White => pk
                       end) (rightsKey t (castling p)))) = Ret key.
Proof.
  intros Hc. unfold zobristKeyWith.
  destruct (squaresKey_ret p squares 0 squares_on_board ltac:(lia)) as [pk [E Hpk]].
  exists pk. rewrite E. cbn [bind]. rewrite castleKeys_ret by exact Hc. cbn [bind].
  destruct tables_facts as (_ & _ & S & _).
  apply is64_spec in S.
  set (k1 := match sideToMove p with
             | Black => Z.lxor pk (ZOBRIST_SIDE t)
             | White => pk
             end).
  assert (H1 : 0 <= k1 < 2 ^ 64).
  { unfold k1. destruct (sideToMove p); [exact Hpk | now apply lxor_64]. }
  assert (H2 : 0 <= Z.lxor k1 (rightsKey t (castling p)) < 2 ^ 64).
  { apply lxor_64; [exact H1 | now apply rightsKey_64]. }
  destruct (epKey_ret (enPassant p) _ H2) as [key [Ek Hk]].
  exists key. rewrite Ek. repeat split; try reflexivity; apply Hk.
Qed.

End Tables.

Lemma samePlacement_bb (p q : Position) :
  samePlacement p q -> forall k c, bb k c p = bb k c q.
Proof.
  intros (H1 & H2 & H3 & H4 & H5 & H6) k c. unfold bb.
  destruct k; simpl; congruence.
Qed.

(** C6.  Two positions with the same twelve piece sets, the same side to
    move, the same en-passant square and castling fields that hold the same
    set of rights (letters of "KQkq", each at most once, in any order) have
    the same Zobrist key, and it is a 64-bit value.  The key is a function
    of the position alone, so how the position was reached plays no part. *)
Theorem zobrist_key_of_equal_positions (p q : Position) :
  samePlacement p q ->
  sideToMove p = sideToMove q ->
  enPassant p = enPassant q ->
  validRights (castling p) -> validRights (castling q) ->
  (forall c, In c (castling p) <-> In c (castling q)) ->
  exists key,
    getZobristKey p = Ret key /\ getZobristKey q = Ret key /\ 0 <= key < 2 ^ 64.
Proof.
  intros Hpl Hs He [Np Vp] [Nq Vq] Hset. unfold getZobristKey.
  destruct (zobristKeyWith_ret zobrist zobrist_ok p Vp) as (pk & key & Ep & Kp & Hk & Fp).
  destruct (zobristKeyWith_ret zobrist zobrist_ok q Vq) as (qk & key' & Eq & Kq & _ & Fq).
  exists key. split; [exact Kp|]. split; [|exact Hk].
  rewrite Kq. rewrite <- Fp, <- Fq.
  rewrite (squaresKey_placement zobrist p q squares (Ret 0) (samePlacement_bb p q Hpl)) in Ep.
  assert (pk = qk) by congruence. subst qk.
  rewrite <- Hs, <- He.
  now rewrite (rightsKey_perm zobrist (castling q) (castling p))
    by (apply NoDup_Permutation; [exact Nq | exact Np | intros c; symmetry; apply Hset]).
Qed.

(** The position after 1. e4 from move replay and the position imported
    from a FEN that lists the rights as "qkQK". *)
Lemma zobrist_key_of_equal_positions_witness :
  exists key,
    getZobristKey (replay [plainMove 12 28]) = Ret key /\
    getZobristKey
      (loadFromFEN (str "rnbqkbnr/pppppppp/8/8/4P3/8/PPPP1PPP/RNBQKBNR b qkQK e3 7 9") reset)
    = Ret key /\
    0 <= key < 2 ^ 64.
Proof.
  apply (zobrist_key_of_equal_positions
           (replay [plainMove 12 28])
           (loadFromFEN
              (str "rnbqkbnr/pppppppp/8/8/4P3/8/PPPP1PPP/RNBQKBNR b qkQK e3 7 9") reset)).
  - vm_compute. repeat split.
  - vm_compute. reflexivity.
  - vm_compute. reflexivity.
  - split.
    + vm_compute. repeat constructor; simpl; intuition discriminate.
    + vm_compute. repeat constructor.
  - split.
    + vm_compute. repeat constructor; simpl; intuition discriminate.
    + vm_compute. repeat constructor.
  - intros c. vm_compute. tauto.
Defined.

(** ** FEN export, rank by rank *)

Lemma range_forallb (f : Z -> bool) (lo : Z) (n : nat) (x : Z) :
  forallb f (range lo n) = true -> lo <= x < lo + Z.of_nat n -> f x = true.
Proof.
  revert lo. induction n as [|n IH]; intros lo H Hx; [lia|].
  cbn [range forallb] in H. apply andb_true_iff in H as [H0 H].
  destruct (Z.eq_dec x lo) as [->|]; [exact H0|].
  apply (IH (lo + 1)); [exact H | lia].
Qed.

(** An empty-square count 1..8 prints as one digit that [loadFromFEN]
    reads back. *)
Lemma numToString_count (e : Z) :
  1 <= e <= 8 ->
  exists d, numToString e = [d] /\ between "1" "8" d = true /\ digitValue d = e
            /\ isSpace d = false /\ Ascii.eqb d "/" = false.
Proof.
  intros H.
  pose (ok := fun e => match numToString e with
                       | [d] => between "1" "8" d && (digitValue d =? e)
                                && negb (isSpace d) && negb (Ascii.eqb d "/")
                       | _ => false
                       end).
  assert (C : ok e = true).
  { apply (range_forallb ok 1 8); [vm_compute; reflexivity | lia]. }
  unfold ok in C. destruct (numToString e) as [|d [|]]; try discriminate.
  exists d. rewrite !andb_true_iff, !negb_true_iff, Z.eqb_eq in C. tauto.
Qed.

Lemma fenSquares_encCells (p : Position) (r : Z) (fs : list Z) (e : Z) (fen : jsstring) :
  (let (e', fen') := fold_left (fenSquare p r) fs (e, fen) in
   fen' ++ (if nonzero e' then numToString e' else []))
  = fen ++ encCells e (cellsOf p r fs).
Proof.
  revert e fen. induction fs as [|f fs IH]; intros e fen; cbn [fold_left cellsOf map encCells].
  - reflexivity.
  - unfold fenSquare at 2. fold (cellsOf p r fs).
    destruct (pieceAt p (r * 8 + f)) as [c|]; cbn [encCells].
    + rewrite IH. rewrite <- !app_assoc.
      destruct (nonzero e); [rewrite <- app_assoc|]; reflexivity.
    + apply IH.
Qed.

Lemma fenRank_rankText (p : Position) (fen : jsstring) (r : Z) :
  fenRank p fen r = fen ++ rankText p r ++ (if 0 <? r then str "/" else []).
Proof.
  unfold fenRank, rankText.
  pose proof (fenSquares_encCells p r (range 0 8) 0 fen) as H.
  destruct (fold_left (fenSquare p r) (range 0 8) (0, fen)) as [e' fen'].
  assert (E : (if nonzero e' then fen' ++ numToString e' else fen')
              = fen ++ encCells 0 (cellsOf p r (range 0 8))).
  { rewrite <- H. destruct (nonzero e'); [reflexivity | now rewrite app_nil_r]. }
  rewrite E. destruct (0 <? r).
  - now rewrite app_assoc.
  - now rewrite app_nil_r.
Qed.

Lemma placement_ranks (p : Position) :
  fold_left (fenRank p) (rev (range 0 8)) [] = placementText p.
Proof.
  cbn [range rev app fold_left]. rewrite !fenRank_rankText.
  cbn [Z.ltb Z.compare Z.add Pos.add Pos.succ]. unfold placementText, str.
  cbn [list_ascii_of_string]. rewrite app_nil_r.
  repeat (rewrite <- app_assoc; cbn [app]). reflexivity.
Qed.

(** ** FEN import, rank by rank *)

Lemma pieceLetter_cases (c : ascii) :
  isPieceLetter c = true -> exists k col, c = letterOf k col.
Proof.
  unfold isPieceLetter, is_in, str. cbn [list_ascii_of_string existsb].
  rewrite !orb_true_iff, !Ascii.eqb_eq.
  intros [H|[H|[H|[H|[H|[H|[H|[H|[H|[H|[H|[H|H]]]]]]]]]]]]; try discriminate; subst c.
  - now exists Pawn, White.
  - now exists Knight, White.
  - now exists Bishop, White.
  - now exists Rook, White.
  - now exists Queen, White.
  - now exists King, White.
  - now exists Pawn, Black.
  - now exists Knight, Black.
  - now exists Bishop, Black.
  - now exists Rook, Black.
  - now exists Queen, Black.
  - now exists King, Black.
Qed.

Lemma letterOf_facts (k : Kind) (col : Color) :
  isPieceLetter (letterOf k col) = true /\
  between "1" "8" (letterOf k col) = false /\
  isSpace (letterOf k col) = false /\
  Ascii.eqb (letterOf k col) "/" = false.
Proof. destruct k, col; repeat split. Qed.

Lemma check_letter (p : Position) (b : Z) (k : Kind) (c : ascii) :
  check p b k (letterOf k White) (letterOf k Black) = Some c ->
  exists col, c = letterOf k col.
Proof.
  unfold check.
  destruct (nonzero (Z.land (bb k White p) b)); [intros H; injection H as <-; now exists White|].
  destruct (nonzero (Z.land (bb k Black p) b)); [intros H; injection H as <-; now exists Black|].
  discriminate.
Qed.

Lemma orElse_some (a b : option ascii) (c : ascii) :
  orElse a b = Some c -> a = Some c \/ b = Some c.
Proof. destruct a; simpl; auto. Qed.

Lemma pieceAt_letter (p : Position) (sq : Z) (c : ascii) :
  pieceAt p sq = Some c -> exists k col, c = letterOf k col.
Proof.
  unfold pieceAt. intros H.
  apply orElse_some in H as [H|H];
    [apply (check_letter p (bit sq) Pawn c) in H; destruct H as [col ->]; eauto|].
  apply orElse_some in H as [H|H];
    [apply (check_letter p (bit sq) Knight c) in H; destruct H as [col ->]; eauto|].
  apply orElse_some in H as [H|H];
    [apply (check_letter p (bit sq) Bishop c) in H; destruct H as [col ->]; eauto|].
  apply orElse_some in H as [H|H];
    [apply (check_letter p (bit sq) Rook c) in H; destruct H as [col ->]; eauto|].
  apply orElse_some in H as [H|H];
    [apply (check_letter p (bit sq) Queen c) in H; destruct H as [col ->]; eauto|].
  apply (check_letter p (bit sq) King c) in H. destruct H as [col ->]. eauto.
Qed.

Lemma cellsOf_letters (p : Position) (r : Z) (fs : list Z) : lettersOnly (cellsOf p r fs).
Proof.
  unfold lettersOnly, cellsOf. apply Forall_forall. intros o Ho.
  apply in_map_iff in Ho as [f [<- _]]. intros c. apply pieceAt_letter.
Qed.

Lemma cellsOf_length (p : Position) (r : Z) (fs : list Z) :
  List.length (cellsOf p r fs) = List.length fs.
Proof. unfold cellsOf. apply length_map. Qed.

Lemma loadRank_encCells (r : Z) (cs : list (option ascii)) (e f : Z) (P : Position) :
  lettersOnly cs ->
  0 <= e -> 0 <= f -> f + e + Z.of_nat (List.length cs) = 8 ->
  loadRank r (encCells e cs) f P = placeCells r (f + e) cs P.
Proof.
  intros L. revert e f P.
  induction L as [|o cs Ho _ IH]; intros e f P He Hf Hlen; cbn [encCells placeCells].
  - cbn [List.length] in Hlen. unfold nonzero. destruct (Z.eqb_spec e 0); cbn [negb].
    + reflexivity.
    + destruct (numToString_count e ltac:(lia)) as (d & -> & Hd & Hv & _).
      cbn [loadRank]. destruct (Z.leb_spec 8 f); [lia|]. rewrite Hd. reflexivity.
  - cbn [List.length] in Hlen. destruct o as [c|].
    + destruct (Ho c eq_refl) as (k & col & ->).
      destruct (letterOf_facts k col) as (_ & Hnd & _ & _).
      unfold nonzero. destruct (Z.eqb_spec e 0) as [->|Hne]; cbn [negb app].
      * cbn [loadRank]. destruct (Z.leb_spec 8 f); [lia|]. rewrite Hnd.
        rewrite Z.add_0_r. rewrite (IH 0 (f + 1) _) by lia.
        now rewrite Z.add_0_r.
      * destruct (numToString_count e ltac:(lia)) as (d & -> & Hd & Hv & _).
        cbn [loadRank app]. destruct (Z.leb_spec 8 f); [lia|]. rewrite Hd, Hv.
        destruct (Z.leb_spec 8 (f + e)); [lia|]. rewrite Hnd.
        rewrite (IH 0 (f + e + 1) _) by lia. now rewrite Z.add_0_r.
    + rewrite (IH (e + 1) f P) by lia. f_equal. lia.
Qed.

(** The characters of a rank text: no blank, no slash, at least one. *)
Lemma encCells_chars (cs : list (option ascii)) (e : Z) :
  lettersOnly cs ->
  0 <= e -> e + Z.of_nat (List.length cs) <= 8 ->
  Forall (fun c => isSpace c = false /\ Ascii.eqb c "/" = false) (encCells e cs).
Proof.
  intros L. revert e. induction L as [|o cs Ho _ IH]; intros e He Hlen; cbn [encCells].
  - cbn [List.length] in Hlen. unfold nonzero. destruct (Z.eqb_spec e 0); cbn [negb].
    + constructor.
    + destruct (numToString_count e ltac:(lia)) as (d & -> & _ & _ & Hs & Hsl).
      repeat constructor; assumption.
  - cbn [List.length] in Hlen. destruct o as [c|].
    + destruct (Ho c eq_refl) as (k & col & ->).
      destruct (letterOf_facts k col) as (_ & _ & Hs & Hsl).
      apply Forall_app. split.
      * unfold nonzero. destruct (Z.eqb_spec e 0); cbn [negb]; [constructor|].
        destruct (numToString_count e ltac:(lia)) as (d & -> & _ & _ & Hs' & Hsl').
        repeat constructor; assumption.
      * constructor; [now split|]. apply IH; lia.
    + apply IH; lia.
Qed.

Lemma encCells_nonempty (cs : list (option ascii)) (e : Z) :
  0 <= e -> 1 <= e + Z.of_nat (List.length cs) <= 8 -> encCells e cs <> [].
Proof.
  revert e. induction cs as [|o cs IH]; intros e He Hlen; cbn [encCells].
  - cbn [List.length] in Hlen. unfold nonzero. destruct (Z.eqb_spec e 0); cbn [negb]; [lia|].
    destruct (numToString_count e ltac:(lia)) as (d & -> & _). discriminate.
  - cbn [List.length] in Hlen. destruct o as [c|].
    + intros H. apply app_eq_nil in H as [_ H]. discriminate.
    + apply IH; lia.
Qed.

Lemma rankText_chars (p : Position) (r : Z) :
  Forall (fun c => isSpace c = false /\ Ascii.eqb c "/" = false) (rankText p r)
  /\ rankText p r <> [].
Proof.
  unfold rankText. split.
  - apply encCells_chars; [apply cellsOf_letters | lia |].
    rewrite cellsOf_length, range_length. lia.
  - apply encCells_nonempty; [lia|]. rewrite cellsOf_length, range_length. lia.
Qed.

Lemma loadRank_rankText (p P : Position) (r : Z) :
  loadRank r (rankText p r) 0 P = placeCells r 0 (cellsOf p r (range 0 8)) P.
Proof.
  unfold rankText. rewrite loadRank_encCells.
  - reflexivity.
  - apply cellsOf_letters.
  - lia.
  - lia.
  - rewrite cellsOf_length, range_length. lia.
Qed.

(** ** The board after the import *)

Lemma placeChar_letter (k : Kind) (col : Color) (b : Z) (P : Position) :
  placeChar (letterOf k col) b P = setBB k col (Z.lor (bb k col P) b) P.
Proof. destruct k, col; reflexivity. Qed.

Lemma letterOf_inj (k k' : Kind) (col col' : Color) :
  Ascii.eqb (letterOf k col) (letterOf k' col') = true -> k = k' /\ col = col'.
Proof. destruct k, col, k', col'; cbn; intros H; try discriminate; now split. Qed.

Lemma bb_setBB_other (k k' : Kind) (c c' : Color) (v : Z) (P : Position) :
  ~ (k = k' /\ c = c') -> bb k c (setBB k' c' v P) = bb k c P.
Proof.
  intros H. destruct k, k', c, c'; try reflexivity; exfalso; apply H; now split.
Qed.

Lemma loadedBelow_clear (p X : Position) : loadedBelow p (clearBoards X) 0.
Proof.
  intros k col n Hn. destruct (Z.ltb_spec n 0); [lia|].
  destruct k, col; cbn; apply Z.bits_0.
Qed.

Lemma loadedBelow_empty (p P : Position) (s : Z) :
  pieceAt p s = None -> loadedBelow p P s -> loadedBelow p P (s + 1).
Proof.
  intros E L k col n Hn. rewrite (L k col n Hn).
  destruct (Z.eq_dec n s) as [->|Hne].
  - rewrite E. cbn. now rewrite !andb_false_r.
  - f_equal. destruct (Z.ltb_spec n s), (Z.ltb_spec n (s + 1)); try reflexivity; lia.
Qed.

Lemma loadedBelow_piece (p P : Position) (s : Z) (k : Kind) (col : Color) :
  0 <= s ->
  pieceAt p s = Some (letterOf k col) ->
  loadedBelow p P s ->
  loadedBelow p (placeChar (letterOf k col) (bit s) P) (s + 1).
Proof.
  intros Hs E L k' col' n Hn. rewrite placeChar_letter.
  destruct (Ascii.eqb (letterOf k col) (letterOf k' col')) eqn:Q.
  - apply letterOf_inj in Q as [<- <-].
    rewrite bb_setBB_same, Z.lor_spec, (L k col n Hn), bit_testbit by exact Hs.
    destruct (Z.eqb_spec n s) as [->|Hne].
    + rewrite E. cbn [option_ascii_eqb]. rewrite Ascii.eqb_refl.
      destruct (Z.ltb_spec s (s + 1)); [|lia]. now rewrite orb_true_r.
    + rewrite orb_false_r. f_equal.
      destruct (Z.ltb_spec n s), (Z.ltb_spec n (s + 1)); try reflexivity; lia.
  - rewrite bb_setBB_other.
    + rewrite (L k' col' n Hn). destruct (Z.eq_dec n s) as [->|Hne].
      * rewrite E. cbn [option_ascii_eqb]. rewrite Q. now rewrite !andb_false_r.
      * f_equal. destruct (Z.ltb_spec n s), (Z.ltb_spec n (s + 1)); try reflexivity; lia.
    + intros [-> ->]. rewrite Ascii.eqb_refl in Q. discriminate.
Qed.

Lemma loadedBelow_cells (p : Position) (r : Z) (n : nat) (f : Z) (P : Position) :
  0 <= r * 8 + f ->
  loadedBelow p P (r * 8 + f) ->
  loadedBelow p (placeCells r f (cellsOf p r (range f n)) P) (r * 8 + f + Z.of_nat n).
Proof.
  revert f P. induction n as [|n IH]; intros f P Hs L.
  - cbn [range cellsOf map placeCells]. now rewrite Z.add_0_r.
  - cbn [range cellsOf map placeCells]. fold (cellsOf p r (range (f + 1) n)).
    replace (r * 8 + f + Z.of_nat (S n)) with (r * 8 + (f + 1) + Z.of_nat n) by lia.
    destruct (pieceAt p (r * 8 + f)) as [c|] eqn:E.
    + destruct (pieceAt_letter p _ c E) as (k & col & ->).
      apply IH; [lia|]. replace (r * 8 + (f + 1)) with (r * 8 + f + 1) by lia.
      now apply loadedBelow_piece.
    + apply IH; [lia|]. replace (r * 8 + (f + 1)) with (r * 8 + f + 1) by lia.
      now apply loadedBelow_empty.
Qed.

Lemma loadedBelow_rank (p P : Position) (r : Z) :
  0 <= r ->
  loadedBelow p P (r * 8) ->
  loadedBelow p (loadRank r (rankText p r) 0 P) ((r + 1) * 8).
Proof.
  intros Hr L. rewrite loadRank_rankText.
  replace ((r + 1) * 8) with (r * 8 + 0 + Z.of_nat 8) by lia.
  apply loadedBelow_cells; [lia|]. now rewrite Z.add_0_r.
Qed.

(** The whole board: the loop over the ranks of [loadFromFEN] on the ranks
    [toFEN] wrote. *)
Lemma loadedBelow_board (p X : Position) :
  loadedBelow p
    (loadRanks
       [rankText p 7; rankText p 6; rankText p 5; rankText p 4;
        rankText p 3; rankText p 2; rankText p 1; rankText p 0]
       (clearBoards X))
    64.
Proof.
  unfold loadRanks.
  cbn [range fold_left Z.add Pos.add Pos.succ Z.sub Z.opp Z.pos_sub Z.to_nat Pos.to_nat
       Pos.iter_op Init.Nat.add nth Z.succ_double Z.pred_double Z.double Pos.pred_double].
  apply (loadedBelow_rank p _ 7 ltac:(lia)).
  apply (loadedBelow_rank p _ 6 ltac:(lia)).
  apply (loadedBelow_rank p _ 5 ltac:(lia)).
  apply (loadedBelow_rank p _ 4 ltac:(lia)).
  apply (loadedBelow_rank p _ 3 ltac:(lia)).
  apply (loadedBelow_rank p _ 2 ltac:(lia)).
  apply (loadedBelow_rank p _ 1 ltac:(lia)).
  apply (loadedBelow_rank p _ 0 ltac:(lia)).
  apply loadedBelow_clear.
Qed.

(** The piece type the key mixes in for a square is the one of the letter
    [toFEN] prints for it. *)
Lemma pieceTypeAt_loaded (p Q : Position) (sq : Z) :
  loadedBelow p Q 64 -> 0 <= sq < 64 ->
  pieceTypeAt Q (bit sq) pieceSets = pieceTypeAt p (bit sq) pieceSets.
Proof.
  intros L Hsq.
  assert (T : forall k col,
             nonzero (Z.land (bb k col Q) (bit sq))
             = option_ascii_eqb (pieceAt p sq) (Some (letterOf k col))).
  { intros k col. rewrite nonzero_land_bit by lia. rewrite (L k col sq) by lia.
    destruct (Z.ltb_spec sq 64); [reflexivity | lia]. }
  unfold pieceSets. cbn [pieceTypeAt]. rewrite !T.
  unfold pieceAt, check.
  destruct (nonzero (Z.land (bb Pawn White p) (bit sq))); [reflexivity|].
  destruct (nonzero (Z.land (bb Pawn Black p) (bit sq))); [reflexivity|].
  destruct (nonzero (Z.land (bb Knight White p) (bit sq))); [reflexivity|].
  destruct (nonzero (Z.land (bb Knight Black p) (bit sq))); [reflexivity|].
  destruct (nonzero (Z.land (bb Bishop White p) (bit sq))); [reflexivity|].
  destruct (nonzero (Z.land (bb Bishop Black p) (bit sq))); [reflexivity|].
  destruct (nonzero (Z.land (bb Rook White p) (bit sq))); [reflexivity|].
  destruct (nonzero (Z.land (bb Rook Black p) (bit sq))); [reflexivity|].
  destruct (nonzero (Z.land (bb Queen White p) (bit sq))); [reflexivity|].
  destruct (nonzero (Z.land (bb Queen Black p) (bit sq))); [reflexivity|].
  destruct (nonzero (Z.land (bb King White p) (bit sq))); [reflexivity|].
  destruct (nonzero (Z.land (bb King Black p) (bit sq))); reflexivity.
Qed.

(** ** The fields of a FEN *)

Lemma splitWs_last (t : jsstring) :
  Forall (fun c => isSpace c = false) t -> splitWs t = [t].
Proof.
  induction 1 as [|c t Hc _ IH]; cbn [splitWs]; [reflexivity|].
  now rewrite Hc, IH.
Qed.

Lemma splitWs_token (t : jsstring) (c : ascii) (rest : jsstring) :
  Forall (fun c => isSpace c = false) t -> isSpace c = false ->
  splitWs (t ++ " "%char :: c :: rest) = t :: splitWs (c :: rest).
Proof.
  intros Ht Hc. induction Ht as [|x t Hx _ IH].
  - cbn [app]. change (splitWs (" "%char :: c :: rest))
      with (if isSpace " " then
              if isSpace c then splitWs (c :: rest) else [] :: splitWs (c :: rest)
            else match splitWs (c :: rest) with
                 | t :: ts => (" "%char :: t) :: ts
                 | [] => [[" "%char]]
                 end).
    rewrite Hc. reflexivity.
  - cbn [app]. change (splitWs (x :: t ++ " "%char :: c :: rest))
      with (if isSpace x then
              match t ++ " "%char :: c :: rest with
              | c2 :: _ =>
                  if isSpace c2 then splitWs (t ++ " "%char :: c :: rest)
                  else [] :: splitWs (t ++ " "%char :: c :: rest)
              | [] => [] :: splitWs (t ++ " "%char :: c :: rest)
              end
            else match splitWs (t ++ " "%char :: c :: rest) with
                 | t0 :: ts => (x :: t0) :: ts
                 | [] => [[x]]
                 end).
    now rewrite Hx, IH.
Qed.

Lemma joinSp_cons (t : jsstring) (ts : list jsstring) :
  ts <> [] -> joinSp (t :: ts) = t ++ " "%char :: joinSp ts.
Proof. destruct ts; [congruence | reflexivity]. Qed.

Lemma joinSp_head (ts : list jsstring) :
  ts <> [] -> Forall tokenOk ts ->
  exists c rest, joinSp ts = c :: rest /\ isSpace c = false.
Proof.
  intros Hne H. destruct H as [|t ts [Ht Hs] _]; [congruence|].
  destruct t as [|c t]; [congruence|]. inversion Hs; subst.
  destruct ts as [|t' ts].
  - now exists c, t.
  - rewrite joinSp_cons by discriminate. now exists c, (t ++ " "%char :: joinSp (t' :: ts)).
Qed.

Lemma splitWs_joinSp (ts : list jsstring) :
  ts <> [] -> Forall tokenOk ts -> splitWs (joinSp ts) = ts.
Proof.
  intros Hne H. induction H as [|t ts [Ht Hs] Hts IH]; [congruence|].
  destruct ts as [|t' ts'].
  - cbn [joinSp]. now apply splitWs_last.
  - rewrite joinSp_cons by discriminate.
    destruct (joinSp_head (t' :: ts') ltac:(discriminate) Hts) as (c & rest & E & Hc).
    rewrite E, splitWs_token by assumption. rewrite <- E, IH by discriminate. reflexivity.
Qed.

Lemma dropSpaces_headOk (s : jsstring) : headOk s -> dropSpaces s = s.
Proof.
  destruct s as [|c s]; [reflexivity|]. cbn [headOk dropSpaces]. now intros ->.
Qed.

Lemma trim_headOk (s : jsstring) : headOk s -> headOk (rev s) -> trim s = s.
Proof.
  intros H1 H2. unfold trim. rewrite (dropSpaces_headOk s H1), (dropSpaces_headOk _ H2).
  apply rev_involutive.
Qed.

Lemma headOk_rev_token (t : jsstring) : tokenOk t -> exists c l, rev t = c :: l /\ isSpace c = false.
Proof.
  intros [Hne Hs]. destruct (rev t) as [|c l] eqn:E.
  - apply (f_equal (@rev ascii)) in E. rewrite rev_involutive in E. cbn in E. congruence.
  - exists c, l. split; [reflexivity|].
    rewrite Forall_forall in Hs. apply Hs. apply in_rev. rewrite E. now left.
Qed.

Lemma headOk_rev_joinSp (ts : list jsstring) :
  Forall tokenOk ts -> headOk (rev (joinSp ts)).
Proof.
  induction 1 as [|t ts Ht Hts IH]; [exact I|].
  destruct ts as [|t' ts'].
  - cbn [joinSp]. destruct (headOk_rev_token t Ht) as (c & l & -> & Hc). exact Hc.
  - rewrite joinSp_cons by discriminate. rewrite rev_app_distr. cbn [rev].
    rewrite <- app_assoc.
    destruct (joinSp_head (t' :: ts') ltac:(discriminate) Hts) as (c & rest & E & Hc).
    destruct (rev (joinSp (t' :: ts'))) as [|x l] eqn:R.
    + apply (f_equal (@rev ascii)) in R. rewrite rev_involutive, E in R. discriminate R.
    + exact IH.
Qed.

Lemma trim_joinSp (ts : list jsstring) :
  Forall tokenOk ts -> trim (joinSp ts) = joinSp ts.
Proof.
  intros H. apply trim_headOk; [|now apply headOk_rev_joinSp].
  destruct ts as [|t ts]; [exact I|].
  destruct (joinSp_head (t :: ts) ltac:(discriminate) H) as (c & rest & -> & Hc). exact Hc.
Qed.

Lemma splitOn_last (x : ascii) (t : jsstring) :
  Forall (fun c => Ascii.eqb c x = false) t -> splitOn x t = [t].
Proof.
  induction 1 as [|c t Hc _ IH]; cbn [splitOn]; [reflexivity|].
  now rewrite Hc, IH.
Qed.

Lemma splitOn_token (x : ascii) (t rest : jsstring) :
  Forall (fun c => Ascii.eqb c x = false) t ->
  splitOn x (t ++ x :: rest) = t :: splitOn x rest.
Proof.
  induction 1 as [|c t Hc _ IH]; cbn [app splitOn].
  - now rewrite Ascii.eqb_refl.
  - now rewrite Hc, IH.
Qed.

(** The text [toFEN] builds is its six fields joined by blanks. *)
Lemma toFEN_fields (p : Position) :
  toFEN p =
  joinSp [placementText p; sideText p; castlingText p; epText p;
          numToString (halfmove p); numToString (fullmove p)].
Proof.
  unfold toFEN. rewrite placement_ranks. cbn [joinSp].
  fold (sideText p). fold (castlingText p).
  change (if enPassant p =? -1 then str "-"
          else ascii_of_N (Z.to_N (97 + Z.rem (enPassant p) 8))
               :: numToString (enPassant p / 8 + 1)) with (epText p).
  unfold str at 1 2 3 4 5. cbn [list_ascii_of_string].
  repeat (rewrite <- app_assoc; cbn [app]). reflexivity.
Qed.

(** ** Import of an exported FEN *)

Lemma uint_chars (d : Decimal.uint) :
  Forall (fun c => isSpace c = false)
    (list_ascii_of_string (NilEmpty.string_of_uint d)).
Proof.
  induction d; cbn [NilEmpty.string_of_uint list_ascii_of_string];
    constructor; (reflexivity || assumption).
Qed.

Lemma numToString_token (n : Z) : tokenOk (numToString n).
Proof.
  unfold numToString, tokenOk.
  destruct (Z.to_int n) as [d|d]; cbn [NilZero.string_of_int].
  - unfold NilZero.string_of_uint.
    destruct d; try (split; [discriminate | apply uint_chars]).
    split; [discriminate | repeat constructor].
  - cbn [list_ascii_of_string]. split; [discriminate|]. constructor; [reflexivity|].
    unfold NilZero.string_of_uint.
    destruct d; try apply uint_chars. repeat constructor.
Qed.

Lemma sideText_token (p : Position) :
  tokenOk (sideText p) /\
  (if str_eqb (sideText p) (str "b") then Black else White) = sideToMove p.
Proof.
  unfold sideText, tokenOk. destruct (sideToMove p); cbn;
    (split; [split; [discriminate | repeat constructor] | reflexivity]).
Qed.

Lemma right_letter (c : ascii) :
  is_in (str "KQkq") c = true -> isSpace c = false /\ Ascii.eqb c "-" = false.
Proof.
  unfold is_in, str. cbn [list_ascii_of_string existsb].
  rewrite !orb_true_iff, !Ascii.eqb_eq.
  intros [H|[H|[H|[H|H]]]]; try discriminate; subst c; now split.
Qed.

Lemma castlingText_token (p : Position) :
  rightsOk (castling p) ->
  tokenOk (castlingText p) /\
  (if truthy (Some (castlingText p)) && negb (str_eqb (castlingText p) (str "-"))
   then castlingText p else []) = castling p.
Proof.
  unfold castlingText, rightsOk. intros H.
  destruct (castling p) as [|c cs].
  - split; [split; [discriminate | repeat constructor] | reflexivity].
  - split.
    + split; [discriminate|]. apply Forall_forall. intros x Hx.
      rewrite Forall_forall in H. now apply right_letter, H.
    + inversion H as [|? ? Hc _]; subst. apply right_letter in Hc as [_ Hc].
      cbn [truthy andb str list_ascii_of_string str_eqb]. now rewrite Hc.
Qed.

Lemma epText_token (p : Position) :
  epOk (enPassant p) ->
  tokenOk (epText p) /\ parseEnPassant (Some (epText p)) = enPassant p.
Proof.
  unfold epOk, epText. intros H.
  pose (ok := fun e =>
                let t := epTextOf e in
                negb (Nat.eqb (List.length t) 0)
                && forallb (fun c => negb (isSpace c)) t
                && (parseEnPassant (Some t) =? e)).
  assert (C : ok (enPassant p) = true).
  { apply (range_forallb ok (-1) 65); [vm_compute; reflexivity | lia]. }
  unfold ok in C. cbv zeta in C.
  rewrite !andb_true_iff, negb_true_iff, Nat.eqb_neq, Z.eqb_eq in C.
  destruct C as [[C1 C2] C3]. split; [split|exact C3].
  - intros E. apply C1. now rewrite E.
  - apply Forall_forall. intros c Hc. rewrite forallb_forall in C2.
    apply negb_true_iff. now apply C2.
Qed.

Lemma placementText_token (p : Position) :
  tokenOk (placementText p) /\
  splitOn "/" (placementText p)
  = [rankText p 7; rankText p 6; rankText p 5; rankText p 4;
     rankText p 3; rankText p 2; rankText p 1; rankText p 0].
Proof.
  assert (S : forall r, Forall (fun c => isSpace c = false) (rankText p r)).
  { intros r. destruct (rankText_chars p r) as [H _].
    eapply Forall_impl; [|exact H]. cbv beta. tauto. }
  assert (D : forall r, Forall (fun c => Ascii.eqb c "/" = false) (rankText p r)).
  { intros r. destruct (rankText_chars p r) as [H _].
    eapply Forall_impl; [|exact H]. cbv beta. tauto. }
  unfold placementText. split; [split|].
  - destruct (rankText_chars p 7) as [_ N]. destruct (rankText p 7); [congruence | discriminate].
  - repeat (apply Forall_app; split; [apply S|]; constructor; [reflexivity|]).
    apply S.
  - rewrite !splitOn_token by apply D. now rewrite splitOn_last by apply D.
Qed.

(** The position [loadFromFEN] leaves when it reads what [toFEN] wrote. *)
Lemma loadFromFEN_toFEN (p X : Position) :
  rightsOk (castling p) -> epOk (enPassant p) ->
  loadFromFEN (toFEN p) X =
  setFullmove (parseIntOr (Some (numToString (fullmove p))) 1)
    (setHalfmove (parseIntOr (Some (numToString (halfmove p))) 0)
       (setEnPassant (enPassant p)
          (setCastling (castling p)
             (setSideToMove (sideToMove p)
                (loadRanks
                   [rankText p 7; rankText p 6; rankText p 5; rankText p 4;
                    rankText p 3; rankText p 2; rankText p 1; rankText p 0]
                   (clearBoards X)))))).
Proof.
  intros Hr He.
  destruct (placementText_token p) as [T0 R].
  destruct (sideText_token p) as [T1 S].
  destruct (castlingText_token p Hr) as [T2 C].
  destruct (epText_token p He) as [T3 E].
  pose proof (numToString_token (halfmove p)) as T4.
  pose proof (numToString_token (fullmove p)) as T5.
  set (fields := [placementText p; sideText p; castlingText p; epText p;
                  numToString (halfmove p); numToString (fullmove p)]).
  assert (F : Forall tokenOk fields).
  { unfold fields. repeat (apply Forall_cons; [assumption|]). apply Forall_nil. }
  rewrite toFEN_fields. fold fields. unfold loadFromFEN.
  destruct (joinSp_head fields ltac:(discriminate) F) as (c & rest & J & _).
  rewrite J. rewrite <- J.
  rewrite trim_joinSp by exact F. rewrite splitWs_joinSp by (discriminate || exact F).
  unfold loadTokens, fields. cbn [nth_error].
  destruct (placementText p) as [|c0 pl] eqn:P; [destruct T0; congruence|].
  rewrite R. cbn [List.length Nat.eqb negb].
  rewrite S, C, E. reflexivity.
Qed.

(** ** Positions reached by moves *)

Lemma rightsOk_removeSideRights side cs : rightsOk cs -> rightsOk (removeSideRights side cs).
Proof.
  unfold rightsOk, removeSideRights. rewrite !Forall_forall.
  intros H c Hc. apply filter_In in Hc. now apply H.
Qed.

Lemma rightsOk_removeFirst x cs : rightsOk cs -> rightsOk (removeFirst x cs).
Proof.
  unfold rightsOk. induction 1 as [|c cs Hc Hcs IH]; cbn [removeFirst]; [constructor|].
  destruct (c =? x)%char; [exact Hcs | now constructor].
Qed.

Lemma toInt32_small (x : Z) : 0 <= x < 2 ^ 31 -> toInt32 x = x.
Proof.
  intros H. unfold toInt32, toUint32. rewrite Z.mod_small by lia.
  destruct (Z.leb_spec (2 ^ 31) x); [lia | reflexivity].
Qed.

Lemma castleMove_ok (p : Position) (m : Move) : reachedOk p -> reachedOk (castleMove p m).
Proof.
  intros [Hr He]. unfold castleMove. cbv zeta.
  set (p1 := setBB King (sideToMove p) _ p).
  set (p2 := if match castle m with Some s => str_eqb s (str "K") | None => false end
             then _ else _).
  assert (M : metaOf p2 = metaOf p).
  { unfold p2.
    destruct (match castle m with Some s => str_eqb s (str "K") | None => false end),
      (sideToMove p); rewrite meta_setBB; apply meta_setBB. }
  apply meta_eq in M as [Mc Me].
  destruct (meta_eq _ _ (meta_finishMove
              (setCastling (removeSideRights (sideToMove p) (castling p2)) p2)))
    as [Fc Fe].
  unfold reachedOk. rewrite Fc, Fe.
  change (castling (setCastling (removeSideRights (sideToMove p) (castling p2)) p2))
    with (removeSideRights (sideToMove p) (castling p2)).
  change (enPassant (setCastling (removeSideRights (sideToMove p) (castling p2)) p2))
    with (enPassant p2).
  rewrite Mc, Me.
  split; [now apply rightsOk_removeSideRights | exact He].
Qed.

Lemma updateRights_ok side fromBB r m p :
  rightsOk (castling p) ->
  rightsOk (castling (updateRights side fromBB r m p)) /\
  enPassant (updateRights side fromBB r m p) = enPassant p.
Proof.
  intros H. unfold updateRights.
  set (p1 := if nonzero (Z.land fromBB (bb King side p)) then _ else p).
  assert (H1 : rightsOk (castling p1) /\ enPassant p1 = enPassant p).
  { unfold p1. destruct (nonzero (Z.land fromBB (bb King side p))); [|now split].
    split; [now apply rightsOk_removeSideRights | reflexivity]. }
  destruct H1 as [R1 E1].
  destruct r; [|now split]. cbv zeta.
  set (q1 := if from m =? 0 then _ else p1).
  assert (Q1 : rightsOk (castling q1) /\ enPassant q1 = enPassant p).
  { unfold q1. destruct (from m =? 0); [|now split].
    split; [now apply rightsOk_removeFirst | exact E1]. }
  destruct Q1 as [R2 E2].
  set (q2 := if from m =? 7 then _ else q1).
  assert (Q2 : rightsOk (castling q2) /\ enPassant q2 = enPassant p).
  { unfold q2. destruct (from m =? 7); [|now split].
    split; [now apply rightsOk_removeFirst | exact E2]. }
  destruct Q2 as [R3 E3].
  set (q3 := if from m =? 56 then _ else q2).
  assert (Q3 : rightsOk (castling q3) /\ enPassant q3 = enPassant p).
  { unfold q3. destruct (from m =? 56); [|now split].
    split; [now apply rightsOk_removeFirst | exact E3]. }
  destruct Q3 as [R4 E4].
  destruct (from m =? 63); [|now split].
  split; [now apply rightsOk_removeFirst | exact E4].
Qed.

Lemma updateEnPassant_ok b m p :
  wfMoveb m = true ->
  castling (updateEnPassant b m p) = castling p /\ epOk (enPassant (updateEnPassant b m p)).
Proof.
  intros W. unfold wfMoveb in W. rewrite !andb_true_iff, !Z.leb_le, !Z.ltb_lt in W.
  unfold updateEnPassant, epOk.
  destruct (b && (Z.abs (to m - from m) =? 16)); cbn [castling enPassant setEnPassant].
  - split; [reflexivity|]. rewrite toInt32_small by lia.
    rewrite Z.shiftr_div_pow2 by lia. change (2 ^ 1) with 2.
    split; [|apply Z.div_lt_upper_bound; lia].
    assert (0 <= (from m + to m) / 2) by (apply Z.div_pos; lia). lia.
  - split; [reflexivity | lia].
Qed.

Lemma makeMove_ok (p : Position) (m : Move) :
  wfMoveb m = true -> reachedOk p -> reachedOk (makeMove p m).
Proof.
  intros W Hp. unfold makeMove.
  destruct (truthy (castle m)); [now apply castleMove_ok|].
  cbv zeta.
  set (p3 := promote _ _ m (moveFirst _ _ _ allKinds
               (fold_left _ allKinds (enPassantCapture (sideToMove p) m p)))).
  assert (M3 : metaOf p3 = metaOf p).
  { unfold p3. now rewrite meta_promote, meta_moveFirst, meta_removeAt,
      meta_enPassantCapture. }
  apply meta_eq in M3 as [C3 _].
  match goal with
  | |- reachedOk (_finishMove (updateRights ?s ?f ?r m (updateEnPassant ?b m p3))) =>
      destruct (updateEnPassant_ok b m p3 W) as [C4 E4];
      destruct (updateRights_ok s f r m (updateEnPassant b m p3)) as [C5 E5];
      [rewrite C4, C3; apply Hp|];
      destruct (meta_eq _ _ (meta_finishMove
                  (updateRights s f r m (updateEnPassant b m p3)))) as [CF EF]
  end.
  unfold reachedOk. rewrite CF, EF, E5. now split.
Qed.

Lemma replay_from_ok (ms : list Move) (p : Position) :
  forallb wfMoveb ms = true -> reachedOk p -> reachedOk (fold_left makeMove ms p).
Proof.
  revert p. induction ms as [|m ms IH]; intros p W Hp; cbn [fold_left]; [exact Hp|].
  cbn [forallb] in W. apply andb_true_iff in W as [Wm Wms].
  apply IH; [exact Wms | now apply makeMove_ok].
Qed.

Lemma reset_ok : reachedOk reset.
Proof.
  split.
  - unfold rightsOk. vm_compute. repeat constructor.
  - unfold epOk. cbn. lia.
Qed.

Lemma replay_ok (ms : list Move) : forallb wfMoveb ms = true -> reachedOk (replay ms).
Proof. intros W. apply replay_from_ok; [exact W | exact reset_ok]. Qed.

(** ** The key after the round trip *)

Lemma squaresKey_ext (t : ZobristTables) (p q : Position) (sqs : list Z) (key : Outcome Z) :
  (forall sq, In sq sqs ->
     pieceTypeAt q (bit sq) pieceSets = pieceTypeAt p (bit sq) pieceSets) ->
  fold_left (squareKey t q) sqs key = fold_left (squareKey t p) sqs key.
Proof.
  revert key. induction sqs as [|sq sqs IH]; intros key H; cbn [fold_left]; [reflexivity|].
  rewrite IH by (intros s Hs; apply H; now right).
  unfold squareKey. now rewrite (H sq) by now left.
Qed.

Lemma zobristKeyWith_ext (t : ZobristTables) (p q : Position) :
  (forall sq, In sq squares ->
     pieceTypeAt q (bit sq) pieceSets = pieceTypeAt p (bit sq) pieceSets) ->
  sideToMove q = sideToMove p -> castling q = castling p -> enPassant q = enPassant p ->
  zobristKeyWith t q = zobristKeyWith t p.
Proof.
  intros H S C E. unfold zobristKeyWith.
  now rewrite (squaresKey_ext t p q squares (Ret 0) H), S, C, E.
Qed.

Lemma bb_meta_setters (k : Kind) (col : Color) (a b e : Z) (c : jsstring) (s : Color)
  (B : Position) :
  bb k col (setFullmove a (setHalfmove b (setEnPassant e (setCastling c
              (setSideToMove s B))))) = bb k col B.
Proof. destruct k; reflexivity. Qed.

(** C5.  For every position reached from the initial position by move
    descriptors whose squares are on the board, the position imported into
    a fresh engine from the exported FEN has the Zobrist key of the
    position itself. *)
Theorem fen_round_trip_keeps_key (ms : list Move) :
  forallb wfMoveb ms = true ->
  exists key,
    getZobristKey (replay ms) = Ret key /\
    getZobristKey (loadFromFEN (toFEN (replay ms)) reset) = Ret key.
Proof.
  intros W. destruct (replay_ok ms W) as [Hr He].
  set (p := replay ms) in *.
  destruct (zobristKeyWith_ret zobrist zobrist_ok p Hr) as (pk & key & _ & K & _).
  exists key. unfold getZobristKey. split; [exact K|].
  rewrite <- K. rewrite (loadFromFEN_toFEN p reset Hr He).
  apply zobristKeyWith_ext; try reflexivity.
  intros sq Hsq. apply pieceTypeAt_loaded.
  - intros k col n Hn. rewrite bb_meta_setters.
    now apply (loadedBelow_board p reset).
  - pose proof squares_on_board as F. rewrite Forall_forall in F. now apply F.
Qed.

(** After 1. e4 the exported FEN carries the en-passant square e3; the
    imported position has the same key. *)
Lemma fen_round_trip_keeps_key_witness :
  exists key,
    getZobristKey (replay [plainMove 12 28]) = Ret key /\
    getZobristKey (loadFromFEN (toFEN (replay [plainMove 12 28])) reset) = Ret key.
Proof.
  apply (fen_round_trip_keeps_key [plainMove 12 28]). reflexivity.
Defined.

(** * Further properties *)

(** ** The move applicator: turn, rights, squares *)












(** *** The castling field *)

Lemma castling_updateRights side fromBB r m q :
  castling (updateRights side fromBB r m q)
  = rightsAfter side (nonzero (Z.land fromBB (bb King side q))) r (from m) (castling q).
Proof.
  unfold updateRights, rightsAfter.
  repeat match goal with
         | |- context [if ?b then _ else _] => destruct b
         end; reflexivity.
Qed.

Lemma castling_castleMove (p : Position) (m : Move) :
  castling (castleMove p m) = removeSideRights (sideToMove p) (castling p).
Proof.
  unfold castleMove. cbv zeta.
  match goal with
  | |- castling (_finishMove ?q) = _ =>
      destruct (meta_eq _ _ (meta_finishMove q)) as [-> _]
  end.
  change (castling (setCastling ?s ?q)) with s.
  f_equal.
  destruct (match castle m with Some s => str_eqb s (str "K") | None => false end),
    (sideToMove p);
    match goal with
    | |- castling (setBB ?k ?c ?v ?q) = _ =>
        destruct (meta_eq _ _ (meta_setBB k c v q)) as [-> _]
    end;
    match goal with
    | |- castling (setBB ?k ?c ?v ?q) = _ =>
        destruct (meta_eq _ _ (meta_setBB k c v q)) as [-> _]
    end; reflexivity.
Qed.

(** The position a plain move reaches before its last three steps, and the
    castling field of the result. *)
Lemma castling_plainMove (p : Position) (m : Move) :
  truthy (castle m) = false ->
  exists kingTest,
    castling (makeMove p m)
    = rightsAfter (sideToMove p) kingTest
        (nonzero (Z.land (bb Rook (sideToMove p) p) (bit (from m))))
        (from m) (castling p).
Proof.
  intros Hc. unfold makeMove. rewrite Hc. cbv zeta.
  match goal with
  | |- exists _, castling (_finishMove ?q) = _ =>
      destruct (meta_eq _ _ (meta_finishMove q)) as [-> _]
  end.
  rewrite castling_updateRights. eexists.
  rewrite castling_updateEnPassant.
  rewrite bb_removeAt_side, bb_enPassantCapture_side.
  match goal with
  | |- rightsAfter _ _ _ _ (castling (promote ?s ?t m ?q)) = _ =>
      destruct (meta_eq _ _ (meta_promote s t m q)) as [-> _]
  end.
  match goal with
  | |- rightsAfter _ _ _ _ (castling (moveFirst ?s ?f ?t ?ks ?q)) = _ =>
      destruct (meta_eq _ _ (meta_moveFirst s f t ks q)) as [-> _]
  end.
  match goal with
  | |- rightsAfter _ _ _ _ (castling (fold_left (removeAt ?e ?t) ?ks ?q)) = _ =>
      destruct (meta_eq _ _ (meta_removeAt e t ks q)) as [-> _]
  end.
  destruct (meta_eq _ _ (meta_enPassantCapture (sideToMove p) m p)) as [-> _].
  reflexivity.
Qed.

Lemma removeFirst_incl (x c : ascii) (cs : jsstring) :
  In c (removeFirst x cs) -> In c cs.
Proof.
  induction cs as [|y cs IH]; cbn [removeFirst]; [trivial|].
  destruct (y =? x)%char; [now right|].
  intros [H|H]; [now left | right; now apply IH].
Qed.

Lemma removeSideRights_incl (side : Color) (c : ascii) (cs : jsstring) :
  In c (removeSideRights side cs) -> In c cs.
Proof. unfold removeSideRights. intros H. now apply filter_In in H. Qed.

Lemma rightsAfter_incl side kt r f cs c :
  In c (rightsAfter side kt r f cs) -> In c cs.
Proof.
  unfold rightsAfter. cbv zeta. intros H.
  assert (K : forall l, In c (if kt then removeSideRights side l else l) -> In c l).
  { intros l. destruct kt; [apply removeSideRights_incl | trivial]. }
  apply K. destruct r; [|exact H].
  repeat match type of H with
         | In _ (if ?b then removeFirst ?x ?l else ?l) =>
             destruct b; [apply removeFirst_incl in H|]
         end; exact H.
Qed.

Lemma castling_makeMove_incl (p : Position) (m : Move) (c : ascii) :
  In c (castling (makeMove p m)) -> In c (castling p).
Proof.
  destruct (truthy (castle m)) eqn:Hc.
  - unfold makeMove. rewrite Hc, castling_castleMove. apply removeSideRights_incl.
  - destruct (castling_plainMove p m Hc) as [kt ->]. apply rightsAfter_incl.
Qed.

(** X2.  Castling rights are never re-acquired: whatever the descriptors, a
    letter in the castling field after a sequence of moves was in the field
    before it. *)
Theorem rights_never_reacquired (ms : list Move) (p : Position) (c : ascii) :
  In c (castling (fold_left makeMove ms p)) -> In c (castling p).
Proof.
  revert p. induction ms as [|m ms IH]; intros p; cbn [fold_left]; [trivial|].
  intros H. apply (castling_makeMove_incl p m). now apply IH.
Qed.

Lemma rights_never_reacquired_witness :
  In "k"%char (castling (fold_left makeMove [plainMove 4 12; plainMove 52 36] reset)) /\
  In "k"%char (castling reset).
Proof.
  assert (H : In "k"%char
                (castling (fold_left makeMove [plainMove 4 12; plainMove 52 36] reset))).
  { vm_compute. tauto. }
  split; [exact H|].
  exact (rights_never_reacquired [plainMove 4 12; plainMove 52 36] reset "k"%char H).
Defined.

Lemma removeFirst_NoDup_out (x : ascii) (cs : jsstring) :
  NoDup cs -> ~ In x (removeFirst x cs).
Proof.
  induction 1 as [|y cs Hy Hn IH]; cbn [removeFirst]; [tauto|].
  destruct (Ascii.eqb_spec y x) as [->|Hne]; [exact Hy|].
  intros [H|H]; [congruence | now apply IH].
Qed.

Lemma removeFirst_NoDup (x : ascii) (cs : jsstring) :
  NoDup cs -> NoDup (removeFirst x cs).
Proof.
  induction 1 as [|y cs Hy Hn IH]; cbn [removeFirst]; [constructor|].
  destruct (y =? x)%char; [exact Hn|].
  constructor; [|exact IH]. intros H. apply Hy. now apply removeFirst_incl in H.
Qed.

(** X3.  When a rook of the mover stands on the origin and the origin is a
    home corner (a1, h1, a8, h8), a plain move removes the right tied to
    that corner from a castling field that lists each right once. *)
Theorem rook_leaving_corner_revokes_right (p : Position) (m : Move) (c : ascii) :
  truthy (castle m) = false ->
  nonzero (Z.land (bb Rook (sideToMove p) p) (bit (from m))) = true ->
  NoDup (castling p) ->
  cornerRight (from m) = Some c ->
  ~ In c (castling (makeMove p m)).
Proof.
  intros Hc Hr Hn Hcor. destruct (castling_plainMove p m Hc) as [kt ->].
  rewrite Hr. unfold rightsAfter. cbv zeta.
  set (cs := if kt then removeSideRights (sideToMove p) (castling p) else castling p).
  assert (N : NoDup cs).
  { unfold cs. destruct kt; [|exact Hn]. unfold removeSideRights. now apply NoDup_filter. }
  clearbody cs. unfold cornerRight in Hcor.
  destruct (Z.eqb_spec (from m) 0) as [E|_].
  { injection Hcor as <-. rewrite E. cbn [Z.eqb]. now apply removeFirst_NoDup_out. }
  destruct (Z.eqb_spec (from m) 7) as [E|_].
  { injection Hcor as <-. rewrite E. cbn [Z.eqb Pos.eqb]. now apply removeFirst_NoDup_out. }
  destruct (Z.eqb_spec (from m) 56) as [E|_].
  { injection Hcor as <-. rewrite E. cbn [Z.eqb Pos.eqb]. now apply removeFirst_NoDup_out. }
  destruct (Z.eqb_spec (from m) 63) as [E|_]; [|discriminate].
  injection Hcor as <-. now apply removeFirst_NoDup_out.
Qed.

Lemma rook_leaving_corner_revokes_right_witness :
  ~ In "K"%char
      (castling (makeMove (replay [plainMove 6 21; plainMove 52 36]) (plainMove 7 6))).
Proof.
  apply (rook_leaving_corner_revokes_right
           (replay [plainMove 6 21; plainMove 52 36]) (plainMove 7 6) "K"%char).
  - reflexivity.
  - vm_compute. reflexivity.
  - vm_compute. repeat constructor; simpl; intuition discriminate.
  - reflexivity.
Defined.

(** X4.  A castle removes the mover's two letters from the castling field,
    every occurrence, and keeps the other letters in their order. *)
Theorem castle_revokes_both_rights (p : Position) (m : Move) :
  truthy (castle m) = true ->
  castling (makeMove p m)
  = filter (fun c => negb (is_in (sideLetters (sideToMove p)) c)) (castling p)
  /\ forall c, In c (castling (makeMove p m)) ->
               is_in (sideLetters (sideToMove p)) c = false.
Proof.
  intros Hc. unfold makeMove. rewrite Hc, castling_castleMove.
  unfold removeSideRights, sideLetters. split; [reflexivity|].
  intros c H. apply filter_In in H as [_ H]. now apply negb_true_iff in H.
Qed.

Lemma castle_revokes_both_rights_witness :
  castling (makeMove reset (mkMove 4 6 None (Some (str "K")) false)) = str "kq".
Proof.
  destruct (castle_revokes_both_rights reset (mkMove 4 6 None (Some (str "K")) false) eq_refl)
    as [E _].
  rewrite E. vm_compute. reflexivity.
Defined.
(** *** The squares a plain move touches *)

Lemma opp_involutive (c : Color) : opp (opp c) = c.
Proof. now destruct c. Qed.

Lemma bb_setBB_mover k k' side v p :
  bb k (opp side) (setBB k' side v p) = bb k (opp side) p.
Proof. destruct k, k', side; reflexivity. Qed.

Lemma bb_enemy_moveFirst k side f t ks p :
  bb k (opp side) (moveFirst side f t ks p) = bb k (opp side) p.
Proof.
  induction ks as [|k' ks IH]; cbn [moveFirst]; [reflexivity|].
  unfold movePiece.
  destruct (nonzero (Z.land (bb k' side p) f)); [apply bb_setBB_mover | exact IH].
Qed.

Lemma bb_enemy_promote k side t m p :
  bb k (opp side) (promote side t m p) = bb k (opp side) p.
Proof.
  unfold promote. destruct (promotion m) as [s|]; [|reflexivity].
  destruct (truthy (Some s)); [|reflexivity].
  now rewrite !bb_setBB_mover.
Qed.

Lemma bb_enemy_removeAt k enemy t p :
  bb k enemy (fold_left (removeAt enemy t) allKinds p)
  = Z.land (bb k enemy p) (Z.lnot t).
Proof. destruct k, enemy; reflexivity. Qed.

(** The boards of a plain move are the boards after step 5. *)
Lemma bb_plainMove (p : Position) (m : Move) (k : Kind) (c : Color) :
  truthy (castle m) = false ->
  bb k c (makeMove p m)
  = bb k c (promote (sideToMove p) (bit (to m)) m
              (moveFirst (sideToMove p) (bit (from m)) (bit (to m)) allKinds
                 (fold_left (removeAt (opp (sideToMove p)) (bit (to m))) allKinds
                    (enPassantCapture (sideToMove p) m p)))).
Proof.
  intros Hc. unfold makeMove. rewrite Hc. cbv zeta.
  now rewrite bb_finishMove, bb_updateRights, bb_updateEnPassant.
Qed.

(** X5.  After a plain move no piece of the opponent is left on the
    destination, in any of its six sets, whether or not the descriptor was a
    capture: [arr[enemy] & toBB] is [0n]. *)
Theorem destination_cleared_of_enemy (p : Position) (m : Move) (k : Kind) :
  truthy (castle m) = false ->
  Z.land (bb k (opp (sideToMove p)) (makeMove p m)) (bit (to m)) = 0.
Proof.
  intros Hc. rewrite (bb_plainMove p m k _ Hc).
  rewrite bb_enemy_promote, bb_enemy_moveFirst, bb_enemy_removeAt.
  apply land_lnot_self.
Qed.

Lemma destination_cleared_of_enemy_witness :
  Z.land (bb Pawn Black
            (makeMove (replay [plainMove 12 28; plainMove 51 35]) (plainMove 28 35)))
    (bit 35) = 0.
Proof.
  apply (destination_cleared_of_enemy
           (replay [plainMove 12 28; plainMove 51 35]) (plainMove 28 35) Pawn).
  reflexivity.
Defined.

(** X6.  A plain move flagged en passant leaves no pawn of the opponent on
    the square behind the destination (one rank below it for White, above
    it for Black). *)
Theorem en_passant_removes_passed_pawn (p : Position) (m : Move) :
  truthy (castle m) = false ->
  enpassant m = true ->
  Z.land (bb Pawn (opp (sideToMove p)) (makeMove p m))
    (bit (capSqOf (sideToMove p) m)) = 0.
Proof.
  intros Hc He. rewrite (bb_plainMove p m Pawn _ Hc).
  rewrite bb_enemy_promote, bb_enemy_moveFirst, bb_enemy_removeAt.
  unfold enPassantCapture. rewrite He. rewrite bb_setBB_same.
  fold (capSqOf (sideToMove p) m).
  rewrite <- Z.land_assoc, (Z.land_comm (Z.lnot (bit (to m)))), Z.land_assoc.
  rewrite land_lnot_self. apply Z.land_0_l.
Qed.

Lemma en_passant_removes_passed_pawn_witness :
  let p := replay [plainMove 11 27; plainMove 53 37; plainMove 12 28; plainMove 37 28;
                   plainMove 27 35; plainMove 52 36] in
  Z.land (bb Pawn Black (makeMove p (mkMove 35 44 None None true))) (bit 36) = 0.
Proof.
  apply (en_passant_removes_passed_pawn
           (replay [plainMove 11 27; plainMove 53 37; plainMove 12 28; plainMove 37 28;
                    plainMove 27 35; plainMove 52 36])
           (mkMove 35 44 None None true)).
  - reflexivity.
  - reflexivity.
Defined.

Lemma bit_testbit_other (s n : Z) : 0 <= n -> n <> s -> Z.testbit (bit s) n = false.
Proof.
  intros Hn Hne. unfold bit. rewrite Z.shiftl_spec by exact Hn.
  destruct (Z.ltb_spec (n - s) 0) as [L|G]; [now apply Z.testbit_neg_r|].
  change 1 with (2 ^ 0). apply Z.pow2_bits_false. lia.
Qed.

Lemma agreeAt_refl n p : agreeAt n p p.
Proof. intros k c. reflexivity. Qed.

Lemma agreeAt_trans n p q r : agreeAt n p q -> agreeAt n q r -> agreeAt n p r.
Proof. intros H1 H2 k c. now rewrite H1. Qed.

Lemma agreeAt_setBB n k c v p :
  Z.testbit v n = Z.testbit (bb k c p) n -> agreeAt n (setBB k c v p) p.
Proof.
  intros H k' c'. destruct (Ascii.eqb (letterOf k' c') (letterOf k c)) eqn:E.
  - apply letterOf_inj in E as [-> ->]. now rewrite bb_setBB_same.
  - rewrite bb_setBB_other; [reflexivity|].
    intros [-> ->]. rewrite Ascii.eqb_refl in E. discriminate.
Qed.

Lemma testbit_clear (x s n : Z) :
  0 <= n -> n <> s -> Z.testbit (Z.land x (Z.lnot (bit s))) n = Z.testbit x n.
Proof.
  intros Hn Hne. rewrite Z.land_spec, Z.lnot_spec, bit_testbit_other by assumption.
  apply andb_true_r.
Qed.

Lemma testbit_set (x s n : Z) :
  0 <= n -> n <> s -> Z.testbit (Z.lor x (bit s)) n = Z.testbit x n.
Proof.
  intros Hn Hne. rewrite Z.lor_spec, bit_testbit_other by assumption.
  apply orb_false_r.
Qed.

Lemma testbit_toggle (x s n : Z) :
  0 <= n -> n <> s -> Z.testbit (Z.lxor x (bit s)) n = Z.testbit x n.
Proof.
  intros Hn Hne. rewrite Z.lxor_spec, bit_testbit_other by assumption.
  apply xorb_false_r.
Qed.

Lemma agreeAt_removeAt n enemy t ks p :
  0 <= n -> n <> t -> agreeAt n (fold_left (removeAt enemy (bit t)) ks p) p.
Proof.
  intros Hn Hne. revert p. induction ks as [|k ks IH]; intros p; cbn [fold_left].
  - apply agreeAt_refl.
  - eapply agreeAt_trans; [apply IH|]. unfold removeAt.
    apply agreeAt_setBB. now apply testbit_clear.
Qed.

Lemma agreeAt_moveFirst n side f t ks p :
  0 <= n -> n <> f -> n <> t ->
  agreeAt n (moveFirst side (bit f) (bit t) ks p) p.
Proof.
  intros Hn Hf Ht. induction ks as [|k ks IH]; cbn [moveFirst]; [apply agreeAt_refl|].
  unfold movePiece. destruct (nonzero (Z.land (bb k side p) (bit f))); [|exact IH].
  apply agreeAt_setBB. now rewrite testbit_set, testbit_toggle.
Qed.

Lemma agreeAt_promote n side t m p :
  0 <= n -> n <> t -> agreeAt n (promote side (bit t) m p) p.
Proof.
  intros Hn Ht. unfold promote. destruct (promotion m) as [s|]; [|apply agreeAt_refl].
  destruct (truthy (Some s)); [|apply agreeAt_refl].
  eapply agreeAt_trans; apply agreeAt_setBB.
  - now apply testbit_set.
  - now apply testbit_clear.
Qed.

Lemma agreeAt_enPassantCapture n side m p :
  0 <= n -> (enpassant m = true -> n <> capSqOf side m) ->
  agreeAt n (enPassantCapture side m p) p.
Proof.
  intros Hn Hc. unfold enPassantCapture.
  destruct (enpassant m); [|apply agreeAt_refl].
  apply agreeAt_setBB. apply testbit_clear; [exact Hn | now apply Hc].
Qed.

(** X7.  A plain move changes no square but its origin, its destination and,
    when flagged en passant, the square of the pawn it takes: on every other
    square each of the twelve sets is as before. *)
Theorem plain_move_frame (p : Position) (m : Move) (n : Z) (k : Kind) (c : Color) :
  truthy (castle m) = false ->
  0 <= n -> n <> from m -> n <> to m ->
  (enpassant m = true -> n <> capSqOf (sideToMove p) m) ->
  Z.testbit (bb k c (makeMove p m)) n = Z.testbit (bb k c p) n.
Proof.
  intros Hc Hn Hf Ht He. rewrite (bb_plainMove p m k c Hc).
  revert k c. change (agreeAt n
    (promote (sideToMove p) (bit (to m)) m
       (moveFirst (sideToMove p) (bit (from m)) (bit (to m)) allKinds
          (fold_left (removeAt (opp (sideToMove p)) (bit (to m))) allKinds
             (enPassantCapture (sideToMove p) m p)))) p).
  eapply agreeAt_trans; [now apply agreeAt_promote|].
  eapply agreeAt_trans; [now apply agreeAt_moveFirst|].
  eapply agreeAt_trans; [now apply agreeAt_removeAt|].
  now apply agreeAt_enPassantCapture.
Qed.

Lemma plain_move_frame_witness :
  Z.testbit (bb Knight White (makeMove reset (plainMove 12 28))) 6
  = Z.testbit (bb Knight White reset) 6.
Proof.
  apply (plain_move_frame reset (plainMove 12 28) 6 Knight White).
  - reflexivity.
  - lia.
  - cbn. lia.
  - cbn. lia.
  - cbn. discriminate.
Defined.
(** *** Relocation, promotion, en-passant square, castle *)

Lemma moveFirst_at side f t (pre post : list Kind) (k : Kind) (q : Position) :
  (forall k', In k' pre -> nonzero (Z.land (bb k' side q) f) = false) ->
  nonzero (Z.land (bb k side q) f) = true ->
  moveFirst side f t (pre ++ k :: post) q
  = setBB k side (Z.lor (Z.lxor (bb k side q) f) t) q.
Proof.
  intros Hpre Hk. induction pre as [|k' pre IH]; cbn [app moveFirst]; unfold movePiece.
  - now rewrite Hk.
  - rewrite (Hpre k') by now left. apply IH. intros k'' H. apply Hpre. now right.
Qed.

Lemma allKinds_split (k : Kind) :
  exists pre post,
    allKinds = pre ++ k :: post /\
    forall k', In k' pre -> (kindIndex k' < kindIndex k)%nat.
Proof.
  destruct k.
  - exists [], [Knight; Bishop; Rook; Queen; King]. split; [reflexivity|]. intros k' [].
  - exists [Pawn], [Bishop; Rook; Queen; King]. split; [reflexivity|].
    intros k' [<-|[]]; cbn; lia.
  - exists [Pawn; Knight], [Rook; Queen; King]. split; [reflexivity|].
    intros k' [<-|[<-|[]]]; cbn; lia.
  - exists [Pawn; Knight; Bishop], [Queen; King]. split; [reflexivity|].
    intros k' [<-|[<-|[<-|[]]]]; cbn; lia.
  - exists [Pawn; Knight; Bishop; Rook], [King]. split; [reflexivity|].
    intros k' [<-|[<-|[<-|[<-|[]]]]]; cbn; lia.
  - exists [Pawn; Knight; Bishop; Rook; Queen], []. split; [reflexivity|].
    intros k' [<-|[<-|[<-|[<-|[<-|[]]]]]]; cbn; lia.
Qed.

Lemma promote_absent side t m p : truthy (promotion m) = false -> promote side t m p = p.
Proof.
  unfold promote. destruct (promotion m) as [s|]; [|reflexivity]. now intros ->.
Qed.

(** X8.  A plain move without promotion moves the first of the mover's sets
    (pawns, knights, bishops, rooks, queens, king, in that order) that holds
    the origin: that set holds the destination afterwards and no longer the
    origin. *)
Theorem first_set_on_origin_is_moved (p : Position) (m : Move) (k : Kind) :
  truthy (castle m) = false ->
  truthy (promotion m) = false ->
  0 <= from m -> 0 <= to m -> from m <> to m ->
  Z.testbit (bb k (sideToMove p) p) (from m) = true ->
  (forall k', (kindIndex k' < kindIndex k)%nat ->
              Z.testbit (bb k' (sideToMove p) p) (from m) = false) ->
  Z.testbit (bb k (sideToMove p) (makeMove p m)) (to m) = true /\
  Z.testbit (bb k (sideToMove p) (makeMove p m)) (from m) = false.
Proof.
  intros Hc Hp Hf Ht Hne Hk Hfirst. set (side := sideToMove p) in *.
  rewrite !(bb_plainMove p m k side Hc). fold side.
  rewrite promote_absent by exact Hp.
  set (p2 := fold_left (removeAt (opp side) (bit (to m))) allKinds
               (enPassantCapture side m p)).
  assert (T2 : forall k', nonzero (Z.land (bb k' side p2) (bit (from m)))
                          = Z.testbit (bb k' side p) (from m)).
  { intros k'. unfold p2.
    now rewrite nonzero_land_bit, bb_removeAt_side, bb_enPassantCapture_side by exact Hf. }
  destruct (allKinds_split k) as (pre & post & -> & Hpre).
  rewrite moveFirst_at.
  - rewrite bb_setBB_same, !Z.lor_spec, !Z.lxor_spec, !bit_testbit by assumption.
    rewrite !Z.eqb_refl. split; [apply orb_true_r|].
    unfold p2. rewrite bb_removeAt_side, bb_enPassantCapture_side, Hk.
    destruct (Z.eqb_spec (from m) (to m)); [contradiction | reflexivity].
  - intros k' Hin. rewrite T2. apply Hfirst. now apply Hpre.
  - now rewrite T2.
Qed.

Lemma first_set_on_origin_is_moved_witness :
  Z.testbit (bb Knight White (makeMove reset (plainMove 6 21))) 21 = true /\
  Z.testbit (bb Knight White (makeMove reset (plainMove 6 21))) 6 = false.
Proof.
  apply (first_set_on_origin_is_moved reset (plainMove 6 21) Knight).
  - reflexivity.
  - reflexivity.
  - cbn. lia.
  - cbn. lia.
  - cbn. lia.
  - vm_compute. reflexivity.
  - intros k' H. destruct k'; cbn in H; try lia. vm_compute. reflexivity.
Defined.

(** X9.  A plain move with a promotion value (a non-empty string) leaves no
    pawn of the mover on the destination and sets the destination in the
    set the value selects: queens for "q", rooks for "r", bishops for "b",
    knights for anything else. *)
Theorem promotion_replaces_pawn (p : Position) (m : Move) (s : jsstring) :
  truthy (castle m) = false ->
  promotion m = Some s -> s <> [] ->
  let side := sideToMove p in
  let toBB := bit (to m) in
  Z.land (bb Pawn side (makeMove p m)) toBB = 0 /\
  Z.land (bb (promotionTarget s) side (makeMove p m)) toBB = toBB /\
  promotionTarget (str "q") = Queen /\ promotionTarget (str "r") = Rook /\
  promotionTarget (str "b") = Bishop.
Proof.
  intros Hc Hp Hne side toBB.
  rewrite !(bb_plainMove p m _ side Hc). fold side. fold toBB.
  unfold promote. rewrite Hp.
  assert (Ht : truthy (Some s) = true) by (destruct s; [congruence | reflexivity]).
  rewrite Ht.
  assert (Hk : promotionTarget s <> Pawn).
  { unfold promotionTarget.
    destruct (str_eqb s (str "q")); [discriminate|].
    destruct (str_eqb s (str "r")); [discriminate|].
    destruct (str_eqb s (str "b")); discriminate. }
  repeat split.
  - rewrite bb_setBB_other_kind by (intros E; now symmetry in E).
    rewrite bb_setBB_same. apply land_lnot_self.
  - rewrite bb_setBB_same. apply land_lor_self.
Qed.

Lemma promotion_replaces_pawn_witness :
  let p := loadFromFEN (str "8/1P6/8/8/8/8/8/k6K w - - 0 1") reset in
  let m := mkMove 49 57 (Some (str "q")) None false in
  Z.land (bb Pawn White (makeMove p m)) (bit 57) = 0 /\
  Z.land (bb Queen White (makeMove p m)) (bit 57) = bit 57.
Proof.
  destruct (promotion_replaces_pawn
              (loadFromFEN (str "8/1P6/8/8/8/8/8/k6K w - - 0 1") reset)
              (mkMove 49 57 (Some (str "q")) None false) (str "q")
              eq_refl eq_refl ltac:(discriminate)) as (H1 & H2 & _).
  split; [exact H1 | exact H2].
Defined.

Lemma enPassant_updateRights side f r m q :
  enPassant (updateRights side f r m q) = enPassant q.
Proof.
  unfold updateRights.
  repeat match goal with
         | |- context [if ?b then _ else _] => destruct b
         end; reflexivity.
Qed.

Lemma snd_movePiece side f t k q :
  snd (movePiece side f t k q) = nonzero (Z.land (bb k side q) f).
Proof. unfold movePiece. now destruct (nonzero (Z.land (bb k side q) f)). Qed.

Lemma enPassant_plainMove (p : Position) (m : Move) :
  truthy (castle m) = false ->
  enPassant (makeMove p m)
  = enPassant
      (updateEnPassant
         (nonzero (Z.land (bb Pawn (sideToMove p) p) (bit (from m)))) m p).
Proof.
  intros Hc. unfold makeMove. rewrite Hc. cbv zeta.
  match goal with
  | |- enPassant (_finishMove ?q) = _ =>
      destruct (meta_eq _ _ (meta_finishMove q)) as [_ ->]
  end.
  rewrite enPassant_updateRights, snd_movePiece.
  rewrite bb_removeAt_side, bb_enPassantCapture_side.
  unfold updateEnPassant.
  destruct (nonzero (Z.land (bb Pawn (sideToMove p) p) (bit (from m)))
            && (Z.abs (to m - from m) =? 16)); reflexivity.
Qed.

(** X10.  After a plain move with its squares on the board the en-passant
    square is the midpoint of origin and destination when a pawn of the
    mover stood on the origin and the two squares are 16 apart, and is unset
    ([-1]) in every other case. *)
Theorem en_passant_square_after_plain_move (p : Position) (m : Move) :
  truthy (castle m) = false ->
  0 <= from m < 64 -> 0 <= to m < 64 ->
  enPassant (makeMove p m)
  = if Z.testbit (bb Pawn (sideToMove p) p) (from m) && (Z.abs (to m - from m) =? 16)
    then (from m + to m) / 2
    else -1.
Proof.
  intros Hc Hf Ht. rewrite (enPassant_plainMove p m Hc).
  rewrite nonzero_land_bit by lia. unfold updateEnPassant.
  destruct (Z.testbit (bb Pawn (sideToMove p) p) (from m) && (Z.abs (to m - from m) =? 16));
    cbn [enPassant setEnPassant]; [|reflexivity].
  rewrite toInt32_small by lia. now rewrite Z.shiftr_div_pow2 by lia.
Qed.

Lemma en_passant_square_after_plain_move_witness :
  enPassant (makeMove reset (plainMove 12 28)) = 20 /\
  enPassant (makeMove (makeMove reset (plainMove 12 28)) (plainMove 62 45)) = -1.
Proof.
  split.
  - rewrite (en_passant_square_after_plain_move reset (plainMove 12 28) eq_refl);
      [vm_compute; reflexivity | cbn; lia | cbn; lia].
  - rewrite (en_passant_square_after_plain_move
               (makeMove reset (plainMove 12 28)) (plainMove 62 45) eq_refl);
      [vm_compute; reflexivity | cbn; lia | cbn; lia].
Defined.

Lemma castleMove_boards (p : Position) (m : Move) (k : Kind) (c : Color) :
  bb k c (castleMove p m)
  = bb k c
      (let side := sideToMove p in
       let p1 := setBB King side
                   (Z.lxor (bb King side p) (Z.lor (bit (from m)) (bit (to m)))) p in
       setBB Rook side
         (Z.lxor (bb Rook side p1)
            (Z.lor (bit (fst (castleRookSquares side (isKingSide m))))
               (bit (snd (castleRookSquares side (isKingSide m)))))) p1).
Proof.
  unfold castleMove, isKingSide. cbv zeta.
  rewrite bb_finishMove, bb_setCastling.
  destruct (match castle m with Some s => str_eqb s (str "K") | None => false end),
    (sideToMove p); reflexivity.
Qed.

(** X11.  A castle moves the king from the origin to the destination and the
    rook from its home corner to its post-castle square (h to f on the king
    side, a to d on the queen side, on the mover's first rank), provided
    king and rook stand there and the two arrival squares are free of them;
    no other set of either side changes. *)
Theorem castle_relocates_king_and_rook (p : Position) (m : Move) :
  truthy (castle m) = true ->
  let side := sideToMove p in
  let home := fst (castleRookSquares side (isKingSide m)) in
  let post := snd (castleRookSquares side (isKingSide m)) in
  0 <= from m -> 0 <= to m -> from m <> to m ->
  Z.testbit (bb King side p) (from m) = true ->
  Z.testbit (bb King side p) (to m) = false ->
  Z.testbit (bb Rook side p) home = true ->
  Z.testbit (bb Rook side p) post = false ->
  (Z.testbit (bb King side (makeMove p m)) (to m) = true /\
   Z.testbit (bb King side (makeMove p m)) (from m) = false) /\
  (Z.testbit (bb Rook side (makeMove p m)) post = true /\
   Z.testbit (bb Rook side (makeMove p m)) home = false) /\
  (forall k c, ~ (k = King /\ c = side) -> ~ (k = Rook /\ c = side) ->
               bb k c (makeMove p m) = bb k c p).
Proof.
  intros Hc side home post Hf Ht Hne Kf Kt Rh Rp.
  assert (E : forall k c, bb k c (makeMove p m) = bb k c (castleMove p m)).
  { intros k c. unfold makeMove. now rewrite Hc. }
  assert (Hhp : 0 <= home /\ 0 <= post /\ home <> post).
  { unfold home, post, castleRookSquares.
    destruct (isKingSide m), side; cbn; lia. }
  destruct Hhp as (Hh & Hp & Hhp).
  rewrite !E, !castleMove_boards. cbv zeta. fold side. fold home. fold post.
  split; [|split].
  - rewrite !bb_setBB_other_kind by discriminate. rewrite !bb_setBB_same.
    rewrite !Z.lxor_spec, !Z.lor_spec, !bit_testbit, Kf, Kt, !Z.eqb_refl by assumption.
    destruct (Z.eqb_spec (to m) (from m)); [congruence|].
    destruct (Z.eqb_spec (from m) (to m)); [congruence|]. now split.
  - rewrite !bb_setBB_same. rewrite bb_setBB_other_kind by discriminate.
    rewrite !Z.lxor_spec, !Z.lor_spec, !bit_testbit, Rh, Rp, !Z.eqb_refl by assumption.
    destruct (Z.eqb_spec post home); [congruence|].
    destruct (Z.eqb_spec home post); [congruence|]. now split.
  - intros k c HK HR. rewrite E, castleMove_boards. cbv zeta.
    fold side. fold home. fold post.
    rewrite bb_setBB_other by exact HR. now rewrite bb_setBB_other by exact HK.
Qed.

Lemma castle_relocates_king_and_rook_witness :
  let p := replay [plainMove 12 28; plainMove 52 36; plainMove 6 21; plainMove 57 42;
                   plainMove 5 12; plainMove 62 45] in
  let m := mkMove 4 6 None (Some (str "K")) false in
  Z.testbit (bb King White (makeMove p m)) 6 = true /\
  Z.testbit (bb Rook White (makeMove p m)) 5 = true.
Proof.
  destruct (castle_relocates_king_and_rook
              (replay [plainMove 12 28; plainMove 52 36; plainMove 6 21; plainMove 57 42;
                       plainMove 5 12; plainMove 62 45])
              (mkMove 4 6 None (Some (str "K")) false) eq_refl
              ltac:(cbn; lia) ltac:(cbn; lia) ltac:(cbn; lia)
              ltac:(vm_compute; reflexivity) ltac:(vm_compute; reflexivity)
              ltac:(vm_compute; reflexivity) ltac:(vm_compute; reflexivity))
    as ((K & _) & (R & _) & _).
  split; [exact K | exact R].
Defined.
(** ** The resolver: what a resolved descriptor guarantees *)

Lemma hitsOf_iff (b : Z) (sqs : list Z) (sq : Z) :
  In sq (hitsOf b sqs) <-> In sq sqs /\ nonzero (Z.land b (bit sq)) = true.
Proof.
  unfold hitsOf.
  exact (filter_In (fun s => nonzero (Z.land b (bit s))) sq sqs).
Qed.

Lemma members_iff (b sq : Z) :
  In sq (members b) <-> (0 <= sq < 64) /\ nonzero (Z.land b (bit sq)) = true.
Proof.
  unfold members. rewrite hitsOf_iff. split; intros [H1 H2]; (split; [|exact H2]).
  - exact (proj1 (Forall_forall _ _) squares_on_board sq H1).
  - unfold squares.
    assert (G : forall n lo, lo <= sq < lo + Z.of_nat n -> In sq (range lo n)).
    { induction n as [|n IH]; intros lo Hr; [lia|]. cbn [range].
      destruct (Z.eq_dec sq lo) as [->|]; [now left|]. right. apply IH. lia. }
    apply G. lia.
Qed.

(** The origin [originOf] returns, when it is a square, is a square of the
    candidate set. *)
Lemma originOf_in_candidates (cands masked : Z) (dF dR : option ascii) (fromSq : Z) :
  disambMasked cands dF dR = Ret masked ->
  originOf cands dF dR = Ret fromSq ->
  0 <= fromSq ->
  (0 <= fromSq < 64) /\ nonzero (Z.land cands (bit fromSq)) = true.
Proof.
  intros Hm Ho Hf. rewrite (originOf_members _ _ _ _ Hm) in Ho. injection Ho as Ho.
  destruct (members masked) as [|sq [|sq' ms]] eqn:E.
  - apply (proj1 (members_iff cands fromSq)).
    destruct (members cands) as [|x [|y l]]; [lia | | lia]. left. exact Ho.
  - apply (or_introl (B := In fromSq [])) in Ho. change (In fromSq [sq]) in Ho.
    rewrite <- E in Ho. apply (proj1 (members_iff masked fromSq)) in Ho.
    destruct Ho as [R M]. split; [exact R|].
    apply (disambMasked_subset cands masked dF dR fromSq Hm); [lia | exact M].
  - apply (proj1 (members_iff cands fromSq)).
    destruct (members cands) as [|x [|y l]]; [lia | | lia]. left. exact Ho.
Qed.

Lemma land_testbit_r (a b sq : Z) :
  0 <= sq -> nonzero (Z.land (Z.land a b) (bit sq)) = true -> Z.testbit b sq = true.
Proof.
  intros Hs. rewrite nonzero_land_bit, Z.land_spec by exact Hs.
  intros H. now apply andb_true_iff in H.
Qed.

Lemma bit_hit (s sq : Z) :
  0 <= sq -> nonzero (Z.land (bit s) (bit sq)) = true -> sq = s.
Proof.
  intros Hs. rewrite nonzero_land_bit by exact Hs. intros H.
  destruct (Z.eq_dec sq s) as [E|N]; [exact E|].
  rewrite bit_testbit_other in H by assumption. discriminate.
Qed.

Lemma pawnCandidates_are_pawns (p : Position) (ps : ParsedSAN) (sq : Z) :
  0 <= sq ->
  nonzero (Z.land (pawnCandidates p ps) (bit sq)) = true ->
  Z.testbit (bb Pawn (sideToMove p) p) sq = true.
Proof.
  intros Hs. unfold pawnCandidates. cbv zeta.
  destruct (disambFile ps) as [fc|].
  - rewrite nonzero_land_bit, !Z.land_spec by exact Hs. intros H.
    apply andb_true_iff in H as [H _]. now apply andb_true_iff in H as [_ H].
  - set (one := match sideToMove p with
                | White => targetIndex ps - 8
                | Black => targetIndex ps + 8
                end).
    set (two := match sideToMove p with
                | White => targetIndex ps - 16
                | Black => targetIndex ps + 16
                end).
    destruct (nonzero (Z.land (bb Pawn (sideToMove p) p) (bit one))) eqn:O.
    + intros H. apply bit_hit in H; [|exact Hs]. subst one.
      rewrite <- H in O. now rewrite nonzero_land_bit in O by exact Hs.
    + destruct ((match sideToMove p with
                 | White => Z.quot (targetIndex ps) 8 =? 3
                 | Black => Z.quot (targetIndex ps) 8 =? 4
                 end)
                && nonzero (Z.land (bb Pawn (sideToMove p) p) (bit two))
                && negb (nonzero (Z.land (allOcc p) (bit one)))) eqn:T.
      * intros H. apply bit_hit in H; [|exact Hs]. subst two.
        apply andb_true_iff in T as [T _]. apply andb_true_iff in T as [_ T].
        rewrite <- H in T. now rewrite nonzero_land_bit in T by exact Hs.
      * cbn. discriminate.
Qed.

Lemma candidates_are_named_pieces (p : Position) (ps : ParsedSAN) (cands sq : Z) :
  candidatesOf p ps = Ret cands ->
  0 <= sq ->
  nonzero (Z.land cands (bit sq)) = true ->
  Z.testbit (bb (namedKind ps) (sideToMove p) p) sq = true.
Proof.
  intros Hc Hs. unfold candidatesOf in Hc. unfold namedKind. cbv zeta in Hc.
  destruct (pieceIs ps "K").
  { destruct (tableAt kingAttacks (targetIndex ps)) as [a|]; [|discriminate].
    cbn [bind] in Hc. injection Hc as <-. now apply land_testbit_r. }
  destruct (pieceIs ps "N").
  { destruct (tableAt knightAttacks (targetIndex ps)) as [a|]; [|discriminate].
    cbn [bind] in Hc. injection Hc as <-. now apply land_testbit_r. }
  destruct (pieceIs ps "R"); [injection Hc as <-; now apply land_testbit_r|].
  destruct (pieceIs ps "B"); [injection Hc as <-; now apply land_testbit_r|].
  destruct (pieceIs ps "Q"); [injection Hc as <-; now apply land_testbit_r|].
  injection Hc as <-. now apply pawnCandidates_are_pawns.
Qed.

(** X12.  A descriptor [resolveSAN] returns for a text that is not a castle
    has both squares on the board, its destination is the square the text
    names, and its origin holds a piece of the side to move in the set the
    text names (the pawn set when it names none). *)
Theorem resolved_origin_holds_named_piece (p : Position) (san : jsstring) (m : Move) :
  resolveSAN p san = Ret (Some m) ->
  truthy (castle m) = false ->
  exists ps,
    parseSAN san = Ret (Some ps) /\
    to m = targetIndex ps /\ 0 <= to m < 64 /\ 0 <= from m < 64 /\
    Z.testbit (bb (namedKind ps) (sideToMove p) p) (from m) = true.
Proof.
  intros H Hc. unfold resolveSAN in H.
  destruct (parseSAN_total san) as [E | [ps [E W]]]; rewrite E in H; cbn [bind] in H;
    [discriminate|].
  exists ps. split; [exact E|].
  destruct (truthy (parsedCastle ps)) eqn:C.
  { injection H as <-. cbn [castle] in Hc. congruence. }
  destruct W as [W | [Ht Hr]]; [congruence|].
  destruct (candidatesOf p ps) as [cands|] eqn:Ec; [|discriminate]. cbn [bind] in H.
  destruct (disambMasked_total cands (disambFile ps) (disambRank ps) Hr) as [masked Hm].
  destruct (originOf cands (disambFile ps) (disambRank ps)) as [fromSq|] eqn:Eo;
    [|discriminate].
  cbn [bind] in H. destruct (Z.ltb_spec fromSq 0) as [|Hf]; [discriminate|].
  injection H as <-. cbn [from to buildMove].
  destruct (originOf_in_candidates _ _ _ _ _ Hm Eo Hf) as [R N].
  repeat split; try lia.
  apply (candidates_are_named_pieces p ps cands fromSq Ec); [lia | exact N].
Qed.

Lemma resolved_origin_holds_named_piece_witness :
  exists ps,
    parseSAN (str "Nf3") = Ret (Some ps) /\
    21 = targetIndex ps /\ 0 <= 21 < 64 /\ 0 <= 6 < 64 /\
    Z.testbit (bb (namedKind ps) White reset) 6 = true.
Proof.
  apply (resolved_origin_holds_named_piece reset (str "Nf3") (plainMove 6 21)).
  - vm_compute. reflexivity.
  - reflexivity.
Defined.

(** ** The resolver: white space and castle texts *)

Lemma dropSpaces_blank_app (pre x : jsstring) :
  blank pre -> dropSpaces (pre ++ x) = dropSpaces x.
Proof.
  induction 1 as [|c pre Hc _ IH]; cbn [app dropSpaces]; [reflexivity|].
  now rewrite Hc.
Qed.

Lemma dropSpaces_blank (s : jsstring) : blank s -> dropSpaces s = [].
Proof.
  intros H. rewrite <- (app_nil_r s). now rewrite dropSpaces_blank_app.
Qed.

Lemma dropSpaces_cases (s : jsstring) :
  (blank s /\ dropSpaces s = []) \/
  (exists c r, dropSpaces s = c :: r /\ isSpace c = false /\
               forall t, dropSpaces (s ++ t) = c :: r ++ t).
Proof.
  induction s as [|x s IH].
  - left. split; [constructor | reflexivity].
  - cbn [dropSpaces app]. destruct (isSpace x) eqn:X.
    + destruct IH as [[B E] | (c & r & E & Hc & A)].
      * left. split; [now constructor | exact E].
      * right. exists c, r. repeat split; assumption.
    + right. exists x, s. repeat split. exact X.
Qed.

Lemma blank_rev (s : jsstring) : blank s -> blank (rev s).
Proof.
  unfold blank. rewrite !Forall_forall. intros H c Hc. apply H. now apply in_rev.
Qed.

Lemma blank_app (a b : jsstring) : blank a -> blank b -> blank (a ++ b).
Proof. unfold blank. intros Ha Hb. now apply Forall_app. Qed.

Lemma trim_padding (pre s post : jsstring) :
  blank pre -> blank post -> trim (pre ++ s ++ post) = trim s.
Proof.
  intros Hpre Hpost. unfold trim. rewrite dropSpaces_blank_app by exact Hpre.
  destruct (dropSpaces_cases s) as [[B E] | (c & r & E & Hc & A)].
  - rewrite E. rewrite (dropSpaces_blank (s ++ post)) by now apply blank_app.
    reflexivity.
  - rewrite A, E. f_equal.
    change (c :: r ++ post) with ((c :: r) ++ post). rewrite rev_app_distr.
    apply dropSpaces_blank_app. now apply blank_rev.
Qed.

(** X13.  White space around a text plays no part in its resolution:
    [resolveSAN] returns for the padded text what it returns for the text. *)
Theorem resolveSAN_ignores_padding (p : Position) (pre san post : jsstring) :
  blank pre -> blank post ->
  resolveSAN p (pre ++ san ++ post) = resolveSAN p san.
Proof.
  intros Hpre Hpost. unfold resolveSAN, parseSAN. cbv zeta.
  now rewrite (trim_padding pre san post Hpre Hpost).
Qed.

Lemma resolveSAN_ignores_padding_witness :
  resolveSAN reset (str "  " ++ str "e4" ++ str " ") = resolveSAN reset (str "e4").
Proof.
  apply (resolveSAN_ignores_padding reset (str "  ") (str "e4") (str " ")).
  - repeat constructor.
  - repeat constructor.
Defined.

Lemma parseSAN_castle (san : jsstring) (kingSide : bool) :
  trim san = (if kingSide then str "O-O" else str "O-O-O") ->
  parseSAN san
  = Ret (Some (mkParsed None (-1) None None None
                 (Some (if kingSide then str "K" else str "Q")))).
Proof.
  intros H. unfold parseSAN. cbv zeta. rewrite H. destruct kingSide; reflexivity.
Qed.

(** X14.  The castle texts resolve in every position, whatever stands on
    the board: a text that is "O-O" or "O-O-O" once trimmed gives the
    descriptor from the mover's king square (e1 or e8) to g or c of the same
    rank, with the castle side set; neither king nor rook is looked for. *)
Theorem castle_text_always_resolves (p : Position) (san : jsstring) (kingSide : bool) :
  trim san = (if kingSide then str "O-O" else str "O-O-O") ->
  resolveSAN p san
  = Ret (Some (mkMove (match sideToMove p with White => 4 | Black => 60 end)
                 (match sideToMove p, kingSide with
                  | White, true => 6
                  | Black, true => 62
                  | White, false => 2
                  | Black, false => 58
                  end)
                 None (Some (if kingSide then str "K" else str "Q")) false)).
Proof.
  intros H. unfold resolveSAN. rewrite (parseSAN_castle san kingSide H).
  cbn [bind parsedCastle]. destruct kingSide, (sideToMove p); reflexivity.
Qed.

Lemma castle_text_always_resolves_witness :
  resolveSAN (setBB King White 0 reset) (str " O-O-O ")
  = Ret (Some (mkMove 4 2 None (Some (str "Q")) false)).
Proof.
  apply (castle_text_always_resolves (setBB King White 0 reset) (str " O-O-O ") false).
  reflexivity.
Defined.
(** ** The Zobrist key: when it is defined and what enters it *)

Lemma rightsKnown_spec (cs : jsstring) : rightsKnown cs = true <-> rightsOk cs.
Proof.
  unfold rightsKnown, rightsOk. rewrite forallb_forall, Forall_forall. tauto.
Qed.

Lemma castlingIndex_unknown (c : ascii) :
  is_in (str "KQkq") c = false -> castlingIndex c = None.
Proof.
  unfold is_in, str, castlingIndex. cbn [list_ascii_of_string existsb].
  destruct (c =? "K")%char; [discriminate|].
  destruct (c =? "Q")%char; [discriminate|].
  destruct (c =? "k")%char; [discriminate|].
  destruct (c =? "q")%char; [discriminate|]. reflexivity.
Qed.

Lemma castleKeys_throw (t : ZobristTables) (cs : jsstring) (e : JsError) :
  fold_left (castleKey t) cs (Throw e) = Throw e.
Proof. induction cs as [|c cs IH]; cbn [fold_left]; [reflexivity | exact IH]. Qed.

Lemma castleKeys_unknown (t : ZobristTables) (cs : jsstring) (key : Z) :
  tablesOk t = true -> rightsKnown cs = false ->
  fold_left (castleKey t) cs (Ret key) = Throw TypeError.
Proof.
  intros Hok. revert key. induction cs as [|c cs IH]; intros key H; [discriminate|].
  cbn [fold_left]. unfold rightsKnown in H. cbn [forallb] in H.
  destruct (is_in (str "KQkq") c) eqn:E.
  - unfold castleKey at 2. cbn [bind].
    destruct (rightKey_valid t Hok c E) as [-> _]. cbn [xorKey]. now apply IH.
  - unfold castleKey at 2. cbn [bind]. rewrite (castlingIndex_unknown c E).
    cbn [xorKey]. apply castleKeys_throw.
Qed.

Lemma zobristKeyWith_unknown (t : ZobristTables) (p : Position) :
  tablesOk t = true -> rightsKnown (castling p) = false ->
  zobristKeyWith t p = Throw TypeError.
Proof.
  intros Hok H. unfold zobristKeyWith.
  destruct (squaresKey_ret t Hok p squares 0 (squares_on_board) ltac:(lia)) as [pk [-> _]].
  cbn [bind]. now rewrite castleKeys_unknown.
Qed.

(** The key of a position with a known castling field is the exclusive or
    of four parts: pieces, side, rights, en-passant file. *)
Lemma zobristKeyWith_parts (t : ZobristTables) (p : Position) :
  tablesOk t = true -> rightsOk (castling p) ->
  exists pk,
    fold_left (squareKey t p) squares (Ret 0) = Ret pk /\
    zobristKeyWith t p
    = Ret (Z.lxor (Z.lxor (Z.lxor pk (sideKey t (sideToMove p)))
                     (rightsKey t (castling p))) (epKey t (enPassant p))) /\
    0 <= Z.lxor (Z.lxor (Z.lxor pk (sideKey t (sideToMove p)))
                   (rightsKey t (castling p))) (epKey t (enPassant p)) < 2 ^ 64.
Proof.
  intros Hok Hr.
  destruct (zobristKeyWith_ret t Hok p Hr) as (pk & key & Ep & K & Hk & F).
  exists pk. split; [exact Ep|].
  assert (S : (match sideToMove p with
               | Black => Z.lxor pk (ZOBRIST_SIDE t)
               | White => pk
               end) = Z.lxor pk (sideKey t (sideToMove p))).
  { unfold sideKey. destruct (sideToMove p); [now rewrite Z.lxor_0_r | reflexivity]. }
  rewrite S in F. unfold epKey.
  destruct (tables_facts t Hok) as (_ & _ & _ & _ & _ & L & _).
  destruct (Z.leb_spec 0 (enPassant p)) as [He|He].
  - assert (R : 0 <= Z.rem (enPassant p) 8 < 8) by (apply Z.rem_bound_pos; lia).
    rewrite lookup_nth in F by lia. cbn [xorKey] in F. injection F as F.
    rewrite F. split; [exact K | exact Hk].
  - injection F as F. rewrite Z.lxor_0_r, F. split; [exact K | exact Hk].
Qed.

Lemma getZobristKey_cases (p : Position) :
  (rightsKnown (castling p) = true /\
   exists key, getZobristKey p = Ret key /\ 0 <= key < 2 ^ 64) \/
  (rightsKnown (castling p) = false /\ getZobristKey p = Throw TypeError).
Proof.
  destruct (rightsKnown (castling p)) eqn:E.
  - left. split; [reflexivity|]. apply rightsKnown_spec in E.
    destruct (zobristKeyWith_parts zobrist p zobrist_ok E) as (pk & _ & K & R).
    eexists. split; [exact K | exact R].
  - right. split; [reflexivity|]. now apply zobristKeyWith_unknown; [apply zobrist_ok|].
Qed.

(** X15.  [getZobristKey] returns a key exactly when the castling field
    holds letters of "KQkq" only, and the key is then a 64-bit value; a
    field with any other character makes it throw a [TypeError]. *)
Theorem zobrist_key_defined_iff_rights_known (p : Position) :
  ((exists key, getZobristKey p = Ret key) <-> rightsOk (castling p)) /\
  (getZobristKey p = Throw TypeError <-> ~ rightsOk (castling p)) /\
  (forall key, getZobristKey p = Ret key -> 0 <= key < 2 ^ 64).
Proof.
  destruct (getZobristKey_cases p) as [[E (key & K & R)] | [E K]].
  - apply rightsKnown_spec in E. rewrite K. repeat split.
    + intros _. exact E.
    + intros _. now exists key.
    + discriminate.
    + intros N. now destruct N.
    + injection H as <-. apply R.
    + injection H as <-. apply R.
  - assert (N : ~ rightsOk (castling p)).
    { intros H. apply rightsKnown_spec in H. congruence. }
    rewrite K. repeat split; try discriminate.
    + intros [key Hk]. discriminate.
    + intros H. now destruct N.
    + intros _. exact N.
Qed.

Lemma rightsOk_after_moves (ms : list Move) (p : Position) :
  rightsOk (castling p) -> rightsOk (castling (fold_left makeMove ms p)).
Proof.
  revert p. induction ms as [|m ms IH]; intros p H; cbn [fold_left]; [exact H|].
  apply IH. unfold rightsOk in *. rewrite Forall_forall in *.
  intros c Hc. apply H. now apply (castling_makeMove_incl p m).
Qed.

(** X16.  A position whose key is defined keeps a defined key under the
    move applicator: after any sequence of descriptors, whatever their
    squares, [getZobristKey] still returns a 64-bit value. *)
Theorem zobrist_key_survives_moves (p : Position) (ms : list Move) (key : Z) :
  getZobristKey p = Ret key ->
  exists key',
    getZobristKey (fold_left makeMove ms p) = Ret key' /\ 0 <= key' < 2 ^ 64.
Proof.
  intros K.
  assert (H : rightsOk (castling p)).
  { destruct (getZobristKey_cases p) as [[E _] | [_ E]]; [|congruence].
    now apply rightsKnown_spec. }
  apply (rightsOk_after_moves ms) in H. apply rightsKnown_spec in H.
  destruct (getZobristKey_cases (fold_left makeMove ms p)) as [[_ R] | [E _]];
    [exact R | congruence].
Qed.

Lemma zobrist_key_survives_moves_witness :
  exists key',
    getZobristKey (fold_left makeMove [plainMove 12 28; plainMove 200 (-3)] reset)
    = Ret key' /\ 0 <= key' < 2 ^ 64.
Proof.
  apply (zobrist_key_survives_moves reset [plainMove 12 28; plainMove 200 (-3)]
           9378890931641481496).
  vm_compute. reflexivity.
Defined.

Lemma squaresKey_setSideToMove (t : ZobristTables) (c : Color) (p : Position) :
  fold_left (squareKey t (setSideToMove c p)) squares (Ret 0)
  = fold_left (squareKey t p) squares (Ret 0).
Proof. apply squaresKey_placement. intros k col. destruct k; reflexivity. Qed.

Lemma squaresKey_setEnPassant (t : ZobristTables) (e : Z) (p : Position) :
  fold_left (squareKey t (setEnPassant e p)) squares (Ret 0)
  = fold_left (squareKey t p) squares (Ret 0).
Proof. apply squaresKey_placement. intros k col. destruct k; reflexivity. Qed.

Lemma lxor_differs (a b : Z) : b <> 0 -> Z.lxor a b <> a.
Proof.
  intros Hb H. apply Hb.
  assert (E : Z.lxor a (Z.lxor a b) = b).
  { rewrite <- Z.lxor_assoc, Z.lxor_nilpotent. apply Z.lxor_0_l. }
  rewrite H, Z.lxor_nilpotent in E. now symmetry.
Qed.

Lemma sideKey_opp (c : Color) (a : Z) :
  Z.lxor a (sideKey zobrist (opp c))
  = Z.lxor (Z.lxor a (sideKey zobrist c)) (ZOBRIST_SIDE zobrist).
Proof.
  destruct c; cbn [opp sideKey].
  - now rewrite Z.lxor_0_r.
  - now rewrite Z.lxor_assoc, Z.lxor_nilpotent, !Z.lxor_0_r.
Qed.

Lemma lxor_move_last (a b c d : Z) :
  Z.lxor (Z.lxor (Z.lxor a d) b) c = Z.lxor (Z.lxor (Z.lxor a b) c) d.
Proof.
  rewrite !Z.lxor_assoc. f_equal. rewrite <- !Z.lxor_assoc.
  rewrite (Z.lxor_comm d b). rewrite !Z.lxor_assoc. f_equal. apply Z.lxor_comm.
Qed.

(** X17.  The side to move enters the key: handing the move to the other
    side, with everything else as it is, changes the key by the side
    constant, and so to a different key. *)
Theorem zobrist_key_tells_side (p : Position) :
  rightsOk (castling p) ->
  exists key,
    getZobristKey p = Ret key /\
    getZobristKey (setSideToMove (opp (sideToMove p)) p)
    = Ret (Z.lxor key (ZOBRIST_SIDE zobrist)) /\
    Z.lxor key (ZOBRIST_SIDE zobrist) <> key.
Proof.
  intros Hr. unfold getZobristKey.
  destruct (zobristKeyWith_parts zobrist p zobrist_ok Hr) as (pk & Ep & K & _).
  destruct (zobristKeyWith_parts zobrist (setSideToMove (opp (sideToMove p)) p)
              zobrist_ok Hr) as (pk' & Ep' & K' & _).
  rewrite squaresKey_setSideToMove, Ep in Ep'. injection Ep' as <-.
  eexists. split; [exact K|]. split.
  - rewrite K'. cbn [sideToMove castling enPassant setSideToMove]. f_equal.
    rewrite sideKey_opp. apply lxor_move_last.
  - apply lxor_differs. vm_compute. discriminate.
Qed.

Lemma zobrist_key_tells_side_witness :
  exists key,
    getZobristKey reset = Ret key /\
    getZobristKey (setSideToMove (opp (sideToMove reset)) reset)
    = Ret (Z.lxor key (ZOBRIST_SIDE zobrist)) /\
    Z.lxor key (ZOBRIST_SIDE zobrist) <> key.
Proof.
  apply (zobrist_key_tells_side reset). vm_compute. repeat constructor.
Defined.

Lemma epKey_file (e1 e2 : Z) :
  0 <= e1 -> 0 <= e2 -> Z.rem e1 8 = Z.rem e2 8 -> epKey zobrist e1 = epKey zobrist e2.
Proof.
  intros H1 H2 E. unfold epKey.
  destruct (Z.leb_spec 0 e1); [|lia]. destruct (Z.leb_spec 0 e2); [|lia].
  now rewrite E.
Qed.

Lemma epKey_nonzero (e : Z) : 0 <= e -> epKey zobrist e <> 0.
Proof.
  intros H. unfold epKey. destruct (Z.leb_spec 0 e); [|lia].
  assert (R : 0 <= Z.rem e 8 < 8) by (apply Z.rem_bound_pos; lia).
  pose (ok := fun f => negb (nth (Z.to_nat f) (ZOBRIST_EP zobrist) 0 =? 0)).
  assert (A : forallb ok (range 0 8) = true) by (vm_compute; reflexivity).
  assert (G : ok (Z.rem e 8) = true).
  { apply (range_forallb ok 0 8); [exact A | lia]. }
  unfold ok in G. apply negb_true_iff in G. now apply Z.eqb_neq in G.
Qed.

(** X18.  The en-passant square enters the key through its file alone: two
    en-passant squares on one file give the same key, and a position with an
    en-passant square has a key different from the same position without. *)
Theorem zobrist_key_tells_en_passant_file (p : Position) (e1 e2 : Z) :
  rightsOk (castling p) -> 0 <= e1 -> 0 <= e2 -> Z.rem e1 8 = Z.rem e2 8 ->
  exists key,
    getZobristKey (setEnPassant e1 p) = Ret key /\
    getZobristKey (setEnPassant e2 p) = Ret key /\
    getZobristKey (setEnPassant (-1) p) <> Ret key.
Proof.
  intros Hr H1 H2 E. unfold getZobristKey.
  destruct (zobristKeyWith_parts zobrist (setEnPassant e1 p) zobrist_ok Hr)
    as (pk1 & Ep1 & K1 & _).
  destruct (zobristKeyWith_parts zobrist (setEnPassant e2 p) zobrist_ok Hr)
    as (pk2 & Ep2 & K2 & _).
  destruct (zobristKeyWith_parts zobrist (setEnPassant (-1) p) zobrist_ok Hr)
    as (pk0 & Ep0 & K0 & _).
  rewrite squaresKey_setEnPassant in Ep1, Ep2, Ep0.
  rewrite Ep1 in Ep2, Ep0. injection Ep2 as <-. injection Ep0 as <-.
  cbn [sideToMove castling enPassant setEnPassant] in K1, K2, K0.
  eexists. split; [exact K1|]. split.
  - rewrite K2. now rewrite (epKey_file e1 e2 H1 H2 E).
  - rewrite K0. intros F. injection F as F.
    change (epKey zobrist (-1)) with 0 in F. rewrite Z.lxor_0_r in F.
    symmetry in F. revert F. apply lxor_differs. now apply epKey_nonzero.
Qed.

Lemma zobrist_key_tells_en_passant_file_witness :
  exists key,
    getZobristKey (setEnPassant 20 reset) = Ret key /\
    getZobristKey (setEnPassant 44 reset) = Ret key /\
    getZobristKey (setEnPassant (-1) reset) <> Ret key.
Proof.
  apply (zobrist_key_tells_en_passant_file reset 20 44).
  - vm_compute. repeat constructor.
  - lia.
  - lia.
  - reflexivity.
Defined.
(** ** FEN import: the board it builds *)

Lemma piece_eq_dec (k k' : Kind) (c c' : Color) :
  (k = k' /\ c = c') \/ ~ (k = k' /\ c = c').
Proof.
  destruct (Ascii.eqb (letterOf k c) (letterOf k' c')) eqn:E.
  - left. now apply letterOf_inj.
  - right. intros [-> ->]. rewrite Ascii.eqb_refl in E. discriminate.
Qed.










(** ** FEN export and import: the round trip of the position *)















Lemma pieceAt_ext (P Q : Position) (sq : Z) :
  (forall k c, bb k c Q = bb k c P) -> pieceAt Q sq = pieceAt P sq.
Proof. intros H. unfold pieceAt, check. now rewrite !H. Qed.



(** ** Attack tables *)

Lemma testbit_off_board (v t : Z) :
  is64 v = true -> onBoard t = false -> Z.testbit v t = false.
Proof.
  intros Hv Ht. apply is64_spec in Hv. unfold onBoard in Ht.
  destruct (Z.leb_spec 0 t) as [H0|H0]; [|now apply Z.testbit_neg_r].
  destruct (Z.ltb_spec t 64) as [H1|H1]; [discriminate|].
  destruct (Z.eq_dec v 0) as [->|Hz]; [apply Z.bits_0|].
  apply Z.bits_above_log2; [lia|].
  assert (Z.log2 v < 64) by (apply Z.log2_lt_pow2; lia). lia.
Qed.

Lemma onBoard_spec (t : Z) : onBoard t = true <-> 0 <= t < 64.
Proof. unfold onBoard. rewrite andb_true_iff, Z.leb_le, Z.ltb_lt. tauto. Qed.

(** A table whose entries are 64-bit values with the bits a test names. *)
Lemma table_bits (tbl : list Z) (hop : Z -> Z -> bool) (sq : Z) :
  forallb (fun s =>
             match lookup tbl s with
             | Some v =>
                 is64 v && forallb (fun t => Bool.eqb (Z.testbit v t) (hop s t)) squares
             | None => false
             end) squares = true ->
  0 <= sq < 64 ->
  exists v, lookup tbl sq = Some v /\
            forall t, Z.testbit v t = onBoard t && hop sq t.
Proof.
  intros C Hsq.
  pose (ok := fun s =>
                match lookup tbl s with
                | Some v =>
                    is64 v && forallb (fun t => Bool.eqb (Z.testbit v t) (hop s t)) squares
                | None => false
                end).
  assert (G : ok sq = true) by (apply (range_forallb ok 0 64); [exact C | lia]).
  unfold ok in G. destruct (lookup tbl sq) as [v|]; [|discriminate].
  apply andb_true_iff in G as [V B]. exists v. split; [reflexivity|].
  intros t. destruct (onBoard t) eqn:T; cbn [andb].
  - apply onBoard_spec in T.
    pose (okt := fun t => Bool.eqb (Z.testbit v t) (hop sq t)).
    assert (Gt : okt t = true) by (apply (range_forallb okt 0 64); [exact B | lia]).
    unfold okt in Gt. now apply eqb_prop in Gt.
  - now apply testbit_off_board.
Qed.

(** X22.  The step tables hold the moves of the pieces: for every square
    of the board, the knight table has exactly the squares of the board one
    file and two ranks, or two files and one rank, away, and the king table
    exactly the squares of the board at distance one. *)
Theorem step_tables_hold_the_moves (sq : Z) :
  0 <= sq < 64 ->
  exists kn kg,
    tableAt knightAttacks sq = Ret kn /\ tableAt kingAttacks sq = Ret kg /\
    (forall t, Z.testbit kn t = onBoard t && knightHop sq t) /\
    (forall t, Z.testbit kg t = onBoard t && kingStep sq t).
Proof.
  intros Hsq.
  destruct (table_bits knightAttacks knightHop sq) as (kn & En & Hn);
    [vm_compute; reflexivity | exact Hsq |].
  destruct (table_bits kingAttacks kingStep sq) as (kg & Eg & Hg);
    [vm_compute; reflexivity | exact Hsq |].
  exists kn, kg. unfold tableAt. rewrite En, Eg. repeat split; assumption.
Qed.

Lemma step_tables_hold_the_moves_witness :
  exists kn kg,
    tableAt knightAttacks 0 = Ret kn /\ tableAt kingAttacks 0 = Ret kg /\
    (forall t, Z.testbit kn t = onBoard t && knightHop 0 t) /\
    (forall t, Z.testbit kg t = onBoard t && kingStep 0 t).
Proof. apply (step_tables_hold_the_moves 0). lia. Defined.

(** X23.  The squares from which a pawn captures onto a square are the
    squares whose pawn attacks it: for squares of the board,
    [pawnCaptureSources(to, c)] holds [from] exactly when [to] is one rank
    ahead of [from] for colour [c] and one file aside, which is also when
    the table entry [pawnAttacks[c][from]] holds [to]; and it holds no
    square off the board. *)
Theorem pawn_capture_sources_mirror_attacks (c : Color) (toSq fromSq : Z) :
  0 <= toSq < 64 ->
  Z.testbit (pawnCaptureSources toSq c) fromSq
  = onBoard fromSq && pawnHits c fromSq toSq /\
  (0 <= fromSq < 64 ->
   exists row v,
     lookup pawnAttacks (colorIndex c) = Some row /\ lookup row fromSq = Some v /\
     Z.testbit v toSq = pawnHits c fromSq toSq).
Proof.
  intros Ht. split.
  - destruct (table_bits (map (fun s => pawnCaptureSources s c) squares)
                (fun s t => pawnHits c t s) toSq) as (v & Ev & Hv);
      [destruct c; vm_compute; reflexivity | exact Ht |].
    assert (E : v = pawnCaptureSources toSq c).
    { unfold lookup in Ev. destruct (Z.ltb_spec toSq 0); [lia|].
      rewrite nth_error_map in Ev.
      destruct (nth_error squares (Z.to_nat toSq)) as [s|] eqn:Es; [|discriminate].
      injection Ev as <-. f_equal. unfold squares in Es.
      assert (G : forall n lo i x, nth_error (range lo n) i = Some x -> x = lo + Z.of_nat i).
      { induction n as [|n IH]; intros lo i x; destruct i; cbn [range nth_error];
          try discriminate.
        - intros Hx; injection Hx as <-. lia.
        - intros Hx. apply IH in Hx. lia. }
      apply G in Es. lia. }
    subst v. apply Hv.
  - intros Hf.
    destruct (table_bits (map (pawnAttacksAt c) squares) (pawnHits c) fromSq)
      as (v & Ev & Hv); [destruct c; vm_compute; reflexivity | exact Hf |].
    exists (map (pawnAttacksAt c) squares), v. split; [destruct c; reflexivity|].
    split; [exact Ev|]. rewrite Hv.
    destruct (onBoard toSq) eqn:O; [reflexivity|].
    apply not_true_iff_false in O. exfalso. apply O. now apply onBoard_spec.
Qed.

Lemma pawn_capture_sources_mirror_attacks_witness :
  Z.testbit (pawnCaptureSources 28 White) 19 = onBoard 19 && pawnHits White 19 28 /\
  (0 <= 19 < 64 ->
   exists row v,
     lookup pawnAttacks (colorIndex White) = Some row /\ lookup row 19 = Some v /\
     Z.testbit v 28 = pawnHits White 19 28).
Proof. apply (pawn_capture_sources_mirror_attacks White 28 19). lia. Defined.
(** ** Sliding attacks *)

Lemma listZ_eqb_eq (a b : list Z) : listZ_eqb a b = true -> a = b.
Proof.
  revert b. induction a as [|x a IH]; intros [|y b]; cbn [listZ_eqb];
    try discriminate; [reflexivity|].
  intros H. apply andb_true_iff in H as [H1 H2]. apply Z.eqb_eq in H1.
  now rewrite H1, (IH b H2).
Qed.

Lemma paths_eqb_eq (a b : list (list Z)) : paths_eqb a b = true -> a = b.
Proof.
  revert b. induction a as [|x a IH]; intros [|y b]; cbn [paths_eqb];
    try discriminate; [reflexivity|].
  intros H. apply andb_true_iff in H as [H1 H2]. apply listZ_eqb_eq in H1.
  now rewrite H1, (IH b H2).
Qed.

(** A ray attacks [t] when [t] is on it and the squares before are empty. *)
Lemma castRay_bits (occ : Z) (ray : list Z) (t : Z) :
  Forall (fun s => 0 <= s) ray ->
  Z.testbit (castRay occ ray) t
  = match prefixBefore t ray with
    | Some pre => emptyOn occ pre
    | None => false
    end.
Proof.
  induction 1 as [|s ray Hs _ IH]; cbn [castRay prefixBefore]; [apply Z.bits_0|].
  rewrite Z.lor_spec, bit_testbit, nonzero_land_bit by exact Hs.
  destruct (Z.eqb_spec t s) as [->|Hne]; [reflexivity|]. cbn [orb].
  destruct (Z.testbit occ s) eqn:O.
  - rewrite Z.bits_0. destruct (prefixBefore t ray); cbn [emptyOn forallb]; [|reflexivity].
    now rewrite O.
  - rewrite IH. destruct (prefixBefore t ray); cbn [emptyOn forallb]; [|reflexivity].
    now rewrite O.
Qed.

Lemma castRays_bits (occ : Z) (rays : list (list Z)) (t : Z) :
  Forall (Forall (fun s => 0 <= s)) rays ->
  existsb (fun ray => Z.testbit (castRay occ ray) t) rays
  = existsb (emptyOn occ) (prefixesTo t rays).
Proof.
  induction 1 as [|ray rays Hr _ IH]; cbn [existsb prefixesTo]; [reflexivity|].
  rewrite castRay_bits by exact Hr.
  destruct (prefixBefore t ray); cbn [existsb]; now rewrite IH.
Qed.

Lemma getRookAttacks_rays (sq occ t : Z) :
  Z.testbit (getRookAttacks sq occ) t
  = existsb (fun ray => Z.testbit (castRay occ ray) t) (rookRays sq).
Proof.
  unfold getRookAttacks, rookRays. cbv zeta. cbn [existsb].
  rewrite !Z.lor_spec, orb_false_r, !orb_assoc. reflexivity.
Qed.

Lemma getBishopAttacks_rays (sq occ t : Z) :
  Z.testbit (getBishopAttacks sq occ) t
  = existsb (fun ray => Z.testbit (castRay occ ray) t) (bishopRays sq).
Proof.
  unfold getBishopAttacks, bishopRays. cbv zeta. cbn [existsb].
  rewrite !Z.lor_spec, orb_false_r, !orb_assoc. reflexivity.
Qed.

Lemma prefixBefore_absent (t : Z) (ray : list Z) :
  ~ In t ray -> prefixBefore t ray = None.
Proof.
  induction ray as [|s ray IH]; cbn [prefixBefore In]; [reflexivity|].
  intros N. destruct (Z.eqb_spec t s) as [->|_]; [exfalso; apply N; now left|].
  rewrite IH; [reflexivity|]. intros H. apply N. now right.
Qed.

Lemma prefixesTo_absent (t : Z) (rays : list (list Z)) :
  Forall (fun ray => ~ In t ray) rays -> prefixesTo t rays = [].
Proof.
  induction 1 as [|ray rays Hr _ IH]; cbn [prefixesTo]; [reflexivity|].
  now rewrite (prefixBefore_absent t ray Hr).
Qed.

Lemma rays_bits (rays : Z -> list (list Z)) (step : Z -> Z -> option Z) (occ sq t : Z) :
  forallb (raysOk rays step) squares = true ->
  0 <= sq < 64 ->
  existsb (fun ray => Z.testbit (castRay occ ray) t) (rays sq)
  = onBoard t && seenAlong occ sq t (step sq t).
Proof.
  intros C Hsq.
  assert (G : raysOk rays step sq = true) by (apply (range_forallb _ 0 64); [exact C | lia]).
  unfold raysOk in G. apply andb_true_iff in G as [B P].
  assert (F : forall ray s, In ray (rays sq) -> In s ray -> 0 <= s < 64).
  { intros ray s Hray Hs. rewrite forallb_forall in B. specialize (B ray Hray).
    rewrite forallb_forall in B. now apply onBoard_spec, B. }
  rewrite castRays_bits.
  2:{ apply Forall_forall. intros ray Hray. apply Forall_forall. intros s Hs.
      apply (F ray s Hray Hs). }
  destruct (onBoard t) eqn:T; cbn [andb].
  - apply onBoard_spec in T.
    pose (ok := fun t => paths_eqb (prefixesTo t (rays sq)) (pathsOf sq t (step sq t))).
    assert (E : ok t = true) by (apply (range_forallb ok 0 64); [exact P | lia]).
    unfold ok in E. apply paths_eqb_eq in E. rewrite E.
    destruct (step sq t); cbn [pathsOf existsb seenAlong]; [apply orb_false_r | reflexivity].
  - rewrite prefixesTo_absent; [reflexivity|].
    apply Forall_forall. intros ray Hray Hin.
    apply (F ray t Hray) in Hin. apply onBoard_spec in Hin. congruence.
Qed.

(** X24.  The sliding attacks follow the lines: from a square of the
    board, [getRookAttacks] holds exactly the other squares of the board on
    its rank or file, and [getBishopAttacks] exactly those on its diagonals,
    with no piece of the occupancy strictly in between; the first piece met
    on a line is attacked, the squares behind it are not. *)
Theorem sliding_attacks_follow_the_lines (occ sq t : Z) :
  0 <= sq < 64 ->
  Z.testbit (getRookAttacks sq occ) t
  = onBoard t && seenAlong occ sq t (rookStep sq t) /\
  Z.testbit (getBishopAttacks sq occ) t
  = onBoard t && seenAlong occ sq t (bishopStep sq t).
Proof.
  intros Hsq. split.
  - rewrite getRookAttacks_rays. apply rays_bits; [vm_compute; reflexivity | exact Hsq].
  - rewrite getBishopAttacks_rays. apply rays_bits; [vm_compute; reflexivity | exact Hsq].
Qed.

Lemma sliding_attacks_follow_the_lines_witness :
  Z.testbit (getRookAttacks 0 (allOcc reset)) 8
  = onBoard 8 && seenAlong (allOcc reset) 0 8 (rookStep 0 8) /\
  Z.testbit (getBishopAttacks 0 (allOcc reset)) 8
  = onBoard 8 && seenAlong (allOcc reset) 0 8 (bishopStep 0 8).
Proof. apply (sliding_attacks_follow_the_lines (allOcc reset) 0 8). lia. Defined.
(** ** The two engines: random numbers, tables and keys *)

















Lemma Ret_inj {A} (a b : A) : Ret a = Ret b -> a = b.
Proof. intros H. now injection H. Qed.

Lemma native_tables : NativeZobrist.init_tables = zobrist.
Proof. vm_compute. reflexivity. Qed.

Lemma lookup_some_nth {A} (l : list A) (i : Z) (v d : A) :
  lookup l i = Some v -> nth (Z.to_nat i) l d = v.
Proof.
  unfold lookup. destruct (i <? 0); [discriminate|]. apply nth_error_nth.
Qed.

Lemma native_squareKey (t : ZobristTables) (p : Position) (key sq : Z) :
  tablesOk t = true -> 0 <= sq < 64 ->
  squareKey t p (Ret key) sq = Ret (NativeZobrist.squareKey t p key sq).
Proof.
  intros Hok Hsq. unfold squareKey, NativeZobrist.squareKey. cbn [bind].
  destruct (pieceTypeAt p (bit sq) pieceSets) as [pt|] eqn:E; [|reflexivity].
  apply (pieceTypeAt_range _ _ _ _ pieceSets_range) in E.
  destruct (piece_key t Hok sq pt Hsq E) as [v [L _]].
  destruct (lookup (ZOBRIST_PIECES t) sq) as [row|] eqn:R; [|discriminate].
  rewrite L. cbn [xorKey].
  rewrite (lookup_some_nth _ _ row [] R), (lookup_some_nth _ _ v 0 L). reflexivity.
Qed.

Lemma native_squares (t : ZobristTables) (p : Position) (sqs : list Z) (key : Z) :
  tablesOk t = true -> Forall (fun sq => 0 <= sq < 64) sqs ->
  fold_left (squareKey t p) sqs (Ret key)
  = Ret (fold_left (NativeZobrist.squareKey t p) sqs key).
Proof.
  intros Hok H. revert key. induction H as [|sq sqs Hsq _ IH]; intros key;
    cbn [fold_left]; [reflexivity|].
  now rewrite native_squareKey, IH.
Qed.

(** The castling loop of the native engine adds the key of each right it
    knows, and nothing for any other character. *)
Lemma native_castleKey (t : ZobristTables) (key : Z) (c : ascii) :
  NativeZobrist.castleKey t key c = Z.lxor key (rightKey t c).
Proof.
  unfold NativeZobrist.castleKey, rightKey, castlingIndex.
  destruct (c =? "K")%char; [reflexivity|].
  destruct (c =? "Q")%char; [reflexivity|].
  destruct (c =? "k")%char; [reflexivity|].
  destruct (c =? "q")%char; [reflexivity|].
  now rewrite Z.lxor_0_r.
Qed.

Lemma native_castleKeys (t : ZobristTables) (cs : jsstring) (key : Z) :
  fold_left (NativeZobrist.castleKey t) cs key = Z.lxor key (rightsKey t cs).
Proof.
  revert key. induction cs as [|c cs IH]; intros key; cbn [fold_left].
  - cbn. now rewrite Z.lxor_0_r.
  - rewrite IH, native_castleKey, rightsKey_cons. now rewrite Z.lxor_assoc.
Qed.

Lemma native_key_parts (t : ZobristTables) (p : Position) :
  NativeZobrist.get_zobrist_key t p
  = (let key :=
       Z.lxor (Z.lxor (Z.lxor (fold_left (NativeZobrist.squareKey t p) squares 0)
                         (sideKey t (sideToMove p)))
                 (rightsKey t (castling p))) (epKey t (enPassant p)) in
     (Z.land key 0xffffffff, Z.shiftr key 32)).
Proof.
  unfold NativeZobrist.get_zobrist_key. cbv zeta. rewrite native_castleKeys.
  assert (S : (match sideToMove p with
               | Black => Z.lxor (fold_left (NativeZobrist.squareKey t p) squares 0)
                            (ZOBRIST_SIDE t)
               | White => fold_left (NativeZobrist.squareKey t p) squares 0
               end)
              = Z.lxor (fold_left (NativeZobrist.squareKey t p) squares 0)
                  (sideKey t (sideToMove p))).
  { unfold sideKey. destruct (sideToMove p); [now rewrite Z.lxor_0_r | reflexivity]. }
  rewrite S. unfold epKey. destruct (0 <=? enPassant p); [reflexivity|].
  now rewrite Z.lxor_0_r.
Qed.

(** X26.  The two engines compute the same key: whenever the script's
    [getZobristKey] returns a key, the native [get_zobrist_key], on the
    tables its own generator fills, writes the low 32 bits and the rest of
    that key. *)
Theorem native_key_is_the_key (p : Position) (key : Z) :
  getZobristKey p = Ret key ->
  NativeZobrist.get_zobrist_key NativeZobrist.init_tables p
  = (Z.land key 0xffffffff, Z.shiftr key 32).
Proof.
  intros K. rewrite native_tables, native_key_parts. cbv zeta.
  assert (Hr : rightsOk (castling p)).
  { destruct (getZobristKey_cases p) as [[E _] | [_ E]]; [|congruence].
    now apply rightsKnown_spec. }
  destruct (zobristKeyWith_parts zobrist p zobrist_ok Hr) as (pk & Ep & K' & _).
  unfold getZobristKey in K. rewrite K' in K. injection K as <-.
  rewrite (native_squares zobrist p squares 0 zobrist_ok squares_on_board) in Ep.
  apply Ret_inj in Ep. rewrite Ep. reflexivity.
Qed.

Lemma native_key_is_the_key_witness :
  NativeZobrist.get_zobrist_key NativeZobrist.init_tables reset
  = (Z.land 9378890931641481496 0xffffffff, Z.shiftr 9378890931641481496 32).
Proof.
  apply (native_key_is_the_key reset 9378890931641481496). vm_compute. reflexivity.
Defined.

(** X27.  Where the engines part on the key: the native engine skips a
    castling character it does not know, so on every position it writes the
    key of the position without those characters, where the script throws. *)
Theorem native_key_skips_unknown_rights (p : Position) :
  NativeZobrist.get_zobrist_key NativeZobrist.init_tables p
  = NativeZobrist.get_zobrist_key NativeZobrist.init_tables
      (setCastling (filter (is_in (str "KQkq")) (castling p)) p).
Proof.
  rewrite native_tables, !native_key_parts. cbv zeta.
  cbn [sideToMove castling enPassant setCastling].
  assert (R : rightsKey zobrist (filter (is_in (str "KQkq")) (castling p))
              = rightsKey zobrist (castling p)).
  { induction (castling p) as [|c cs IH]; [reflexivity|]. cbn [filter].
    destruct (is_in (str "KQkq") c) eqn:E.
    - now rewrite !rightsKey_cons, IH.
    - rewrite rightsKey_cons, IH. unfold rightKey.
      rewrite (castlingIndex_unknown c E). apply Z.lxor_0_l. }
  rewrite R.
  assert (S : fold_left (NativeZobrist.squareKey zobrist
                           (setCastling (filter (is_in (str "KQkq")) (castling p)) p))
                squares 0
              = fold_left (NativeZobrist.squareKey zobrist p) squares 0).
  { generalize 0. induction squares as [|sq sqs IH]; intros z; cbn [fold_left];
      [reflexivity|].
    rewrite IH. reflexivity. }
  now rewrite S.
Qed.
(** ** The two engines: the move applicator *)

Lemma boards64_of_range (p : Position) :
  (forall k c, 0 <= bb k c p < 2 ^ 64) -> boards64 p.
Proof.
  intros H k c n Hn. apply testbit_off_board.
  - apply is64_spec, H.
  - unfold onBoard. destruct (Z.ltb_spec n 64); [lia|]. apply andb_false_r.
Qed.

Lemma boards64_setBB (k : Kind) (c : Color) (v : Z) (p : Position) :
  boards64 p -> (forall n, 64 <= n -> Z.testbit v n = false) ->
  boards64 (setBB k c v p).
Proof.
  intros B V k' c' n Hn. destruct (piece_eq_dec k' k c' c) as [[-> ->]|N].
  - rewrite bb_setBB_same. now apply V.
  - rewrite bb_setBB_other by exact N. now apply B.
Qed.

Lemma land_cnot (b x : Z) :
  (forall n, 64 <= n -> Z.testbit b n = false) ->
  Z.land b (NativeMove.cnot x) = Z.land b (Z.lnot x).
Proof.
  intros B. apply Z.bits_inj'. intros n Hn. unfold NativeMove.cnot.
  rewrite !Z.land_spec, Z.lxor_spec, Z.lnot_spec by exact Hn.
  change (2 ^ 64 - 1) with (Z.ones 64).
  destruct (Z.ltb_spec n 64) as [L|L].
  - rewrite Z.ones_spec_low by lia. now rewrite xorb_true_r.
  - rewrite (B n L). reflexivity.
Qed.

Lemma boards64_removeAt (enemy : Color) (t : Z) (ks : list Kind) (p : Position) :
  boards64 p -> boards64 (fold_left (removeAt enemy t) ks p).
Proof.
  revert p. induction ks as [|k ks IH]; intros p B; cbn [fold_left]; [exact B|].
  apply IH. unfold removeAt. apply boards64_setBB; [exact B|].
  intros n Hn. now rewrite Z.land_spec, (B k enemy n Hn).
Qed.

Lemma clear_at_agrees (enemy : Color) (t : Z) (p : Position) :
  boards64 p ->
  NativeMove.clear_at enemy t p = fold_left (removeAt enemy t) allKinds p.
Proof.
  intros B.
  assert (G : forall ks q, boards64 q ->
            fold_left (fun b k => setBB k enemy
                                    (Z.land (bb k enemy b) (NativeMove.cnot t)) b) ks q
            = fold_left (removeAt enemy t) ks q).
  { induction ks as [|k ks IH]; intros q Bq; cbn [fold_left]; [reflexivity|].
    rewrite land_cnot by (intros n Hn; now apply Bq).
    apply IH. apply (boards64_removeAt enemy t [k] q Bq). }
  rewrite <- (G allKinds p B). reflexivity.
Qed.














Lemma BIT_on_board (s : Z) : 0 <= s < 64 -> Native.BIT s = Native.CRet (bit s).
Proof.
  intros H. unfold Native.BIT, bit.
  destruct (Z.leb_spec 0 s); [|lia]. destruct (Z.ltb_spec s 64); [reflexivity | lia].
Qed.





(** ** Promotion, from the text to the board *)

Lemma matchTarget_promotion (s pre : jsstring) (c0 c1 c : ascii) :
  matchTarget s = Some (pre, c0, c1, Some c) ->
  is_in (str "NBRQ") c = true /\ s = pre ++ [c0; c1; "="%char; c].
Proof.
  unfold matchTarget. intros H.
  rewrite <- (rev_involutive s). destruct (rev s) as [|x [|y l]]; try discriminate.
  destruct (between "a" "h" y && between "1" "8" x); [discriminate|].
  destruct l as [|d1 [|d0 l']]; try discriminate.
  destruct ((y =? "=")%char && is_in (str "NBRQ") x && between "a" "h" d0
            && between "1" "8" d1) eqn:E; [|discriminate].
  injection H as <- <- <- <-.
  apply andb_true_iff in E as [E _]. apply andb_true_iff in E as [E _].
  apply andb_true_iff in E as [Ey Ex]. apply Ascii.eqb_eq in Ey. subst y.
  split; [exact Ex|]. cbn [rev]. rewrite <- !app_assoc. reflexivity.
Qed.

Lemma parseSAN_promotion (san : jsstring) (ps : ParsedSAN) (s : jsstring) :
  parseSAN san = Ret (Some ps) -> parsedPromotion ps = Some s ->
  exists pre c,
    is_in (str "NBRQ") c = true /\ trim san = pre ++ ["="%char; c] /\
    s = [toLowerCase c].
Proof.
  unfold parseSAN. cbv zeta.
  destruct (str_eqb (trim san) (str "O-O") || str_eqb (trim san) (str "O-O-O")).
  { intros H. apply Ret_inj in H. injection H as <-. discriminate. }
  destruct (matchTarget (trim san)) as [[[[pre c0] c1] promo]|] eqn:M; [|discriminate].
  destruct (squareToIndex c0 c1) as [ti|]; [|discriminate].
  destruct (match dropFinalX pre with
            | [] => (None, dropFinalX pre)
            | c :: rest' =>
                if is_in (str "NBRQK") c then (Some c, rest') else (None, dropFinalX pre)
            end) as [pc rest].
  destruct (disambOf rest) as [dF dR].
  intros H. apply Ret_inj in H. injection H as <-. cbn [parsedPromotion].
  destruct promo as [c|]; [|discriminate]. intros H. injection H as <-.
  destruct (matchTarget_promotion _ _ _ _ _ M) as [Hc Hs].
  exists (pre ++ [c0; c1]), c. split; [exact Hc|]. split; [|reflexivity].
  rewrite Hs, <- app_assoc. reflexivity.
Qed.

(** X29.  A promotion written in a text reaches the board as written: when
    [resolveSAN] returns a descriptor with a promotion, the text ends in
    "=" and one of N, B, R, Q, the promotion field is that letter in lower
    case, and the piece [makeMove] puts on the board for it is the piece
    the letter names; the knight that stands for an unknown field is
    reached from a text only through "=N". *)
Theorem san_promotion_names_the_piece (p : Position) (san : jsstring) (m : Move)
  (s : jsstring) :
  resolveSAN p san = Ret (Some m) -> promotion m = Some s ->
  exists pre c,
    trim san = pre ++ ["="%char; c] /\ is_in (str "NBRQ") c = true /\
    s = [toLowerCase c] /\ promotionTarget s = promotedKind c.
Proof.
  intros H Hs. unfold resolveSAN in H.
  destruct (parseSAN san) as [[ps|]|] eqn:E; cbn [bind] in H; try discriminate.
  assert (P : parsedPromotion ps = Some s).
  { revert H. destruct (truthy (parsedCastle ps)).
    - intros H. apply Ret_inj in H. injection H as H. subst m. discriminate.
    - destruct (candidatesOf p ps) as [cands|]; [|discriminate]. cbn [bind].
      destruct (originOf cands (disambFile ps) (disambRank ps)) as [fromSq|];
        [|discriminate].
      cbn [bind]. destruct (fromSq <? 0); [discriminate|].
      intros H. apply Ret_inj in H. injection H as H. subst m.
      cbn [promotion buildMove] in Hs.
      destruct (truthy (parsedPromotion ps)); [exact Hs | discriminate]. }
  destruct (parseSAN_promotion san ps s E P) as (pre & c & Hc & Ht & ->).
  exists pre, c. repeat split; try assumption.
  unfold is_in, str in Hc. cbn [list_ascii_of_string existsb] in Hc.
  rewrite !orb_true_iff, !Ascii.eqb_eq in Hc.
  destruct Hc as [->|[->|[->|[->|Hc]]]]; try reflexivity. discriminate.
Qed.

Lemma san_promotion_names_the_piece_witness :
  exists pre c,
    trim (str "a8=Q") = pre ++ ["="%char; c] /\ is_in (str "NBRQ") c = true /\
    str "q" = [toLowerCase c] /\ promotionTarget (str "q") = promotedKind c.
Proof.
  apply (san_promotion_names_the_piece
           (loadFromFEN (str "8/P7/8/8/8/8/8/k6K w - - 0 1") reset) (str "a8=Q")
           (mkMove 48 56 (Some (str "q")) None false) (str "q")).
  - vm_compute. reflexivity.
  - reflexivity.
Defined.

(** ** The two engines on an empty origin *)

Lemma moveFirst_none (side : Color) (f t : Z) (ks : list Kind) (q : Position) :
  (forall k, nonzero (Z.land (bb k side q) f) = false) ->
  moveFirst side f t ks q = q.
Proof.
  intros H. induction ks as [|k ks IH]; cbn [moveFirst]; [reflexivity|].
  unfold movePiece. now rewrite H.
Qed.

Lemma finish_agrees (b : Position) : NativeMove.finish b = _finishMove b.
Proof. reflexivity. Qed.

(** X30.  Where the engines part on a move: with no piece of the mover on
    the origin (both squares on the board, no castle, promotion or
    en-passant flag), the script's [makeMove] leaves the mover's sets as
    they are, while the native [make_move], whose last branch moves the
    king without a test, puts a king of the mover on the origin and on the
    destination. *)
Theorem native_make_move_on_empty_origin (p : Position) (m : Move) :
  0 <= from m < 64 -> 0 <= to m < 64 ->
  castle m = None -> promotion m = None -> enpassant m = false ->
  (forall k c, 0 <= bb k c p < 2 ^ 64) ->
  (forall k, Z.testbit (bb k (sideToMove p) p) (from m) = false) ->
  (forall k, bb k (sideToMove p) (makeMove p m) = bb k (sideToMove p) p) /\
  exists q,
    NativeMove.make_move p (NativeMove.ofMove m) = Native.CRet q /\
    Z.testbit (bb King (sideToMove p) q) (from m) = true /\
    Z.testbit (bb King (sideToMove p) q) (to m) = true.
Proof.
  intros Hf Ht Hc Hp He Hb Hn. apply boards64_of_range in Hb.
  set (side := sideToMove p).
  set (q1 := fold_left (removeAt (opp side) (bit (to m))) allKinds p).
  assert (E0 : enPassantCapture side m p = p).
  { unfold enPassantCapture. now rewrite He. }
  assert (T : forall k, nonzero (Z.land (bb k side q1) (bit (from m))) = false).
  { intros k. rewrite nonzero_land_bit by lia. unfold q1.
    rewrite bb_removeAt_side. apply Hn. }
  split.
  - intros k. rewrite bb_plainMove by (rewrite Hc; reflexivity).
    fold side. rewrite E0. fold q1.
    rewrite promote_absent by (rewrite Hp; reflexivity).
    rewrite (moveFirst_none side _ _ allKinds q1 T). unfold q1.
    apply bb_removeAt_side.
  - unfold NativeMove.make_move. cbv zeta.
    replace (Native.c_from (NativeMove.ofMove m)) with (from m) by reflexivity.
    replace (Native.c_to (NativeMove.ofMove m)) with (to m) by reflexivity.
    rewrite !BIT_on_board by assumption. cbn [Native.cbind].
    assert (C0 : Native.c_castle (NativeMove.ofMove m) = 0).
    { unfold NativeMove.ofMove. cbn [Native.c_castle]. now rewrite Hc. }
    assert (P0 : Native.c_promotion (NativeMove.ofMove m) = 0).
    { unfold NativeMove.ofMove. cbn [Native.c_promotion]. now rewrite Hp. }
    rewrite C0. cbn [Z.eqb negb].
    unfold NativeMove.en_passant_capture.
    replace (Native.c_enpassant (NativeMove.ofMove m)) with (enpassant m) by reflexivity.
    rewrite He. cbn [Native.cbind]. fold side.
    rewrite (clear_at_agrees _ _ p Hb). fold q1.
    unfold NativeMove.move_piece. rewrite !T.
    unfold NativeMove.promote. rewrite P0. cbn [Z.eqb].
    eexists. split; [reflexivity|].
    rewrite finish_agrees, bb_finishMove.
    unfold NativeMove.update_rights, NativeMove.en_passant_field. cbn [andb].
    assert (K : forall n, 0 <= n ->
              Z.testbit (Z.lor (Z.lxor (bb King side q1) (bit (from m))) (bit (to m))) n
              = xorb (Z.testbit (bb King side p) n) (n =? from m) || (n =? to m)).
    { intros n Hn0. rewrite Z.lor_spec, Z.lxor_spec, !bit_testbit by lia.
      unfold q1. now rewrite bb_removeAt_side. }
    match goal with
    | |- Z.testbit (bb King side ?q) _ = true /\ _ =>
        assert (B : bb King side q
                    = Z.lor (Z.lxor (bb King side q1) (bit (from m))) (bit (to m)))
    end.
    { repeat match goal with
             | |- context [if ?b then _ else _] => destruct b
             end;
        rewrite ?bb_setCastling, ?bb_setEnPassant; apply bb_setBB_same. }
    pose proof (Hn King) as HK. fold side in HK.
    rewrite B, !K by lia. rewrite HK, !Z.eqb_refl.
    split; [|apply orb_true_r]. reflexivity.
Qed.

Lemma native_make_move_on_empty_origin_witness :
  (forall k, bb k (sideToMove reset) (makeMove reset (plainMove 28 36))
             = bb k (sideToMove reset) reset) /\
  exists q,
    NativeMove.make_move reset (NativeMove.ofMove (plainMove 28 36)) = Native.CRet q /\
    Z.testbit (bb King (sideToMove reset) q) (from (plainMove 28 36)) = true /\
    Z.testbit (bb King (sideToMove reset) q) (to (plainMove 28 36)) = true.
Proof.
  apply (native_make_move_on_empty_origin reset (plainMove 28 36)).
  - cbn. lia.
  - cbn. lia.
  - reflexivity.
  - reflexivity.
  - reflexivity.
  - intros k c. destruct k, c; cbn; lia.
  - intros k. destruct k; reflexivity.
Defined.
